(** * DiaBRO enemy editor: a shallow embedding of [tools/enemy_editor/static/app.js]

    The editor is a single-page DOM application.  Its module-level [let]
    variables, the part of the document it reads and writes, and the browser
    runtime it schedules work on (interval timers, one-shot timeouts, pending
    image loads) are modelled as one explicit [World]; every function of the
    script becomes a computation in a state-and-exception monad over that
    world, and every way the browser can call back into the script becomes an
    [Event].

    The source file also carries an older revision of the script, without
    weapon overlays and list thumbnails; the model follows the current one.

    Conventions.
    - JavaScript numbers that are always integers in the script (cursor
      indices, weapon offsets, colour channels) are [Z]; the remainder
      operator [%] is [Z.rem] (truncating, sign of the dividend).
    - Other numbers are [JSNum]: NaN, the two infinities, or a finite value
      carried as an exact rational.  Rounding to binary64 and the sign of
      zero are not represented.
    - Functions of the platform whose exact behaviour is not part of this
      repository ([parseFloat], [parseInt], [toLowerCase], number printing)
      are the fields of the [Platform] class; general results hold for every
      platform, concrete runs use [ascii_platform]. *)

From Stdlib Require Import ZArith QArith Qreduction Qround Ascii DecimalString.
From stdpp Require Import base option list gmap strings.

Local Open Scope Z_scope.

(** ** JavaScript strings *)

Module JsString.

(** [s.includes(sub)] *)
Fixpoint includes (sub s : string) : bool :=
  String.prefix sub s ||
  match s with
  | EmptyString => false
  | String _ s' => includes sub s'
  end.

(** [s.split(sep)] for a one-character separator; [acc] is the segment being
    read, in reverse. *)
Fixpoint split_go (sep : ascii) (acc : string) (s : string) : list string :=
  match s with
  | EmptyString => [String.rev acc]
  | String c s' =>
      if Ascii.eqb c sep then String.rev acc :: split_go sep EmptyString s'
      else split_go sep (String c acc) s'
  end.

Definition split (sep : ascii) (s : string) : list string :=
  split_go sep EmptyString s.

(** [arr.pop()] on the result of [split], which is never empty. *)
Definition pop (l : list string) : string := List.last l EmptyString.

(** [s.replace(pat, rep)] for a one-character string pattern: only the
    first occurrence is replaced. *)
Fixpoint replace (pat : ascii) (rep : string) (s : string) : string :=
  match s with
  | EmptyString => EmptyString
  | String c s' =>
      if Ascii.eqb c pat then rep +:+ s' else String c (replace pat rep s')
  end.

(** [arr.join(sep)] *)
Fixpoint join (sep : string) (l : list string) : string :=
  match l with
  | [] => EmptyString
  | [x] => x
  | x :: l' => x +:+ sep +:+ join sep l'
  end.

(** Truthiness of a string: only the empty string is falsy. *)
Definition truthy (s : string) : bool :=
  match s with EmptyString => false | _ => true end.

(** [a || b] on strings. *)
Definition or (a b : string) : string := if truthy a then a else b.

(** [String(z)] for an integer. *)
Definition of_Z (z : Z) : string := NilZero.string_of_int (Z.to_int z).

(** Whether the character occurs in the string. *)
Fixpoint contains_char (c : ascii) (s : string) : bool :=
  match s with
  | EmptyString => false
  | String a s' => Ascii.eqb a c || contains_char c s'
  end.

(** [s.endsWith(suffix)] *)
Fixpoint endsWith (s suffix : string) : bool :=
  String.eqb s suffix ||
  match s with
  | EmptyString => false
  | String _ s' => endsWith s' suffix
  end.

End JsString.

(** The one-character string holding a double quote. *)
Definition dquote : string := String (ascii_of_nat 34) "".

(** ** JavaScript numbers *)

Inductive JSNum : Type :=
| NaN
| NegInf
| Fin (q : Q)
| PosInf.

Module JsNum.

Definition of_Z (z : Z) : JSNum := Fin (inject_Z z).

Definition Qlt_bool (x y : Q) : bool :=
  (Qnum x * QDen y <? Qnum y * QDen x)%Z.

(** [a < b]; every comparison with NaN is false. *)
Definition lt (a b : JSNum) : bool :=
  match a, b with
  | NaN, _ | _, NaN => false
  | NegInf, NegInf => false
  | NegInf, _ => true
  | _, NegInf => false
  | PosInf, _ => false
  | Fin _, PosInf => true
  | Fin x, Fin y => Qlt_bool x y
  end.

(** [a > b] *)
Definition gt (a b : JSNum) : bool := lt b a.

(** Truthiness of a number: 0 and NaN are falsy. *)
Definition truthy (a : JSNum) : bool :=
  match a with
  | NaN => false
  | Fin q => negb (Qeq_bool q 0)
  | _ => true
  end.

(** [a || b] on numbers. *)
Definition or (a b : JSNum) : JSNum := if truthy a then a else b.

Definition sgn (q : Q) : Z := Z.sgn (Qnum q).

Definition inf_of_sign (s : Z) : JSNum :=
  if (s =? 0)%Z then NaN else if (0 <? s)%Z then PosInf else NegInf.

Definition sign (a : JSNum) : Z :=
  match a with
  | NaN => 0
  | NegInf => -1
  | Fin q => sgn q
  | PosInf => 1
  end.

(** [a * b] *)
Definition mul (a b : JSNum) : JSNum :=
  match a, b with
  | NaN, _ | _, NaN => NaN
  | Fin x, Fin y => Fin (Qred (x * y))
  | _, _ => inf_of_sign (sign a * sign b)
  end.

(** [a - b] *)
Definition sub (a b : JSNum) : JSNum :=
  match a, b with
  | NaN, _ | _, NaN => NaN
  | Fin x, Fin y => Fin (Qred (x - y))
  | PosInf, PosInf | NegInf, NegInf => NaN
  | PosInf, _ | _, NegInf => PosInf
  | NegInf, _ | _, PosInf => NegInf
  end.

(** [a / b] *)
Definition div (a b : JSNum) : JSNum :=
  match a, b with
  | NaN, _ | _, NaN => NaN
  | Fin x, Fin y =>
      if Qeq_bool y 0 then inf_of_sign (sgn x) else Fin (Qred (x / y))
  | Fin _, _ => Fin 0
  | _, Fin y => inf_of_sign (sign a * (if Qeq_bool y 0 then 1 else sgn y))
  | _, _ => NaN
  end.

(** Numeric equality of two values (finite values up to [Qeq]). *)
Definition eqv (a b : JSNum) : Prop :=
  match a, b with
  | NaN, NaN | NegInf, NegInf | PosInf, PosInf => True
  | Fin x, Fin y => (x == y)%Q
  | _, _ => False
  end.

End JsNum.

(** ** Platform functions *)

Class Platform : Type := {
  (** [parseFloat(s)] *)
  parseFloat : string -> JSNum;
  (** [parseInt(s)]: an integer, or [None] for NaN *)
  parseInt : string -> option Z;
  (** [s.toLowerCase()] *)
  toLowerCase : string -> string;
  (** [String(x)] for a number *)
  numberToString : JSNum -> string;
  (** [x.toFixed(1)] *)
  toFixed1 : JSNum -> string
}.

(** ** Data model *)

(** An [Image] object; [img_id] is its identity, [img_src] the URL assigned to
    [img.src]. *)
Record Image : Type := { img_id : nat; img_src : string }.

(** The persisted description of one enemy type, as the backend returns it.
    A field the JSON object lacks is [None]. *)
Record EnemyRecord : Type := {
  name : option string;
  sprite_path : option string;
  weapon_path : option string;
  weapon_offset : option (Z * Z);
  projectile_path : option string;
  sprite_scale : option JSNum;
  max_health : option JSNum;
  damage : option JSNum;
  speed : option JSNum;
  attack_type : option string;
  aggro_range : option JSNum;
  attack_range : option JSNum;
  attack_cooldown : option JSNum;
  color : option (Z * Z * Z)
}.

(** A drawing target: a canvas of the static page, found by its id, or the
    canvas node created for one entry of the enemy list. *)
Inductive Surface : Type :=
| StaticCanvas (id : string)
| ListCanvas (node : nat).

(** One call on a 2D context.  The style properties in force
    ([fillStyle], [font], [textAlign]) are recorded with the call that uses
    them. *)
Inductive DrawOp : Type :=
| ClearRect (x y w h : Z)
| DrawImage (img : Image) (sx sy sw sh : Z) (dx dy dw dh : JSNum)
| FillRect (fillStyle : string) (x y w h : Z)
| FillText (fillStyle font textAlign text : string) (x y : Z).

(** An element of the static page, with the properties the script uses. *)
Record Element : Type := {
  value : string;
  disabled : bool;
  textContent : string;
  display : string;                (* style.display *)
  background : string;             (* style.background *)
  hidden : bool;                   (* classList.contains('hidden') *)
  options : option (list string);  (* a <select>: the values of its options *)
  ops : list DrawOp                (* a <canvas>: calls received, oldest first *)
}.

Definition set_value (x : _) (e : Element) : Element :=
  {| value := x; disabled := disabled e; textContent := textContent e;
     display := display e; background := background e; hidden := hidden e;
     options := options e; ops := ops e |}.

Definition set_disabled (x : _) (e : Element) : Element :=
  {| value := value e; disabled := x; textContent := textContent e;
     display := display e; background := background e; hidden := hidden e;
     options := options e; ops := ops e |}.

Definition set_textContent (x : _) (e : Element) : Element :=
  {| value := value e; disabled := disabled e; textContent := x;
     display := display e; background := background e; hidden := hidden e;
     options := options e; ops := ops e |}.

Definition set_display (x : _) (e : Element) : Element :=
  {| value := value e; disabled := disabled e; textContent := textContent e;
     display := x; background := background e; hidden := hidden e;
     options := options e; ops := ops e |}.

Definition set_background (x : _) (e : Element) : Element :=
  {| value := value e; disabled := disabled e; textContent := textContent e;
     display := display e; background := x; hidden := hidden e;
     options := options e; ops := ops e |}.

Definition set_hidden (x : _) (e : Element) : Element :=
  {| value := value e; disabled := disabled e; textContent := textContent e;
     display := display e; background := background e; hidden := x;
     options := options e; ops := ops e |}.

Definition set_options (x : _) (e : Element) : Element :=
  {| value := value e; disabled := disabled e; textContent := textContent e;
     display := display e; background := background e; hidden := hidden e;
     options := x; ops := ops e |}.

Definition set_ops (x : _) (e : Element) : Element :=
  {| value := value e; disabled := disabled e; textContent := textContent e;
     display := display e; background := background e; hidden := hidden e;
     options := options e; ops := x |}.

(** One child of [#enemy-list]. *)
Record ListItem : Type := {
  item_id : string;
  item_active : bool;
  item_name : string;
  item_canvasId : string;
  item_canvas : nat
}.

(** The document. *)
Record Doc : Type := {
  elements : gmap string Element;
  radios : list string;            (* values of the attack-type radio inputs *)
  radioChecked : option string;    (* value of the checked one *)
  enemyListItems : list ListItem;
  spriteListItems : list string;
  textureListItems : list string;
  listCanvasOps : gmap nat (list DrawOp);
  toasts : list (string * string)  (* notifications shown: message, type *)
}.

Definition set_elements (x : _) (d : Doc) : Doc :=
  {| elements := x; radios := radios d; radioChecked := radioChecked d;
     enemyListItems := enemyListItems d;
     spriteListItems := spriteListItems d;
     textureListItems := textureListItems d;
     listCanvasOps := listCanvasOps d; toasts := toasts d |}.

Definition set_radios (x : _) (d : Doc) : Doc :=
  {| elements := elements d; radios := x; radioChecked := radioChecked d;
     enemyListItems := enemyListItems d;
     spriteListItems := spriteListItems d;
     textureListItems := textureListItems d;
     listCanvasOps := listCanvasOps d; toasts := toasts d |}.

Definition set_radioChecked (x : _) (d : Doc) : Doc :=
  {| elements := elements d; radios := radios d; radioChecked := x;
     enemyListItems := enemyListItems d;
     spriteListItems := spriteListItems d;
     textureListItems := textureListItems d;
     listCanvasOps := listCanvasOps d; toasts := toasts d |}.

Definition set_enemyListItems (x : _) (d : Doc) : Doc :=
  {| elements := elements d; radios := radios d;
     radioChecked := radioChecked d; enemyListItems := x;
     spriteListItems := spriteListItems d;
     textureListItems := textureListItems d;
     listCanvasOps := listCanvasOps d; toasts := toasts d |}.

Definition set_spriteListItems (x : _) (d : Doc) : Doc :=
  {| elements := elements d; radios := radios d;
     radioChecked := radioChecked d; enemyListItems := enemyListItems d;
     spriteListItems := x; textureListItems := textureListItems d;
     listCanvasOps := listCanvasOps d; toasts := toasts d |}.

Definition set_textureListItems (x : _) (d : Doc) : Doc :=
  {| elements := elements d; radios := radios d;
     radioChecked := radioChecked d; enemyListItems := enemyListItems d;
     spriteListItems := spriteListItems d; textureListItems := x;
     listCanvasOps := listCanvasOps d; toasts := toasts d |}.

Definition set_listCanvasOps (x : _) (d : Doc) : Doc :=
  {| elements := elements d; radios := radios d;
     radioChecked := radioChecked d; enemyListItems := enemyListItems d;
     spriteListItems := spriteListItems d;
     textureListItems := textureListItems d; listCanvasOps := x;
     toasts := toasts d |}.

Definition set_toasts (x : _) (d : Doc) : Doc :=
  {| elements := elements d; radios := radios d;
     radioChecked := radioChecked d; enemyListItems := enemyListItems d;
     spriteListItems := spriteListItems d;
     textureListItems := textureListItems d;
     listCanvasOps := listCanvasOps d; toasts := x |}.

(** An entry of [enemyListAnimations]. *)
Record ListAnim : Type := { interval : positive; img : Image }.

(** The module-level variables of the script. *)
Record Vars : Type := {
  enemyTypes : list (string * EnemyRecord);
  availableSprites : list string;
  availableWeapons : list string;
  availableTextures : list string;
  currentEnemyId : option string;
  currentSpriteImage : option Image;
  currentWeaponImage : option Image;
  playerSpriteImage : option Image;
  animationFrame : Z;
  animationDirection : Z;
  animationInterval : option positive;
  currentPreviewScale : JSNum;
  currentWeaponOffsetX : Z;
  currentWeaponOffsetY : Z;
  previewSidebarVisible : bool;
  enemyListAnimations : gmap string ListAnim;
  editorPreviewAnimation : option positive
}.

Definition set_enemyTypes (x : _) (v : Vars) : Vars :=
  {| enemyTypes := x; availableSprites := availableSprites v;
     availableWeapons := availableWeapons v;
     availableTextures := availableTextures v;
     currentEnemyId := currentEnemyId v;
     currentSpriteImage := currentSpriteImage v;
     currentWeaponImage := currentWeaponImage v;
     playerSpriteImage := playerSpriteImage v;
     animationFrame := animationFrame v;
     animationDirection := animationDirection v;
     animationInterval := animationInterval v;
     currentPreviewScale := currentPreviewScale v;
     currentWeaponOffsetX := currentWeaponOffsetX v;
     currentWeaponOffsetY := currentWeaponOffsetY v;
     previewSidebarVisible := previewSidebarVisible v;
     enemyListAnimations := enemyListAnimations v;
     editorPreviewAnimation := editorPreviewAnimation v |}.

Definition set_availableSprites (x : _) (v : Vars) : Vars :=
  {| enemyTypes := enemyTypes v; availableSprites := x;
     availableWeapons := availableWeapons v;
     availableTextures := availableTextures v;
     currentEnemyId := currentEnemyId v;
     currentSpriteImage := currentSpriteImage v;
     currentWeaponImage := currentWeaponImage v;
     playerSpriteImage := playerSpriteImage v;
     animationFrame := animationFrame v;
     animationDirection := animationDirection v;
     animationInterval := animationInterval v;
     currentPreviewScale := currentPreviewScale v;
     currentWeaponOffsetX := currentWeaponOffsetX v;
     currentWeaponOffsetY := currentWeaponOffsetY v;
     previewSidebarVisible := previewSidebarVisible v;
     enemyListAnimations := enemyListAnimations v;
     editorPreviewAnimation := editorPreviewAnimation v |}.

Definition set_availableWeapons (x : _) (v : Vars) : Vars :=
  {| enemyTypes := enemyTypes v; availableSprites := availableSprites v;
     availableWeapons := x; availableTextures := availableTextures v;
     currentEnemyId := currentEnemyId v;
     currentSpriteImage := currentSpriteImage v;
     currentWeaponImage := currentWeaponImage v;
     playerSpriteImage := playerSpriteImage v;
     animationFrame := animationFrame v;
     animationDirection := animationDirection v;
     animationInterval := animationInterval v;
     currentPreviewScale := currentPreviewScale v;
     currentWeaponOffsetX := currentWeaponOffsetX v;
     currentWeaponOffsetY := currentWeaponOffsetY v;
     previewSidebarVisible := previewSidebarVisible v;
     enemyListAnimations := enemyListAnimations v;
     editorPreviewAnimation := editorPreviewAnimation v |}.

Definition set_availableTextures (x : _) (v : Vars) : Vars :=
  {| enemyTypes := enemyTypes v; availableSprites := availableSprites v;
     availableWeapons := availableWeapons v; availableTextures := x;
     currentEnemyId := currentEnemyId v;
     currentSpriteImage := currentSpriteImage v;
     currentWeaponImage := currentWeaponImage v;
     playerSpriteImage := playerSpriteImage v;
     animationFrame := animationFrame v;
     animationDirection := animationDirection v;
     animationInterval := animationInterval v;
     currentPreviewScale := currentPreviewScale v;
     currentWeaponOffsetX := currentWeaponOffsetX v;
     currentWeaponOffsetY := currentWeaponOffsetY v;
     previewSidebarVisible := previewSidebarVisible v;
     enemyListAnimations := enemyListAnimations v;
     editorPreviewAnimation := editorPreviewAnimation v |}.

Definition set_currentEnemyId (x : _) (v : Vars) : Vars :=
  {| enemyTypes := enemyTypes v; availableSprites := availableSprites v;
     availableWeapons := availableWeapons v;
     availableTextures := availableTextures v; currentEnemyId := x;
     currentSpriteImage := currentSpriteImage v;
     currentWeaponImage := currentWeaponImage v;
     playerSpriteImage := playerSpriteImage v;
     animationFrame := animationFrame v;
     animationDirection := animationDirection v;
     animationInterval := animationInterval v;
     currentPreviewScale := currentPreviewScale v;
     currentWeaponOffsetX := currentWeaponOffsetX v;
     currentWeaponOffsetY := currentWeaponOffsetY v;
     previewSidebarVisible := previewSidebarVisible v;
     enemyListAnimations := enemyListAnimations v;
     editorPreviewAnimation := editorPreviewAnimation v |}.

Definition set_currentSpriteImage (x : _) (v : Vars) : Vars :=
  {| enemyTypes := enemyTypes v; availableSprites := availableSprites v;
     availableWeapons := availableWeapons v;
     availableTextures := availableTextures v;
     currentEnemyId := currentEnemyId v; currentSpriteImage := x;
     currentWeaponImage := currentWeaponImage v;
     playerSpriteImage := playerSpriteImage v;
     animationFrame := animationFrame v;
     animationDirection := animationDirection v;
     animationInterval := animationInterval v;
     currentPreviewScale := currentPreviewScale v;
     currentWeaponOffsetX := currentWeaponOffsetX v;
     currentWeaponOffsetY := currentWeaponOffsetY v;
     previewSidebarVisible := previewSidebarVisible v;
     enemyListAnimations := enemyListAnimations v;
     editorPreviewAnimation := editorPreviewAnimation v |}.

Definition set_currentWeaponImage (x : _) (v : Vars) : Vars :=
  {| enemyTypes := enemyTypes v; availableSprites := availableSprites v;
     availableWeapons := availableWeapons v;
     availableTextures := availableTextures v;
     currentEnemyId := currentEnemyId v;
     currentSpriteImage := currentSpriteImage v; currentWeaponImage := x;
     playerSpriteImage := playerSpriteImage v;
     animationFrame := animationFrame v;
     animationDirection := animationDirection v;
     animationInterval := animationInterval v;
     currentPreviewScale := currentPreviewScale v;
     currentWeaponOffsetX := currentWeaponOffsetX v;
     currentWeaponOffsetY := currentWeaponOffsetY v;
     previewSidebarVisible := previewSidebarVisible v;
     enemyListAnimations := enemyListAnimations v;
     editorPreviewAnimation := editorPreviewAnimation v |}.

Definition set_playerSpriteImage (x : _) (v : Vars) : Vars :=
  {| enemyTypes := enemyTypes v; availableSprites := availableSprites v;
     availableWeapons := availableWeapons v;
     availableTextures := availableTextures v;
     currentEnemyId := currentEnemyId v;
     currentSpriteImage := currentSpriteImage v;
     currentWeaponImage := currentWeaponImage v; playerSpriteImage := x;
     animationFrame := animationFrame v;
     animationDirection := animationDirection v;
     animationInterval := animationInterval v;
     currentPreviewScale := currentPreviewScale v;
     currentWeaponOffsetX := currentWeaponOffsetX v;
     currentWeaponOffsetY := currentWeaponOffsetY v;
     previewSidebarVisible := previewSidebarVisible v;
     enemyListAnimations := enemyListAnimations v;
     editorPreviewAnimation := editorPreviewAnimation v |}.

Definition set_animationFrame (x : _) (v : Vars) : Vars :=
  {| enemyTypes := enemyTypes v; availableSprites := availableSprites v;
     availableWeapons := availableWeapons v;
     availableTextures := availableTextures v;
     currentEnemyId := currentEnemyId v;
     currentSpriteImage := currentSpriteImage v;
     currentWeaponImage := currentWeaponImage v;
     playerSpriteImage := playerSpriteImage v; animationFrame := x;
     animationDirection := animationDirection v;
     animationInterval := animationInterval v;
     currentPreviewScale := currentPreviewScale v;
     currentWeaponOffsetX := currentWeaponOffsetX v;
     currentWeaponOffsetY := currentWeaponOffsetY v;
     previewSidebarVisible := previewSidebarVisible v;
     enemyListAnimations := enemyListAnimations v;
     editorPreviewAnimation := editorPreviewAnimation v |}.

Definition set_animationDirection (x : _) (v : Vars) : Vars :=
  {| enemyTypes := enemyTypes v; availableSprites := availableSprites v;
     availableWeapons := availableWeapons v;
     availableTextures := availableTextures v;
     currentEnemyId := currentEnemyId v;
     currentSpriteImage := currentSpriteImage v;
     currentWeaponImage := currentWeaponImage v;
     playerSpriteImage := playerSpriteImage v;
     animationFrame := animationFrame v; animationDirection := x;
     animationInterval := animationInterval v;
     currentPreviewScale := currentPreviewScale v;
     currentWeaponOffsetX := currentWeaponOffsetX v;
     currentWeaponOffsetY := currentWeaponOffsetY v;
     previewSidebarVisible := previewSidebarVisible v;
     enemyListAnimations := enemyListAnimations v;
     editorPreviewAnimation := editorPreviewAnimation v |}.

Definition set_animationInterval (x : _) (v : Vars) : Vars :=
  {| enemyTypes := enemyTypes v; availableSprites := availableSprites v;
     availableWeapons := availableWeapons v;
     availableTextures := availableTextures v;
     currentEnemyId := currentEnemyId v;
     currentSpriteImage := currentSpriteImage v;
     currentWeaponImage := currentWeaponImage v;
     playerSpriteImage := playerSpriteImage v;
     animationFrame := animationFrame v;
     animationDirection := animationDirection v; animationInterval := x;
     currentPreviewScale := currentPreviewScale v;
     currentWeaponOffsetX := currentWeaponOffsetX v;
     currentWeaponOffsetY := currentWeaponOffsetY v;
     previewSidebarVisible := previewSidebarVisible v;
     enemyListAnimations := enemyListAnimations v;
     editorPreviewAnimation := editorPreviewAnimation v |}.

Definition set_currentPreviewScale (x : _) (v : Vars) : Vars :=
  {| enemyTypes := enemyTypes v; availableSprites := availableSprites v;
     availableWeapons := availableWeapons v;
     availableTextures := availableTextures v;
     currentEnemyId := currentEnemyId v;
     currentSpriteImage := currentSpriteImage v;
     currentWeaponImage := currentWeaponImage v;
     playerSpriteImage := playerSpriteImage v;
     animationFrame := animationFrame v;
     animationDirection := animationDirection v;
     animationInterval := animationInterval v; currentPreviewScale := x;
     currentWeaponOffsetX := currentWeaponOffsetX v;
     currentWeaponOffsetY := currentWeaponOffsetY v;
     previewSidebarVisible := previewSidebarVisible v;
     enemyListAnimations := enemyListAnimations v;
     editorPreviewAnimation := editorPreviewAnimation v |}.

Definition set_currentWeaponOffsetX (x : _) (v : Vars) : Vars :=
  {| enemyTypes := enemyTypes v; availableSprites := availableSprites v;
     availableWeapons := availableWeapons v;
     availableTextures := availableTextures v;
     currentEnemyId := currentEnemyId v;
     currentSpriteImage := currentSpriteImage v;
     currentWeaponImage := currentWeaponImage v;
     playerSpriteImage := playerSpriteImage v;
     animationFrame := animationFrame v;
     animationDirection := animationDirection v;
     animationInterval := animationInterval v;
     currentPreviewScale := currentPreviewScale v;
     currentWeaponOffsetX := x;
     currentWeaponOffsetY := currentWeaponOffsetY v;
     previewSidebarVisible := previewSidebarVisible v;
     enemyListAnimations := enemyListAnimations v;
     editorPreviewAnimation := editorPreviewAnimation v |}.

Definition set_currentWeaponOffsetY (x : _) (v : Vars) : Vars :=
  {| enemyTypes := enemyTypes v; availableSprites := availableSprites v;
     availableWeapons := availableWeapons v;
     availableTextures := availableTextures v;
     currentEnemyId := currentEnemyId v;
     currentSpriteImage := currentSpriteImage v;
     currentWeaponImage := currentWeaponImage v;
     playerSpriteImage := playerSpriteImage v;
     animationFrame := animationFrame v;
     animationDirection := animationDirection v;
     animationInterval := animationInterval v;
     currentPreviewScale := currentPreviewScale v;
     currentWeaponOffsetX := currentWeaponOffsetX v;
     currentWeaponOffsetY := x;
     previewSidebarVisible := previewSidebarVisible v;
     enemyListAnimations := enemyListAnimations v;
     editorPreviewAnimation := editorPreviewAnimation v |}.

Definition set_previewSidebarVisible (x : _) (v : Vars) : Vars :=
  {| enemyTypes := enemyTypes v; availableSprites := availableSprites v;
     availableWeapons := availableWeapons v;
     availableTextures := availableTextures v;
     currentEnemyId := currentEnemyId v;
     currentSpriteImage := currentSpriteImage v;
     currentWeaponImage := currentWeaponImage v;
     playerSpriteImage := playerSpriteImage v;
     animationFrame := animationFrame v;
     animationDirection := animationDirection v;
     animationInterval := animationInterval v;
     currentPreviewScale := currentPreviewScale v;
     currentWeaponOffsetX := currentWeaponOffsetX v;
     currentWeaponOffsetY := currentWeaponOffsetY v;
     previewSidebarVisible := x;
     enemyListAnimations := enemyListAnimations v;
     editorPreviewAnimation := editorPreviewAnimation v |}.

Definition set_enemyListAnimations (x : _) (v : Vars) : Vars :=
  {| enemyTypes := enemyTypes v; availableSprites := availableSprites v;
     availableWeapons := availableWeapons v;
     availableTextures := availableTextures v;
     currentEnemyId := currentEnemyId v;
     currentSpriteImage := currentSpriteImage v;
     currentWeaponImage := currentWeaponImage v;
     playerSpriteImage := playerSpriteImage v;
     animationFrame := animationFrame v;
     animationDirection := animationDirection v;
     animationInterval := animationInterval v;
     currentPreviewScale := currentPreviewScale v;
     currentWeaponOffsetX := currentWeaponOffsetX v;
     currentWeaponOffsetY := currentWeaponOffsetY v;
     previewSidebarVisible := previewSidebarVisible v;
     enemyListAnimations := x;
     editorPreviewAnimation := editorPreviewAnimation v |}.

Definition set_editorPreviewAnimation (x : _) (v : Vars) : Vars :=
  {| enemyTypes := enemyTypes v; availableSprites := availableSprites v;
     availableWeapons := availableWeapons v;
     availableTextures := availableTextures v;
     currentEnemyId := currentEnemyId v;
     currentSpriteImage := currentSpriteImage v;
     currentWeaponImage := currentWeaponImage v;
     playerSpriteImage := playerSpriteImage v;
     animationFrame := animationFrame v;
     animationDirection := animationDirection v;
     animationInterval := animationInterval v;
     currentPreviewScale := currentPreviewScale v;
     currentWeaponOffsetX := currentWeaponOffsetX v;
     currentWeaponOffsetY := currentWeaponOffsetY v;
     previewSidebarVisible := previewSidebarVisible v;
     enemyListAnimations := enemyListAnimations v;
     editorPreviewAnimation := x |}.

(** A live interval timer: the closure it runs, with the variables the closure
    captured. *)
Inductive Ticker : Type :=
| ThumbTicker (canvas : Surface) (image : Image) (frame direction : Z)
| SidebarTicker (weaponCtx : bool)
| EditorTicker (frame direction : Z).

(** What the [onload] and [onerror] handlers of a pending image do. *)
Inductive LoadKind : Type :=
| ThumbLoad (id canvasId : string) (colour : Z * Z * Z)
| SpriteLoad
| WeaponLoad (weaponPath : string)
| PlayerLoad.

(** The browser runtime. *)
Record Runtime : Type := {
  timers : gmap positive Ticker;          (* live setInterval timers *)
  nextTimer : positive;
  pendingLoads : gmap nat (string * LoadKind);  (* images still loading *)
  nextImage : nat;
  nextNode : nat;
  editorTimeouts : nat   (* pending setTimeout(() => startEditorPreview(), 150) *)
}.

Definition set_timers (x : _) (r : Runtime) : Runtime :=
  {| timers := x; nextTimer := nextTimer r; pendingLoads := pendingLoads r;
     nextImage := nextImage r; nextNode := nextNode r;
     editorTimeouts := editorTimeouts r |}.

Definition set_nextTimer (x : _) (r : Runtime) : Runtime :=
  {| timers := timers r; nextTimer := x; pendingLoads := pendingLoads r;
     nextImage := nextImage r; nextNode := nextNode r;
     editorTimeouts := editorTimeouts r |}.

Definition set_pendingLoads (x : _) (r : Runtime) : Runtime :=
  {| timers := timers r; nextTimer := nextTimer r; pendingLoads := x;
     nextImage := nextImage r; nextNode := nextNode r;
     editorTimeouts := editorTimeouts r |}.

Definition set_nextImage (x : _) (r : Runtime) : Runtime :=
  {| timers := timers r; nextTimer := nextTimer r;
     pendingLoads := pendingLoads r; nextImage := x; nextNode := nextNode r;
     editorTimeouts := editorTimeouts r |}.

Definition set_nextNode (x : _) (r : Runtime) : Runtime :=
  {| timers := timers r; nextTimer := nextTimer r;
     pendingLoads := pendingLoads r; nextImage := nextImage r;
     nextNode := x; editorTimeouts := editorTimeouts r |}.

Definition set_editorTimeouts (x : _) (r : Runtime) : Runtime :=
  {| timers := timers r; nextTimer := nextTimer r;
     pendingLoads := pendingLoads r; nextImage := nextImage r;
     nextNode := nextNode r; editorTimeouts := x |}.

Record World : Type := { vars : Vars; doc : Doc; rt : Runtime }.

Definition set_vars (x : _) (w : World) : World :=
  {| vars := x; doc := doc w; rt := rt w |}.

Definition set_doc (x : _) (w : World) : World :=
  {| vars := vars w; doc := x; rt := rt w |}.

Definition set_rt (x : _) (w : World) : World :=
  {| vars := vars w; doc := doc w; rt := x |}.

(** ** The execution monad

    A computation runs on the world and either completes with a value or
    throws.  JavaScript does not roll anything back when an exception
    propagates, so [Throw] carries the world as it was at the throw. *)

Inductive Res (A : Type) : Type :=
| Ok (a : A) (w : World)
| Throw (w : World).
Arguments Ok {A} a w.
Arguments Throw {A} w.

Definition Exec (A : Type) : Type := World -> Res A.

Definition ret {A} (a : A) : Exec A := fun w => Ok a w.

Definition bind {A B} (m : Exec A) (k : A -> Exec B) : Exec B :=
  fun w => match m w with
           | Ok a w' => k a w'
           | Throw w' => Throw w'
           end.

#[global] Instance Exec_ret : MRet Exec := @ret.
#[global] Instance Exec_bind : MBind Exec := fun A B k m => bind m k.

(** [throw new TypeError(...)] *)
Definition throw {A} : Exec A := fun w => Throw w.

(** [try { m } catch (error) { h }] *)
Definition try_catch (m h : Exec unit) : Exec unit :=
  fun w => match m w with
           | Ok a w' => Ok a w'
           | Throw w' => h w'
           end.

Definition gets {A} (f : World -> A) : Exec A := fun w => Ok (f w) w.
Definition modify (f : World -> World) : Exec unit := fun w => Ok tt (f w).

(** The world a computation leaves behind, whether it returned or threw. *)
Definition final {A} (r : Res A) : World :=
  match r with Ok _ w => w | Throw w => w end.

Definition returns {A} (r : Res A) : bool :=
  match r with Ok _ _ => true | Throw _ => false end.

(** [if (c) { m }] *)
Definition when (c : bool) (m : Exec unit) : Exec unit :=
  if c then m else ret tt.

(** [l.forEach(f)] *)
Fixpoint forEach {A} (f : A -> Exec unit) (l : list A) : Exec unit :=
  match l with
  | [] => ret tt
  | x :: l' => f x ;; forEach f l'
  end.

(** Access to the three parts of the world. *)
Definition getv {A} (f : Vars -> A) : Exec A := gets (fun w => f (vars w)).
Definition setv (f : Vars -> Vars) : Exec unit :=
  modify (fun w => set_vars (f (vars w)) w).
Definition getd {A} (f : Doc -> A) : Exec A := gets (fun w => f (doc w)).
Definition setd (f : Doc -> Doc) : Exec unit :=
  modify (fun w => set_doc (f (doc w)) w).
Definition getr {A} (f : Runtime -> A) : Exec A := gets (fun w => f (rt w)).
Definition setr (f : Runtime -> Runtime) : Exec unit :=
  modify (fun w => set_rt (f (rt w)) w).

(** ** The document *)

(** [document.getElementById(id)] for an element of the static page; [None]
    is [null]. *)
Definition getElementById (id : string) : Exec (option Element) :=
  getd (fun d => elements d !! id).

(** Dereferencing: a property access on [null] throws a TypeError. *)
Definition deref {A} (o : option A) : Exec A :=
  match o with
  | Some a => ret a
  | None => throw
  end.

(** [document.getElementById(id).prop], unguarded. *)
Definition getProp {A} (id : string) (prop : Element -> A) : Exec A :=
  e ← getElementById id ≫= deref; ret (prop e).

(** [document.getElementById(id).prop = ...], unguarded. *)
Definition setProp (id : string) (f : Element -> Element) : Exec unit :=
  e ← getElementById id ≫= deref;
  setd (fun d => set_elements (<[id := f e]> (elements d)) d).

(** [if (el) el.prop = ...], for an element the script allows to be absent. *)
Definition setPropIfPresent (id : string) (f : Element -> Element) : Exec unit :=
  e ← getElementById id;
  match e with
  | Some e => setd (fun d => set_elements (<[id := f e]> (elements d)) d)
  | None => ret tt
  end.

(** Assigning [el.value]: a [<select>] takes the value only if one of its
    options carries it, and becomes empty otherwise. *)
Definition assign_value (v : string) (e : Element) : Element :=
  match options e with
  | Some opts => set_value (if bool_decide (v ∈ opts) then v else "") e
  | None => set_value v e
  end.

(** Assigning the [innerHTML] of a [<select>] to a list of [<option>]s: the
    first option becomes the selected one. *)
Definition assign_options (opts : list string) (e : Element) : Element :=
  set_value (default "" (head opts)) (set_options (Some opts) e).

Definition getValue (id : string) : Exec string := getProp id value.
Definition setValue (id v : string) : Exec unit := setProp id (assign_value v).
Definition setDisplay (id v : string) : Exec unit := setProp id (set_display v).
Definition setText (id v : string) : Exec unit := setProp id (set_textContent v).

(** [el.classList.remove('hidden')] and [el.classList.add('hidden')] *)
Definition classList_remove_hidden (id : string) : Exec unit :=
  setProp id (set_hidden false).
Definition classList_add_hidden (id : string) : Exec unit :=
  setProp id (set_hidden true).

(** [document.getElementById(canvasId)] where the id may be that of a canvas
    of the enemy list: the first list entry with that canvas id, or else an
    element of the static page. *)
Definition findCanvas (d : Doc) (canvasId : string) : option Surface :=
  match List.find (fun it => bool_decide (item_canvasId it = canvasId)) (enemyListItems d) with
  | Some it => Some (ListCanvas (item_canvas it))
  | None =>
      match elements d !! canvasId with
      | Some _ => Some (StaticCanvas canvasId)
      | None => None
      end
  end.

Definition getCanvasById (canvasId : string) : Exec (option Surface) :=
  getd (fun d => findCanvas d canvasId).

(** Calls on the 2D context of a surface are appended to its log.  A context
    stays usable after its canvas has left the document. *)
Definition drawOn (s : Surface) (l : list DrawOp) : Exec unit :=
  match s with
  | StaticCanvas id => setPropIfPresent id (fun e => set_ops (ops e ++ l) e)
  | ListCanvas n =>
      setd (fun d =>
        set_listCanvasOps
          (<[n := default [] (listCanvasOps d !! n) ++ l]> (listCanvasOps d)) d)
  end.

(** ** The runtime *)

(** [setInterval(f, ms)] *)
Definition setInterval (t : Ticker) : Exec positive :=
  n ← getr nextTimer;
  setr (fun r => set_nextTimer (Pos.succ n) (set_timers (<[n := t]> (timers r)) r));;
  ret n.

(** [clearInterval(id)] *)
Definition clearInterval (n : positive) : Exec unit :=
  setr (fun r => set_timers (delete n (timers r)) r).

(** [const img = new Image(); ...; img.src = src] with the given handlers. *)
Definition loadImage (src : string) (k : LoadKind) : Exec Image :=
  n ← getr nextImage;
  setr (fun r =>
    set_nextImage (S n) (set_pendingLoads (<[n := (src, k)]> (pendingLoads r)) r));;
  ret {| img_id := n; img_src := src |}.

(** [setTimeout(() => startEditorPreview(), 150)] *)
Definition setTimeout_startEditorPreview : Exec unit :=
  setr (fun r => set_editorTimeouts (S (editorTimeouts r)) r).

(** [showToast(message, type)] *)
Definition showToast (message type : string) : Exec unit :=
  setd (fun d => set_toasts (toasts d ++ [(message, type)]) d).

(** ** Sprite sheets, cursors and drawing *)

Definition frameSize : Z := 256.

(** A cursor is the pair (frame, direction). *)
Definition Cursor : Type := (Z * Z)%type.

(** [sx = (frame % 4) * frameSize] and [sy = direction * frameSize] *)
Definition sx_of (frame : Z) : Z := Z.rem frame 4 * frameSize.
Definition sy_of (direction : Z) : Z := direction * frameSize.

(** The interval callback of [startEnemyListAnimation] and that of
    [startEditorPreview] advance their local cursor with the same statements:
    [frame = (frame + 1) % 4; if (frame === 0) direction = (direction + 1) % 8]. *)
Definition tickFrameAndDirection (c : Cursor) : Cursor :=
  let frame := Z.rem (c.1 + 1) 4 in
  let direction := if frame =? 0 then Z.rem (c.2 + 1) 8 else c.2 in
  (frame, direction).

(** The interval callback of [startAnimation] assigns only
    [animationFrame = (animationFrame + 1) % 4]. *)
Definition tickFrameOnly (c : Cursor) : Cursor := (Z.rem (c.1 + 1) 4, c.2).

(** The three kinds of animation clock. *)
Inductive Clock : Type := ThumbClock | SidebarClock | EditorClock.

Definition tick (k : Clock) : Cursor -> Cursor :=
  match k with
  | ThumbClock => tickFrameAndDirection
  | SidebarClock => tickFrameOnly
  | EditorClock => tickFrameAndDirection
  end.

Definition zn : Z -> JSNum := JsNum.of_Z.

(** [draw] of [startEnemyListAnimation] (the 64px thumbnail). *)
Definition thumbDraw (image : Image) (c : Cursor) : list DrawOp :=
  [ ClearRect 0 0 64 64;
    DrawImage image (sx_of c.1) (sy_of c.2) frameSize frameSize
      (zn 0) (zn 0) (zn 64) (zn 64) ].

(** [draw] of [startAnimation], one list per canvas. *)
Definition sidebarDraw_player (v : Vars) : list DrawOp :=
  let sx := sx_of (animationFrame v) in
  let sy := sy_of (animationDirection v) in
  ClearRect 0 0 128 128 ::
  match playerSpriteImage v with
  | Some player =>
      [ DrawImage player sx sy frameSize frameSize (zn 0) (zn 0) (zn 128) (zn 128) ]
  | None =>
      [ FillRect "#3366aa" 14 14 100 100;
        FillText "#fff" "12px sans-serif" "center" "Игрок" 64 68 ]
  end.

Definition sidebarDraw_enemy (v : Vars) : list DrawOp :=
  let sx := sx_of (animationFrame v) in
  let sy := sy_of (animationDirection v) in
  ClearRect 0 0 128 128 ::
  match currentSpriteImage v with
  | Some sprite =>
      let scaledSize := JsNum.mul (zn 128) (currentPreviewScale v) in
      let offset := JsNum.div (JsNum.sub (zn 128) scaledSize) (zn 2) in
      [ DrawImage sprite sx sy frameSize frameSize offset offset scaledSize scaledSize ]
  | None => []
  end.

Definition sidebarDraw_weapon (v : Vars) : list DrawOp :=
  let sx := sx_of (animationFrame v) in
  let sy := sy_of (animationDirection v) in
  ClearRect 0 0 160 160 ::
  match currentSpriteImage v with
  | Some sprite =>
      DrawImage sprite sx sy frameSize frameSize (zn 0) (zn 0) (zn 160) (zn 160) ::
      match currentWeaponImage v with
      | Some weapon =>
          let scale := JsNum.div (zn 160) (zn frameSize) in
          let weaponOffsetX := JsNum.mul (zn (currentWeaponOffsetX v)) scale in
          let weaponOffsetY := JsNum.mul (zn (currentWeaponOffsetY v)) scale in
          [ DrawImage weapon sx sy frameSize frameSize
              weaponOffsetX weaponOffsetY (zn 160) (zn 160) ]
      | None => []
      end
  | None => []
  end.

(** [draw] of [startEditorPreview] (the 500px canvas of the form). *)
Definition editorDraw (v : Vars) (c : Cursor) : list DrawOp :=
  let canvasSize := 500 in
  ClearRect 0 0 canvasSize canvasSize ::
  match currentSpriteImage v with
  | Some sprite =>
      let sx := sx_of c.1 in
      let sy := sy_of c.2 in
      DrawImage sprite sx sy frameSize frameSize
        (zn 0) (zn 0) (zn canvasSize) (zn canvasSize) ::
      match currentWeaponImage v with
      | Some weapon =>
          let scale := JsNum.div (zn canvasSize) (zn frameSize) in
          let offsetX := JsNum.mul (zn (currentWeaponOffsetX v)) scale in
          let offsetY := JsNum.mul (zn (currentWeaponOffsetY v)) scale in
          [ DrawImage weapon sx sy frameSize frameSize
              offsetX offsetY (zn canvasSize) (zn canvasSize) ]
      | None => []
      end
  | None =>
      [ FillRect "#333" 0 0 canvasSize canvasSize;
        FillText "#666" "14px sans-serif" "center" "Нет спрайта"
          (canvasSize / 2) (canvasSize / 2 + 5) ]
  end.

(** The closure [draw] of [startAnimation] captured the three contexts;
    [weaponCtx] is [null] when the page has no weapon preview canvas. *)
Definition sidebarDraw (weaponCtx : bool) : Exec unit :=
  v ← gets vars;
  drawOn (StaticCanvas "enemy-canvas") (sidebarDraw_enemy v);;
  drawOn (StaticCanvas "player-canvas") (sidebarDraw_player v);;
  when weaponCtx (drawOn (StaticCanvas "weapon-preview-canvas") (sidebarDraw_weapon v)).

(** ** Rendering the lists *)

(** [`rgb(${color.join(',')})`] *)
Definition rgb (c : Z * Z * Z) : string :=
  "rgb(" +:+
  JsString.join "," [JsString.of_Z c.1.1; JsString.of_Z c.1.2; JsString.of_Z c.2]
  +:+ ")".

(** [enemyTypes[id]]: the record stored under the key [id], [None] for
    [undefined].  The store is the list of its own entries, in the order of
    [Object.entries]; names every object inherits (such as constructor) are
    not keys of it. *)
Definition lookupEnemy (id : string) (l : list (string * EnemyRecord)) : option EnemyRecord :=
  snd <$> List.find (fun p => bool_decide (p.1 = id)) l.

(** [o || d] for an optional string field and for an optional number field. *)
Definition str_or (o : option string) (d : string) : string :=
  JsString.or (default "" o) d.
Definition num_or (o : option JSNum) (d : JSNum) : JSNum :=
  match o with Some n => JsNum.or n d | None => d end.

(** Truthiness of an optional string field. *)
Definition str_truthy (o : option string) : bool := JsString.truthy (default "" o).

(** [spritePath.split('/').pop()] *)
Definition filenameOf (path : string) : string :=
  JsString.pop (JsString.split "/" path).

Definition startEnemyListAnimation
    (id spritePath canvasId : string) (colour : Z * Z * Z) : Exec unit :=
  let filename := filenameOf spritePath in
  loadImage ("/api/sprites/" +:+ filename) (ThumbLoad id canvasId colour);;
  ret tt.

(** [img.onload] of [startEnemyListAnimation] *)
Definition thumb_onload (image : Image) (id canvasId : string) : Exec unit :=
  canvas ← getCanvasById canvasId;
  match canvas with
  | None => ret tt
  | Some ctx =>
      let frame := 0 in
      let direction := 0 in
      drawOn ctx (thumbDraw image (frame, direction));;
      interval ← setInterval (ThumbTicker ctx image frame direction);
      setv (fun v =>
        set_enemyListAnimations
          (<[id := {| interval := interval; img := image |}]> (enemyListAnimations v)) v)
  end.

(** [img.onerror] of [startEnemyListAnimation] *)
Definition thumb_onerror (canvasId : string) (colour : Z * Z * Z) : Exec unit :=
  canvas ← getCanvasById canvasId;
  match canvas with
  | Some ctx => drawOn ctx [FillRect (rgb colour) 12 12 40 40]
  | None => ret tt
  end.

(** The body of the [forEach] over [Object.entries(enemyTypes)]. *)
Definition renderEnemyItem (entry : string * EnemyRecord) : Exec unit :=
  let '(id, enemy) := entry in
  current ← getv currentEnemyId;
  let colour := default (200, 50, 50) (color enemy) in
  let canvasId := "enemy-preview-" +:+ id in
  node ← getr nextNode;
  setr (set_nextNode (S node));;
  setd (fun d =>
    set_enemyListItems
      (enemyListItems d ++
       [{| item_id := id;
           item_active := bool_decide (current = Some id);
           item_name := str_or (name enemy) id;
           item_canvasId := canvasId;
           item_canvas := node |}]) d);;
  if str_truthy (sprite_path enemy) then
    startEnemyListAnimation id (default "" (sprite_path enemy)) canvasId colour
  else
    canvas ← getCanvasById canvasId;
    match canvas with
    | Some ctx => drawOn ctx [FillRect (rgb colour) 12 12 40 40]
    | None => ret tt
    end.

Definition renderEnemyList : Exec unit :=
  anims ← getv enemyListAnimations;
  forEach (fun anim => clearInterval (interval anim)) (map_to_list anims).*2;;
  setv (set_enemyListAnimations ∅);;
  getElementById "enemy-list" ≫= deref;;
  setd (set_enemyListItems []);;
  entries ← getv enemyTypes;
  forEach renderEnemyItem entries.

Definition renderSpriteList : Exec unit :=
  getElementById "sprite-list" ≫= deref;;
  sprites ← getv availableSprites;
  setd (set_spriteListItems sprites).

Definition renderTextureList : Exec unit :=
  textureList ← getElementById "texture-list";
  match textureList with
  | None => ret tt
  | Some _ =>
      textures ← getv availableTextures;
      setd (set_textureListItems textures)
  end.

Definition updateSpriteSelects : Exec unit :=
  sprites ← getv availableSprites;
  weapons ← getv availableWeapons;
  let enemyOptions := "" :: map (fun s => "game/images/enemy/" +:+ s) sprites in
  let weaponOptions :=
    "" :: map (fun s => "game/images/weapon/" +:+ s) weapons
       ++ map (fun s => "game/images/enemy/" +:+ s) sprites in
  setProp "sprite-path" (assign_options enemyOptions);;
  setProp "weapon-path" (assign_options weaponOptions);;
  setProp "projectile-path" (assign_options enemyOptions).

(** ** Preview animation (sidebar and form) *)

Definition stopAnimation : Exec unit :=
  i ← getv animationInterval;
  match i with
  | Some n => clearInterval n;; setv (set_animationInterval None)
  | None => ret tt
  end.

Definition startAnimation : Exec unit :=
  stopAnimation;;
  enemyCanvas ← getElementById "enemy-canvas";
  playerCanvas ← getElementById "player-canvas";
  weaponCanvas ← getElementById "weapon-preview-canvas";
  if negb (bool_decide (is_Some enemyCanvas)) || negb (bool_decide (is_Some playerCanvas))
  then ret tt
  else
    let weaponCtx := bool_decide (is_Some weaponCanvas) in
    sidebarDraw weaponCtx;;
    n ← setInterval (SidebarTicker weaponCtx);
    setv (set_animationInterval (Some n)).

Definition directions : list string :=
  ["←"; "↖"; "↑"; "↗"; "→"; "↘"; "↓"; "↙"].

(** [directions[i]]; an index outside the array gives [undefined], which
    [textContent] takes as the empty string. *)
Definition directionLabel (i : Z) : string :=
  if (0 <=? i) then default "" (directions !! Z.to_nat i) else "".

Definition updateDirectionLabel : Exec unit :=
  d ← getv animationDirection;
  setPropIfPresent "direction-label" (set_textContent (directionLabel d)).

Definition prevDirection : Exec unit :=
  setv (fun v => set_animationDirection (Z.rem (animationDirection v - 1 + 8) 8) v);;
  updateDirectionLabel.

Definition nextDirection : Exec unit :=
  setv (fun v => set_animationDirection (Z.rem (animationDirection v + 1) 8) v);;
  updateDirectionLabel.

Definition stopEditorPreview : Exec unit :=
  i ← getv editorPreviewAnimation;
  match i with
  | Some n => clearInterval n;; setv (set_editorPreviewAnimation None)
  | None => ret tt
  end.

Definition startEditorPreview : Exec unit :=
  stopEditorPreview;;
  canvas ← getElementById "editor-preview-canvas";
  match canvas with
  | None => ret tt
  | Some _ =>
      let frame := 0 in
      let direction := 0 in
      v ← gets vars;
      drawOn (StaticCanvas "editor-preview-canvas") (editorDraw v (frame, direction));;
      n ← setInterval (EditorTicker frame direction);
      setv (set_editorPreviewAnimation (Some n))
  end.

(** The interval callbacks, run by the browser for a live timer. *)
Definition onTick (n : positive) : Exec unit :=
  t ← getr (fun r => timers r !! n);
  match t with
  | None => ret tt
  | Some (ThumbTicker ctx image frame direction) =>
      let c := tick ThumbClock (frame, direction) in
      setr (fun r => set_timers (<[n := ThumbTicker ctx image c.1 c.2]> (timers r)) r);;
      drawOn ctx (thumbDraw image c)
  | Some (SidebarTicker weaponCtx) =>
      setv (fun v =>
        set_animationFrame (tick SidebarClock (animationFrame v, animationDirection v)).1 v);;
      sidebarDraw weaponCtx
  | Some (EditorTicker frame direction) =>
      let c := tick EditorClock (frame, direction) in
      setr (fun r => set_timers (<[n := EditorTicker c.1 c.2]> (timers r)) r);;
      v ← gets vars;
      drawOn (StaticCanvas "editor-preview-canvas") (editorDraw v c)
  end.

(** ** Sprite loading *)

Definition loadWeaponSprite (weaponPath : string) : Exec unit :=
  if negb (JsString.truthy weaponPath) then
    setv (set_currentWeaponImage None)
  else
    let filename := filenameOf weaponPath in
    (if JsString.includes "weapon" weaponPath
     then loadImage ("/api/weapons/" +:+ filename) (WeaponLoad weaponPath)
     else loadImage ("/api/sprites/" +:+ filename) (WeaponLoad weaponPath));;
    ret tt.

Definition previewSprite (filename : string) : Exec unit :=
  loadImage ("/api/sprites/" +:+ filename) SpriteLoad;; ret tt.

Definition loadPlayerSprite : Exec unit :=
  p ← getv playerSpriteImage;
  match p with
  | Some _ => ret tt
  | None => loadImage "/api/player-sprite" PlayerLoad;; ret tt
  end.

(** [img.onload] of a pending image. *)
Definition onImageLoaded (n : nat) : Exec unit :=
  l ← getr (fun r => pendingLoads r !! n);
  match l with
  | None => ret tt
  | Some (src, k) =>
      let image := {| img_id := n; img_src := src |} in
      setr (fun r => set_pendingLoads (delete n (pendingLoads r)) r);;
      match k with
      | ThumbLoad id canvasId _ => thumb_onload image id canvasId
      | SpriteLoad => setv (set_currentSpriteImage (Some image))
      | WeaponLoad _ => setv (set_currentWeaponImage (Some image))
      | PlayerLoad => setv (set_playerSpriteImage (Some image))
      end
  end.

(** [img.onerror] of a pending image; only the thumbnail and the weapon
    loads install one. *)
Definition onImageError (n : nat) : Exec unit :=
  l ← getr (fun r => pendingLoads r !! n);
  match l with
  | None => ret tt
  | Some (src, k) =>
      setr (fun r => set_pendingLoads (delete n (pendingLoads r)) r);;
      match k with
      | ThumbLoad _ canvasId colour => thumb_onerror canvasId colour
      | WeaponLoad _ => setv (set_currentWeaponImage None)
      | SpriteLoad | PlayerLoad => ret tt
      end
  end.

(** ** UI helpers *)

Definition showEditor : Exec unit :=
  classList_remove_hidden "editor-panel";;
  classList_add_hidden "welcome-panel".

Definition hideEditor : Exec unit :=
  classList_add_hidden "editor-panel";;
  classList_remove_hidden "welcome-panel".

Definition updateColorPreview : Exec unit :=
  r ← getValue "color-r";
  g ← getValue "color-g";
  b ← getValue "color-b";
  setProp "color-preview"
    (set_background ("rgb(" +:+ r +:+ ", " +:+ g +:+ ", " +:+ b +:+ ")")).

Definition updateOffsetDisplay : Exec unit :=
  x ← getv currentWeaponOffsetX;
  y ← getv currentWeaponOffsetY;
  setPropIfPresent "offset-x-display" (set_textContent (JsString.of_Z x));;
  setPropIfPresent "offset-y-display" (set_textContent (JsString.of_Z y)).

Definition adjustWeaponOffset (dx dy : Z) : Exec unit :=
  setv (fun v => set_currentWeaponOffsetX (currentWeaponOffsetX v + dx) v);;
  setv (fun v => set_currentWeaponOffsetY (currentWeaponOffsetY v + dy) v);;
  updateOffsetDisplay.

Definition applyWeaponOffsetToForm : Exec unit :=
  x ← getv currentWeaponOffsetX;
  y ← getv currentWeaponOffsetY;
  setValue "weapon-offset-x" (JsString.of_Z x);;
  setValue "weapon-offset-y" (JsString.of_Z y);;
  showToast ("Смещение (" +:+ JsString.of_Z x +:+ ", " +:+ JsString.of_Z y +:+ ") применено")
    "success".

Definition closeExportModal : Exec unit := classList_add_hidden "export-modal".

Definition copyCode : Exec unit :=
  getElementById "export-code" ≫= deref;;
  showToast "Код скопирован!" "success".

(** The attack-type radio group. *)
Definition checkRadio (v : string) : Exec unit :=
  rs ← getd radios;
  if bool_decide (v ∈ rs) then setd (set_radioChecked (Some v)) else throw.

Definition checkedRadio : Exec string := getd radioChecked ≫= deref.

(** ** Form binding and enemy operations *)

Definition updateWeaponOffsetUI : Exec unit :=
  weaponPath ← getValue "weapon-path";
  if JsString.truthy weaponPath then
    setPropIfPresent "weapon-offset-row" (set_display "flex");;
    setPropIfPresent "weapon-section" (set_display "block");;
    loadWeaponSprite weaponPath
  else
    setPropIfPresent "weapon-offset-row" (set_display "none");;
    setPropIfPresent "weapon-section" (set_display "none");;
    setv (set_currentWeaponImage None).

(** What [saveEnemy] sends to the backend. *)
Record SaveData : Type := {
  data_id : string;
  data_name : string;
  data_sprite_path : string;
  data_weapon_path : string;
  data_weapon_offset : Z * Z;
  data_projectile_path : string;
  data_sprite_scale : JSNum;
  data_max_health : option Z;
  data_damage : option Z;
  data_speed : JSNum;
  data_attack_type : string;
  data_aggro_range : JSNum;
  data_attack_range : JSNum;
  data_attack_cooldown : JSNum;
  data_color : option Z * option Z * option Z
}.

Record SaveRequest : Type := {
  isNew : bool;
  url : string;
  method : string;
  body : SaveData
}.

(** What [GET /api/enemy-types] returns. *)
Record EnemyTypesData : Type := {
  enemy_types : option (list (string * EnemyRecord));
  available_sprites : option (list string);
  available_weapons : option (list string)
}.

(** What runs after [await loadData()] in the caller. *)
Inductive Cont : Type :=
| KNone
| KSaved (isNew : bool) (id : string)
| KUploaded (filename : string).

Section WithPlatform.

Context {P : Platform}.

Definition updateAttackTypeUI : Exec unit :=
  attackType ← checkedRadio;
  if bool_decide (attackType = "ranged") then
    setDisplay "projectile-row" "flex";;
    v ← getValue "attack-range";
    when (JsNum.lt (parseFloat v) (zn 5)) (setValue "attack-range" "8.0")
  else
    setDisplay "projectile-row" "none";;
    v ← getValue "attack-range";
    when (JsNum.gt (parseFloat v) (zn 3)) (setValue "attack-range" "1.2").

Definition updateWeaponOffset : Exec unit :=
  x ← getValue "weapon-offset-x";
  setv (set_currentWeaponOffsetX (default 0 (parseInt x)));;
  y ← getValue "weapon-offset-y";
  setv (set_currentWeaponOffsetY (default 0 (parseInt y))).

Definition updatePreviewScale (scale : JSNum) : Exec unit :=
  setv (set_currentPreviewScale scale);;
  setPropIfPresent "preview-scale" (assign_value (numberToString scale));;
  setPropIfPresent "preview-scale-value" (set_textContent (toFixed1 scale +:+ "x"));;
  setPropIfPresent "enemy-scale-label"
    (set_textContent ("Противник (" +:+ toFixed1 scale +:+ "x)")).

Definition applyScaleToForm : Exec unit :=
  scale ← getv currentPreviewScale;
  setValue "sprite-scale" (toFixed1 scale);;
  showToast ("Масштаб " +:+ toFixed1 scale +:+ "x применён") "success".

Definition loadCurrentSprites : Exec unit :=
  spritePath ← getValue "sprite-path";
  weaponPath ← getValue "weapon-path";
  when (JsString.truthy spritePath)
    (loadImage ("/api/sprites/" +:+ filenameOf spritePath) SpriteLoad;; ret tt);;
  (if JsString.truthy weaponPath then
     loadWeaponSprite weaponPath;;
     setDisplay "weapon-section" "block"
   else
     setDisplay "weapon-section" "none";;
     setv (set_currentWeaponImage None));;
  x ← getValue "weapon-offset-x";
  setv (set_currentWeaponOffsetX (default 0 (parseInt x)));;
  y ← getValue "weapon-offset-y";
  setv (set_currentWeaponOffsetY (default 0 (parseInt y)));;
  updateOffsetDisplay;;
  s ← getValue "sprite-scale";
  let scale := JsNum.or (parseFloat s) (zn 1) in
  setv (set_currentPreviewScale scale);;
  updatePreviewScale scale.

Definition togglePreviewPanel : Exec unit :=
  setv (fun v => set_previewSidebarVisible (negb (previewSidebarVisible v)) v);;
  visible ← getv previewSidebarVisible;
  if (visible : bool) then
    classList_remove_hidden "preview-sidebar";;
    loadPlayerSprite;;
    loadCurrentSprites;;
    startAnimation
  else
    classList_add_hidden "preview-sidebar";;
    stopAnimation.

Definition createNewEnemy : Exec unit :=
  setv (set_currentEnemyId None);;
  setValue "enemy-id" "";;
  setValue "enemy-id-input" "";;
  setProp "enemy-id-input" (set_disabled false);;
  setValue "enemy-name" "";;
  setValue "sprite-path" "";;
  setValue "weapon-path" "";;
  setValue "sprite-scale" "1.0";;
  setValue "max-health" "30";;
  setValue "damage" "5";;
  setValue "speed" "6.0";;
  setValue "aggro-range" "150";;
  setValue "attack-range" "1.2";;
  setValue "attack-cooldown" "1.5";;
  setValue "color-r" "200";;
  setValue "color-g" "50";;
  setValue "color-b" "50";;
  checkRadio "melee";;
  setValue "projectile-path" "";;
  setValue "weapon-offset-x" "0";;
  setValue "weapon-offset-y" "0";;
  setv (set_currentWeaponOffsetX 0);;
  setv (set_currentWeaponOffsetY 0);;
  setv (set_currentWeaponImage None);;
  updateAttackTypeUI;;
  updateWeaponOffsetUI;;
  updateColorPreview;;
  updatePreviewScale (zn 1);;
  setText "editor-title" "Новый тип врага";;
  showEditor;;
  startEditorPreview.

Definition selectEnemy (id : string) : Exec unit :=
  setv (set_currentEnemyId (Some id));;
  enemy ← getv (fun v => lookupEnemy id (enemyTypes v));
  match enemy with
  | None => ret tt
  | Some enemy =>
      setValue "enemy-id" id;;
      setValue "enemy-id-input" id;;
      setProp "enemy-id-input" (set_disabled true);;
      setValue "enemy-name" (str_or (name enemy) id);;
      setValue "sprite-path" (str_or (sprite_path enemy) "");;
      setValue "weapon-path" (str_or (weapon_path enemy) "");;
      setValue "sprite-scale" (numberToString (num_or (sprite_scale enemy) (zn 1)));;
      setValue "max-health" (numberToString (num_or (max_health enemy) (zn 30)));;
      setValue "damage" (numberToString (num_or (damage enemy) (zn 5)));;
      setValue "speed" (numberToString (num_or (speed enemy) (zn 6)));;
      setValue "aggro-range" (numberToString (num_or (aggro_range enemy) (zn 150)));;
      setValue "attack-range" (numberToString (num_or (attack_range enemy) (Fin (6 # 5))));;
      setValue "attack-cooldown"
        (numberToString (num_or (attack_cooldown enemy) (Fin (3 # 2))));;
      let attackType := str_or (attack_type enemy) "melee" in
      checkRadio attackType;;
      setValue "projectile-path" (str_or (projectile_path enemy) "");;
      let weaponOffset := default (0, 0) (weapon_offset enemy) in
      setValue "weapon-offset-x" (JsString.of_Z weaponOffset.1);;
      setValue "weapon-offset-y" (JsString.of_Z weaponOffset.2);;
      setv (set_currentWeaponOffsetX weaponOffset.1);;
      setv (set_currentWeaponOffsetY weaponOffset.2);;
      updateAttackTypeUI;;
      let colour := default (200, 50, 50) (color enemy) in
      setValue "color-r" (JsString.of_Z colour.1.1);;
      setValue "color-g" (JsString.of_Z colour.1.2);;
      setValue "color-b" (JsString.of_Z colour.2);;
      updateColorPreview;;
      let scale := num_or (sprite_scale enemy) (zn 1) in
      updatePreviewScale scale;;
      setText "editor-title" ("Редактирование: " +:+ str_or (name enemy) id);;
      when (str_truthy (sprite_path enemy))
        (previewSprite (filenameOf (default "" (sprite_path enemy))));;
      when (str_truthy (weapon_path enemy))
        (loadWeaponSprite (default "" (weapon_path enemy)));;
      updateWeaponOffsetUI;;
      visible ← getv previewSidebarVisible;
      when visible
        (setv (set_previewSidebarVisible false);;
         classList_add_hidden "preview-sidebar";;
         stopAnimation);;
      showEditor;;
      renderEnemyList;;
      setTimeout_startEditorPreview
  end.

Definition cancelEdit : Exec unit :=
  setv (set_currentEnemyId None);;
  hideEditor;;
  renderEnemyList.

(** Truthiness of [currentEnemyId]: [null] and the empty string are falsy. *)
Definition id_truthy (o : option string) : bool := JsString.truthy (default "" o).

(** [saveEnemy] up to its first [await]: the request it sends, or [None]
    when it returns early. *)
Definition saveEnemy_submit : Exec (option SaveRequest) :=
  id1 ← getValue "enemy-id";
  id ← (if JsString.truthy id1 then ret id1 else getValue "enemy-id-input");
  if negb (JsString.truthy id) then
    showToast "Введите ID врага" "error";; ret None
  else
    attackType ← checkedRadio;
    nm ← getValue "enemy-name";
    sp ← getValue "sprite-path";
    wp ← getValue "weapon-path";
    wx ← getValue "weapon-offset-x";
    wy ← getValue "weapon-offset-y";
    pp ← getValue "projectile-path";
    sc ← getValue "sprite-scale";
    mh ← getValue "max-health";
    dm ← getValue "damage";
    spd ← getValue "speed";
    ag ← getValue "aggro-range";
    ar ← getValue "attack-range";
    ac ← getValue "attack-cooldown";
    cr ← getValue "color-r";
    cg ← getValue "color-g";
    cb ← getValue "color-b";
    let data :=
      {| data_id := id;
         data_name := JsString.or nm id;
         data_sprite_path := sp;
         data_weapon_path := wp;
         data_weapon_offset := (default 0 (parseInt wx), default 0 (parseInt wy));
         data_projectile_path := pp;
         data_sprite_scale := parseFloat sc;
         data_max_health := parseInt mh;
         data_damage := parseInt dm;
         data_speed := parseFloat spd;
         data_attack_type := attackType;
         data_aggro_range := parseFloat ag;
         data_attack_range := parseFloat ar;
         data_attack_cooldown := parseFloat ac;
         data_color := (parseInt cr, parseInt cg, parseInt cb) |} in
    current ← getv currentEnemyId;
    let isNew := negb (id_truthy current) in
    ret (Some {| isNew := isNew;
                 url := if isNew then "/api/enemy-types"
                        else "/api/enemy-types/" +:+ default "null" current;
                 method := if isNew then "POST" else "PUT";
                 body := data |}).

(** [deleteEnemy] up to its [await]: the URL of the DELETE request it
    sends, or [None] when it returns early.  [confirmed] is the answer of
    the user to the [confirm] dialog. *)
Definition deleteEnemy_submit (confirmed : bool) : Exec (option string) :=
  current ← getv currentEnemyId;
  if negb (id_truthy current) then ret None
  else if negb confirmed then ret None
  else ret (Some ("/api/enemy-types/" +:+ default "null" current)).

(** [uploadTexture] up to its [await]: the URL of the POST request it sends
    for the file called [name], or [None] when it returns early. *)
Definition uploadTexture_submit (name : string) : Exec (option string) :=
  if negb (JsString.endsWith name ".png") then
    showToast "Разрешены только PNG файлы" "error";; ret None
  else ret (Some "/api/textures").

(** *** Continuations of the asynchronous functions

    An [async] function is split at its [await]s; each piece below is what
    runs when the awaited answer arrives. *)

(** [loadData], after [GET /api/enemy-types] answered. *)
Definition loadData_enemyTypes (data : EnemyTypesData) : Exec unit :=
  setv (set_enemyTypes (default [] (enemy_types data)));;
  setv (set_availableSprites (default [] (available_sprites data)));;
  setv (set_availableWeapons (default [] (available_weapons data))).

(** [loadData], when the first request or its decoding failed. *)
Definition loadData_failed : Exec unit :=
  showToast "Ошибка загрузки данных" "error".

(** [loadData], after [GET /api/textures] answered ([None]: it failed). *)
Definition loadData_textures (r : option (option (list string))) : Exec unit :=
  try_catch
    (setv (set_availableTextures
             (match r with Some t => default [] t | None => [] end));;
     renderEnemyList;;
     renderSpriteList;;
     renderTextureList;;
     updateSpriteSelects)
    (showToast "Ошибка загрузки данных" "error").

(** [data.id.toLowerCase().replace(' ', '_')] *)
Definition normalizeId (id : string) : string :=
  JsString.replace " " "_" (toLowerCase id).

(** What follows [await loadData()] in the caller. *)
Definition after_loadData (k : Cont) : Exec unit :=
  match k with
  | KNone => ret tt
  | KSaved isNew id =>
      try_catch
        (when isNew (setv (set_currentEnemyId (Some (normalizeId id))));;
         renderEnemyList)
        (showToast "Ошибка сохранения" "error")
  | KUploaded filename =>
      try_catch (previewSprite filename) (showToast "Ошибка загрузки" "error")
  end.

(** The answer to the request of [saveEnemy]. *)
Inductive SaveResponse : Type :=
| SaveRejected
| SaveNotOk (error : option string)
| SaveOk.

(** [saveEnemy], after its [fetch] settled; on [SaveOk] it goes on to
    [await loadData()]. *)
Definition saveEnemy_response (r : SaveResponse) : Exec unit :=
  match r with
  | SaveOk => showToast "Враг сохранён!" "success"
  | SaveNotOk error => showToast (str_or error "Ошибка сохранения") "error"
  | SaveRejected => showToast "Ошибка сохранения" "error"
  end.

(** [deleteEnemy], after its [fetch] settled ([None]: rejected). *)
Definition deleteEnemy_response (r : option bool) : Exec unit :=
  match r with
  | Some true =>
      try_catch
        (showToast "Враг удалён" "success";;
         setv (set_currentEnemyId None);;
         hideEditor)
        (showToast "Ошибка удаления" "error")
  | _ => showToast "Ошибка удаления" "error"
  end.

(** [uploadSprite], after its [fetch] settled. *)
Definition uploadSprite_response (r : option (bool * option string)) : Exec unit :=
  match r with
  | Some (true, filename) =>
      showToast ("Спрайт " +:+ dquote +:+ default "undefined" filename +:+ dquote
                 +:+ " загружен!") "success"
  | Some (false, error) => showToast (str_or error "Ошибка загрузки") "error"
  | None => showToast "Ошибка загрузки" "error"
  end.

(** [deleteSprite], after its [fetch] settled. *)
Definition deleteSprite_response (r : option bool) : Exec unit :=
  match r with
  | Some true =>
      try_catch
        (showToast "Спрайт удалён" "success";;
         setv (set_currentSpriteImage None);;
         visible ← getv previewSidebarVisible;
         when visible togglePreviewPanel)
        (showToast "Ошибка удаления" "error")
  | _ => showToast "Ошибка удаления" "error"
  end.

(** [exportCode], after its [fetch] settled. *)
Definition exportCode_response (r : option string) : Exec unit :=
  match r with
  | Some code =>
      try_catch
        (setValue "export-code" code;;
         classList_remove_hidden "export-modal")
        (showToast "Ошибка экспорта" "error")
  | None => showToast "Ошибка экспорта" "error"
  end.

(** *** Event listeners installed by [setupEventListeners] and
    [setupColorPreview] *)

Definition on_spritePath_change : Exec unit :=
  v ← getValue "sprite-path";
  if JsString.truthy v then
    previewSprite (filenameOf v);;
    weaponPath ← getValue "weapon-path";
    when (JsString.truthy weaponPath) (loadWeaponSprite weaponPath);;
    setTimeout_startEditorPreview
  else
    setv (set_currentSpriteImage None);;
    startEditorPreview.

Definition on_previewScale_input : Exec unit :=
  v ← getValue "preview-scale";
  let scale := parseFloat v in
  setv (set_currentPreviewScale scale);;
  setText "preview-scale-value" (toFixed1 scale +:+ "x");;
  setText "enemy-scale-label" ("Противник (" +:+ toFixed1 scale +:+ "x)").

Definition on_spriteScale_change : Exec unit :=
  v ← getValue "sprite-scale";
  let scale := JsNum.or (parseFloat v) (zn 1) in
  sprite ← getv currentSpriteImage;
  when (bool_decide (is_Some sprite)) (updatePreviewScale scale).

Definition on_weaponPath_change : Exec unit :=
  updateWeaponOffsetUI;;
  setTimeout_startEditorPreview.

Definition inputListener (id : string) : Exec unit :=
  if bool_decide (id ∈ ["weapon-offset-x"; "weapon-offset-y"]) then updateWeaponOffset
  else if bool_decide (id ∈ ["color-r"; "color-g"; "color-b"]) then updateColorPreview
  else if bool_decide (id = "preview-scale") then on_previewScale_input
  else ret tt.

Definition changeListener (id : string) : Exec unit :=
  if bool_decide (id = "sprite-path") then on_spritePath_change
  else if bool_decide (id = "sprite-scale") then on_spriteScale_change
  else if bool_decide (id = "weapon-path") then on_weaponPath_change
  else ret tt.

(** ** Events

    Everything that makes the script run: what the user does on the page,
    the answers of the backend, and the callbacks of the runtime. *)

Inductive Event : Type :=
(* the user *)
| CreateNewEnemy
| SelectEnemy (id : string)
| SubmitForm
| CancelEdit
| TogglePreviewPanel
| PrevDirection
| NextDirection
| AdjustWeaponOffset (dx dy : Z)
| ApplyScaleToForm
| ApplyWeaponOffsetToForm
| PreviewSprite (filename : string)
| CloseExportModal
| CopyCode
| Input (id v : string)
| Change (id v : string)
| RadioChange (v : string)
(* the backend *)
| EnemyTypesFetched (data : EnemyTypesData)
| EnemyTypesFailed (k : Cont)
| TexturesFetched (r : option (option (list string))) (k : Cont)
| SaveAnswered (r : SaveResponse)
| DeleteEnemyAnswered (r : option bool)
| UploadSpriteAnswered (r : option (bool * option string))
| DeleteSpriteAnswered (r : option bool)
| TextureAnswered (message type : string)
| ExportAnswered (r : option string)
(* the runtime *)
| ImageLoaded (n : nat)
| ImageFailed (n : nat)
| Tick (n : positive)
| EditorTimeout.

(** The user edits a control: its value changes before any listener runs. *)
Definition userSets (id v : string) : Exec unit :=
  setPropIfPresent id (set_value v).

Definition handle (e : Event) : Exec unit :=
  match e with
  | CreateNewEnemy => createNewEnemy
  | SelectEnemy id => selectEnemy id
  | SubmitForm => saveEnemy_submit;; ret tt
  | CancelEdit => cancelEdit
  | TogglePreviewPanel => togglePreviewPanel
  | PrevDirection => prevDirection
  | NextDirection => nextDirection
  | AdjustWeaponOffset dx dy => adjustWeaponOffset dx dy
  | ApplyScaleToForm => applyScaleToForm
  | ApplyWeaponOffsetToForm => applyWeaponOffsetToForm
  | PreviewSprite filename => previewSprite filename
  | CloseExportModal => closeExportModal
  | CopyCode => copyCode
  | Input id v => userSets id v;; inputListener id
  | Change id v => userSets id v;; changeListener id
  | RadioChange v => setd (set_radioChecked (Some v));; updateAttackTypeUI
  | EnemyTypesFetched data => loadData_enemyTypes data
  | EnemyTypesFailed k => loadData_failed;; after_loadData k
  | TexturesFetched r k => loadData_textures r;; after_loadData k
  | SaveAnswered r => saveEnemy_response r
  | DeleteEnemyAnswered r => deleteEnemy_response r
  | UploadSpriteAnswered r => uploadSprite_response r
  | DeleteSpriteAnswered r => deleteSprite_response r
  | TextureAnswered message type => showToast message type
  | ExportAnswered r => exportCode_response r
  | ImageLoaded n => onImageLoaded n
  | ImageFailed n => onImageError n
  | Tick n => onTick n
  | EditorTimeout =>
      n ← getr editorTimeouts;
      match n with
      | O => ret tt
      | S n' => setr (set_editorTimeouts n');; startEditorPreview
      end
  end.

(** One event, processed to completion; an uncaught exception ends the
    handler and leaves the world as it was when it was thrown. *)
Definition step (w : World) (e : Event) : World := final (handle e w).

Definition run (w : World) (es : list Event) : World := foldl step w es.

End WithPlatform.

(** ** The initial world: the declarations at the top of the script. *)

Definition initVars : Vars :=
  {| enemyTypes := [];
     availableSprites := [];
     availableWeapons := [];
     availableTextures := [];
     currentEnemyId := None;
     currentSpriteImage := None;
     currentWeaponImage := None;
     playerSpriteImage := None;
     animationFrame := 0;
     animationDirection := 0;
     animationInterval := None;
     currentPreviewScale := zn 1;
     currentWeaponOffsetX := 0;
     currentWeaponOffsetY := 0;
     previewSidebarVisible := false;
     enemyListAnimations := ∅;
     editorPreviewAnimation := None |}.

Definition initRuntime : Runtime :=
  {| timers := ∅; nextTimer := 1%positive; pendingLoads := ∅;
     nextImage := 0; nextNode := 0; editorTimeouts := 0 |}.

(** The script starts on the page [d]. *)
Definition initWorld (d : Doc) : World :=
  {| vars := initVars; doc := d; rt := initRuntime |}.

(** ** A concrete platform and a concrete page, for running the model

    [ascii_platform] reads decimal literals without exponent, prints finite
    numbers in positional notation, and lower-cases the letters A to Z.  On
    the inputs used below it agrees with a browser. *)

Module AsciiPlatform.

Definition digit_of (c : ascii) : option Z :=
  let n := Z.of_nat (nat_of_ascii c) in
  if (48 <=? n) && (n <=? 57) then Some (n - 48) else None.

(** Reads a run of digits: its value on top of [acc], its length, the rest. *)
Fixpoint read_digits (s : string) (acc : Z) (len : nat) : Z * nat * string :=
  match s with
  | String c s' =>
      match digit_of c with
      | Some d => read_digits s' (10 * acc + d) (S len)
      | None => (acc, len, s)
      end
  | EmptyString => (acc, len, s)
  end.

Fixpoint skip_space (s : string) : string :=
  match s with
  | String c s' => if Ascii.is_space c then skip_space s' else s
  | EmptyString => s
  end.

(** An optional sign: [1] or [-1], and the rest. *)
Definition read_sign (s : string) : Z * string :=
  match s with
  | String "-" s' => (-1, s')
  | String "+" s' => (1, s')
  | _ => (1, s)
  end.

Definition parse_float (s : string) : JSNum :=
  let '(sg, s1) := read_sign (skip_space s) in
  if String.prefix "Infinity" s1 then (if 0 <? sg then PosInf else NegInf)
  else
    let '(i, ni, s2) := read_digits s1 0 0 in
    let '(f, nf, _) :=
      match s2 with
      | String "." s3 => read_digits s3 0 0
      | _ => (0, O, s2)
      end in
    if (ni + nf =? 0)%nat then NaN
    else Fin (Qred (inject_Z sg * (inject_Z i + inject_Z f / inject_Z (10 ^ Z.of_nat nf)))).

Definition parse_int (s : string) : option Z :=
  let '(sg, s1) := read_sign (skip_space s) in
  let '(i, ni, _) := read_digits s1 0 0 in
  if (ni =? 0)%nat then None else Some (sg * i).

Definition lower (c : ascii) : ascii :=
  let n := nat_of_ascii c in
  if (65 <=? n)%nat && (n <=? 90)%nat then ascii_of_nat (n + 32) else c.

Fixpoint to_lower (s : string) : string :=
  match s with
  | String c s' => String (lower c) (to_lower s')
  | EmptyString => EmptyString
  end.

(** The digits of [r / d] after the decimal point, at most [fuel] of them. *)
Fixpoint fraction_digits (fuel : nat) (r d : Z) : string :=
  match fuel with
  | O => ""
  | S fuel' =>
      if r =? 0 then ""
      else JsString.of_Z (10 * r / d) +:+ fraction_digits fuel' (10 * r mod d) d
  end.

Definition print_Q (q : Q) : string :=
  let n := Z.abs (Qnum q) in
  let d := Z.pos (Qden q) in
  (if Qnum q <? 0 then "-" else "") +:+ JsString.of_Z (n / d) +:+
  (if n mod d =? 0 then "" else "." +:+ fraction_digits 17 (n mod d) d).

Definition number_to_string (x : JSNum) : string :=
  match x with
  | NaN => "NaN"
  | NegInf => "-Infinity"
  | PosInf => "Infinity"
  | Fin q => print_Q (Qred q)
  end.

Definition to_fixed1 (x : JSNum) : string :=
  match x with
  | Fin q =>
      let t := Qfloor (q * 10 + (1 # 2))%Q in
      (if t <? 0 then "-" else "") +:+ JsString.of_Z (Z.abs t / 10) +:+ "." +:+
      JsString.of_Z (Z.abs t mod 10)
  | _ => number_to_string x
  end.

End AsciiPlatform.

Definition ascii_platform : Platform :=
  {| parseFloat := AsciiPlatform.parse_float;
     parseInt := AsciiPlatform.parse_int;
     toLowerCase := AsciiPlatform.to_lower;
     numberToString := AsciiPlatform.number_to_string;
     toFixed1 := AsciiPlatform.to_fixed1 |}.

(** A page with every element the script looks up, as it is before the
    script runs: inputs empty, the three selects with their placeholder
    option, the melee radio checked, the editor and the sidebar hidden. *)
Definition blank : Element :=
  {| value := ""; disabled := false; textContent := ""; display := "";
     background := ""; hidden := false; options := None; ops := [] |}.

Definition samplePage : Doc :=
  {| elements :=
       list_to_map
         (((fun id => (id, blank)) <$>
            ["enemy-list"; "sprite-list"; "texture-list"; "welcome-panel";
             "enemy-form"; "enemy-id"; "enemy-id-input"; "enemy-name";
             "sprite-scale"; "max-health"; "damage"; "speed"; "aggro-range";
             "attack-range"; "attack-cooldown"; "color-r"; "color-g"; "color-b";
             "color-preview"; "weapon-offset-x"; "weapon-offset-y";
             "projectile-row"; "weapon-offset-row"; "weapon-section";
             "editor-title"; "preview-scale"; "preview-scale-value";
             "enemy-scale-label"; "direction-label"; "offset-x-display";
             "offset-y-display"; "export-code"; "enemy-canvas"; "player-canvas";
             "weapon-preview-canvas"; "editor-preview-canvas"]) ++
          ((fun id => (id, set_options (Some [""]) blank)) <$>
            ["sprite-path"; "weapon-path"; "projectile-path"]) ++
          ((fun id => (id, set_hidden true blank)) <$>
            ["editor-panel"; "preview-sidebar"; "export-modal"]));
     radios := ["melee"; "ranged"];
     radioChecked := Some "melee";
     enemyListItems := [];
     spriteListItems := [];
     textureListItems := [];
     listCanvasOps := ∅;
     toasts := [] |}.

(** An enemy record with the given sprite, weapon and offset and nothing else. *)
Definition enemyWith (sprite weapon : option string) (offset : option (Z * Z)) : EnemyRecord :=
  {| name := None; sprite_path := sprite; weapon_path := weapon;
     weapon_offset := offset; projectile_path := None; sprite_scale := None;
     max_health := None; damage := None; speed := None; attack_type := None;
     aggro_range := None; attack_range := None; attack_cooldown := None;
     color := None |}.

(** * Vocabulary of the statements *)

(** [m] keeps the invariant [I], whether it returns or throws. *)
Definition preserves (I : World -> Prop) {A} (m : Exec A) : Prop :=
  forall w, I w -> I (final (m w)).

(** A cursor in range: frame in [0,3], direction in [0,7]. *)
Definition cursor_ok (c : Cursor) : Prop := 0 <= c.1 <= 3 /\ 0 <= c.2 <= 7.

(** The cursor a ticker closure holds is in range. *)
Definition ticker_ok (t : Ticker) : Prop :=
  match t with
  | ThumbTicker _ _ frame direction => cursor_ok (frame, direction)
  | SidebarTicker _ => True
  | EditorTicker frame direction => cursor_ok (frame, direction)
  end.

(** Every cursor of the world: the global one of the sidebar and the local
    one of each live thumbnail or editor ticker. *)
Definition cursors_ok (w : World) : Prop :=
  cursor_ok (animationFrame (vars w), animationDirection (vars w)) /\
  map_Forall (fun _ t => ticker_ok t) (timers (rt w)).

(** The clock behind a live timer and the cursor it drives: the variables
    captured by the closure, or the two global variables for the sidebar. *)
Definition cursorAt (w : World) (n : positive) : option (Clock * Cursor) :=
  match timers (rt w) !! n with
  | Some (ThumbTicker _ _ frame direction) => Some (ThumbClock, (frame, direction))
  | Some (SidebarTicker _) =>
      Some (SidebarClock, (animationFrame (vars w), animationDirection (vars w)))
  | Some (EditorTicker frame direction) => Some (EditorClock, (frame, direction))
  | None => None
  end.

(** The transition the specification gives for one tick. *)
Definition tickLaw (c : Cursor) : Cursor :=
  let f' := (c.1 + 1) mod 4 in
  (f', if f' =? 0 then (c.2 + 1) mod 8 else c.2).

(** [ops] draws [image] scaled to a square of side [size] with its top-left
    corner at ([x], [y]). *)
Definition placedAt (image : Image) (x y : JSNum) (size : Z) (ops : list DrawOp) : Prop :=
  exists sx sy dx dy,
    DrawImage image sx sy frameSize frameSize dx dy (zn size) (zn size) ∈ ops /\
    JsNum.eqv dx x /\ JsNum.eqv dy y.

(** [offset * size / 256] *)
Definition scaledOffset (offset size : Z) : JSNum :=
  Fin (inject_Z offset * inject_Z size / 256).

(** The images an operation list draws. *)
Definition imagesDrawn (ops : list DrawOp) : list Image :=
  omap (fun op => match op with DrawImage i _ _ _ _ _ _ _ _ => Some i | _ => None end) ops.

(** What a surface has received so far. *)
Definition surfaceOps (w : World) (s : Surface) : list DrawOp :=
  match s with
  | StaticCanvas id => default [] (ops <$> elements (doc w) !! id)
  | ListCanvas n => default [] (listCanvasOps (doc w) !! n)
  end.

(** The world with the element [id] of the page replaced by [e]. *)
Definition withElement (id : string) (e : Element) (w : World) : World :=
  set_doc (set_elements (<[id := e]> (elements (doc w))) (doc w)) w.

(** The content of the attack-range field. *)
Definition attackRangeOf (w : World) : option string :=
  value <$> elements (doc w) !! "attack-range".

(** The controls [saveEnemy] reads. *)
Definition formFields : list string :=
  ["enemy-id"; "enemy-id-input"; "enemy-name"; "sprite-path"; "weapon-path";
   "weapon-offset-x"; "weapon-offset-y"; "projectile-path"; "sprite-scale";
   "max-health"; "damage"; "speed"; "aggro-range"; "attack-range";
   "attack-cooldown"; "color-r"; "color-g"; "color-b"].

(** The value of a control, empty if the page lacks it. *)
Definition fieldValue (w : World) (id : string) : string :=
  default "" (value <$> elements (doc w) !! id).

(** A list of calls that is empty or begins by clearing a square at the
    origin. *)
Definition clearFirst (l : list DrawOp) : Prop :=
  l = [] \/ exists size rest, l = ClearRect 0 0 size size :: rest.

(** Since the world [w0], the surface [s] has received calls that begin with
    a clear, or none. *)
Definition redrawnSince (w0 : World) (s : Surface) (w : World) : Prop :=
  exists l, surfaceOps w s = surfaceOps w0 s ++ l /\ clearFirst l.

(** The canvases of the enemy list that are in the document. *)
Definition listCanvases (w : World) : list nat := item_canvas <$> enemyListItems (doc w).

(** The timers the script still holds a handle to. *)
Definition heldTimers (w : World) : list positive :=
  (interval <$> (map_to_list (enemyListAnimations (vars w))).*2)
  ++ option_list (animationInterval (vars w))
  ++ option_list (editorPreviewAnimation (vars w)).

(** No variable of the script holds the timer id [t]. *)
Definition handles_ok (t : positive) (v : Vars) : Prop :=
  (forall k a, enemyListAnimations v !! k = Some a -> interval a <> t) /\
  animationInterval v <> Some t /\
  editorPreviewAnimation v <> Some t.

(** Timer [t] is a live thumbnail ticker that draws [image] on the list
    canvas [node]; the script holds no handle to it; the canvas is not in
    the document; and neither the timer id nor the node id can be handed out
    again. *)
Definition leaked (t : positive) (node : nat) (image : Image) (w : World) : Prop :=
  (exists frame direction,
     timers (rt w) !! t = Some (ThumbTicker (ListCanvas node) image frame direction)) /\
  (t < nextTimer (rt w))%positive /\
  handles_ok t (vars w) /\
  (node < nextNode (rt w))%nat /\
  (node ∉ listCanvases w).

(** [m] returns from every world that satisfies [I], and keeps [I]. *)
Definition completes (I : World -> Prop) {A} (m : Exec A) : Prop :=
  forall w, I w -> exists a w', m w = Ok a w' /\ I w'.

(** Every live ticker of the form preview is the one the script holds in
    [editorPreviewAnimation]. *)
Definition editor_clock_held (w : World) : Prop :=
  forall n f d, timers (rt w) !! n = Some (EditorTicker f d) ->
    editorPreviewAnimation (vars w) = Some n.

(** The preview sidebar is open: the flag is set and the element is on the
    page, without the class [hidden]. *)
Definition sidebar_shown (w : World) : Prop :=
  previewSidebarVisible (vars w) = true /\
  hidden <$> elements (doc w) !! "preview-sidebar" = Some false.

(** Every live ticker of the sidebar is the one the script holds in
    [animationInterval], and the sidebar is open. *)
Definition sidebar_clock_ok (w : World) : Prop :=
  forall n b, timers (rt w) !! n = Some (SidebarTicker b) ->
    animationInterval (vars w) = Some n /\ sidebar_shown w.

Definition no_editor_clock (w : World) : Prop :=
  forall n f d, timers (rt w) !! n <> Some (EditorTicker f d).

Definition no_sidebar_clock (w : World) : Prop :=
  forall n b, timers (rt w) !! n <> Some (SidebarTicker b).

(** An update of the element [id] from [e] to [e'] that leaves the class
    [hidden] of the sidebar alone. *)
Definition hidden_kept_at (id : string) (e e' : Element) : Prop :=
  id = "preview-sidebar" -> hidden e' = hidden e.

(** A [drawImage] call reads one cell of the sprite sheet: 4 columns of
    frames, 8 rows of directions, each [frameSize] wide and high. *)
Definition cell_ok (op : DrawOp) : Prop :=
  match op with
  | DrawImage _ sx sy sw sh _ _ _ _ =>
      sw = frameSize /\ sh = frameSize /\
      (exists col, 0 <= col <= 3 /\ sx = col * frameSize) /\
      (exists row, 0 <= row <= 7 /\ sy = row * frameSize)
  | _ => True
  end.

(** Since the world [w0] every surface has only received calls that read
    one cell. *)
Definition draws_ok (w0 w : World) : Prop :=
  forall s, exists l, surfaceOps w s = surfaceOps w0 s ++ l /\ Forall cell_ok l.

(** An update of an element that leaves what its canvas received alone. *)
Definition ops_kept_at (id : string) (e e' : Element) : Prop := ops e' = ops e.

Definition drawn_in_cells (w0 w : World) : Prop := cursors_ok w /\ draws_ok w0 w.

(** The elements the script looks up and uses without a guard. *)
Definition requiredIds : list string :=
  ["enemy-list"; "sprite-list"; "editor-panel"; "welcome-panel"; "preview-sidebar";
   "export-modal"; "export-code"; "editor-title"; "color-preview";
   "projectile-row"; "weapon-section"; "preview-scale"; "preview-scale-value";
   "enemy-scale-label";
   "enemy-id"; "enemy-id-input"; "enemy-name"; "sprite-path"; "weapon-path";
   "weapon-offset-x"; "weapon-offset-y"; "projectile-path"; "sprite-scale";
   "max-health"; "damage"; "speed"; "aggro-range"; "attack-range";
   "attack-cooldown"; "color-r"; "color-g"; "color-b"].

(** The page has the elements of [requiredIds] and a radio button for
    melee, and one attack type is checked. *)
Definition page_complete (w : World) : Prop :=
  (forall id, id ∈ requiredIds -> is_Some (elements (doc w) !! id)) /\
  "melee" ∈ radios (doc w) /\
  is_Some (radioChecked (doc w)).

(** A complete page whose radio buttons are those of [R]. *)
Definition page_with (R : list string) (w : World) : Prop :=
  page_complete w /\ radios (doc w) = R.

(** The list entry [renderEnemyList] builds for one record of the store, on
    the canvas node [node], when [current] is the selected id. *)
Definition listItemOf (current : option string) (node : nat) (entry : string * EnemyRecord) :
    ListItem :=
  {| item_id := entry.1;
     item_active := bool_decide (current = Some entry.1);
     item_name := str_or (name entry.2) entry.1;
     item_canvasId := "enemy-preview-" +:+ entry.1;
     item_canvas := node |}.

(** The sprite of the player is [image] and no request for it is pending. *)
Definition player_sprite_settled (image : Image) (w : World) : Prop :=
  playerSpriteImage (vars w) = Some image /\
  forall n src, pendingLoads (rt w) !! n <> Some (src, PlayerLoad).

(** The element [id], if the page has it, satisfies [p]. *)
Definition elem_has (id : string) (p : Element -> Prop) (w : World) : Prop :=
  forall e, elements (doc w) !! id = Some e -> p e.

(** An update of the element [id'] from [e] to [e'] that keeps [p] on the
    element [id]. *)
Definition kept_at (id : string) (p : Element -> Prop) (id' : string) (e e' : Element) : Prop :=
  id' = id -> p e -> p e'.

(** The controls of the form that are text or number inputs. *)
Definition formInputs : list string :=
  ["enemy-id"; "enemy-id-input"; "enemy-name"; "sprite-scale"; "max-health"; "damage";
   "speed"; "aggro-range"; "attack-range"; "attack-cooldown"; "color-r"; "color-g";
   "color-b"; "weapon-offset-x"; "weapon-offset-y"].

(** What [createNewEnemy] writes into the form. *)
Definition newEnemyDefaults : list (string * string) :=
  [("enemy-id", ""); ("enemy-id-input", ""); ("enemy-name", "");
   ("sprite-path", ""); ("weapon-path", ""); ("sprite-scale", "1.0");
   ("max-health", "30"); ("damage", "5"); ("speed", "6.0"); ("aggro-range", "150");
   ("attack-range", "1.2"); ("attack-cooldown", "1.5");
   ("color-r", "200"); ("color-g", "50"); ("color-b", "50");
   ("projectile-path", ""); ("weapon-offset-x", "0"); ("weapon-offset-y", "0")].

(** The attack-range field is an input holding [v] while melee is the
    checked attack type. *)
Definition melee_range (v : string) (w : World) : Prop :=
  elem_has "attack-range" (fun e => options e = None /\ value e = v) w /\
  radioChecked (doc w) = Some "melee".

(** What [selectEnemy] writes into the inputs that [saveEnemy] reads back
    unchanged. *)
Definition selectedFields (id : string) (enemy : EnemyRecord) : list (string * string) :=
  let weaponOffset := default (0, 0) (weapon_offset enemy) in
  let colour := default (200, 50, 50) (color enemy) in
  [("enemy-id", id); ("enemy-name", str_or (name enemy) id);
   ("weapon-offset-x", JsString.of_Z weaponOffset.1);
   ("weapon-offset-y", JsString.of_Z weaponOffset.2);
   ("color-r", JsString.of_Z colour.1.1); ("color-g", JsString.of_Z colour.1.2);
   ("color-b", JsString.of_Z colour.2)].

(** The controls [selectEnemy] writes before it checks the radio button of
    the attack type. *)
Definition writtenBeforeAttackType : list string :=
  ["enemy-id"; "enemy-id-input"; "enemy-name"; "sprite-path"; "weapon-path";
   "sprite-scale"; "max-health"; "damage"; "speed"; "aggro-range"; "attack-range";
   "attack-cooldown"].

(** Since [w0] only controls of [writtenBeforeAttackType] have changed, and
    [id] is the current enemy. *)
Definition selection_aborted (w0 : World) (id : string) (w : World) : Prop :=
  currentEnemyId (vars w) = Some id /\
  set_currentEnemyId (currentEnemyId (vars w0)) (vars w) = vars w0 /\
  rt w = rt w0 /\
  set_elements (elements (doc w0)) (doc w) = doc w0 /\
  forall i, i ∉ writtenBeforeAttackType -> elements (doc w) !! i = elements (doc w0) !! i.

(** * Sample runs *)

(** Concrete worlds used below.  [orcData] is a backend with one enemy that
    has a sprite, a weapon and a weapon offset, and one enemy that has none. *)
Definition orcData : EnemyTypesData :=
  {| enemy_types :=
       Some [("orc", enemyWith (Some "game/images/enemy/orc.png")
                       (Some "game/images/weapon/sword.png") (Some (10, 20)));
             ("rat", enemyWith None None None)];
     available_sprites := Some ["orc.png"];
     available_weapons := Some ["sword.png"] |}.

(** The page after the first [loadData] and after the thumbnail of the orc
    has loaded: timer 1 animates it. *)
Definition listWorld : World :=
  @run ascii_platform (initWorld samplePage)
    [EnemyTypesFetched orcData; TexturesFetched None KNone; ImageLoaded 0].

(** The page with the preview sidebar open: timer 1 is the sidebar clock. *)
Definition sidebarWorld : World :=
  @run ascii_platform (initWorld samplePage) [TogglePreviewPanel].

(** The orc is selected, its sprite (image 1) and its weapon (image 3) have
    loaded, its new thumbnail (image 4, canvas node 2, timer 2) and the
    preview of the form (timer 3) are running and have ticked once. *)
Definition editWorld : World :=
  @run ascii_platform listWorld
    [SelectEnemy "orc"; ImageLoaded 1; ImageLoaded 2; ImageLoaded 3; ImageLoaded 4;
     EditorTimeout; Tick 2; Tick 3].

Definition orcSprite : Image := {| img_id := 1; img_src := "/api/sprites/orc.png" |}.
Definition orcThumb : Image := {| img_id := 4; img_src := "/api/sprites/orc.png" |}.
Definition sword : Image := {| img_id := 3; img_src := "/api/weapons/sword.png" |}.

(** A new enemy is being edited (melee is checked) and the user has typed 4
    into the attack-range field. *)
Definition rangeFourWorld : World :=
  @run ascii_platform (initWorld samplePage) [CreateNewEnemy; Input "attack-range" "4"].

(** A new enemy is being created and the user has typed its id. *)
Definition newRatWorld : World :=
  @run ascii_platform listWorld [CreateNewEnemy; Input "enemy-id-input" "Giant Rat"].

(** The backend after the save: the new record is there, under its key. *)
Definition ratData : EnemyTypesData :=
  {| enemy_types :=
       Some [("orc", enemyWith (Some "game/images/enemy/orc.png")
                       (Some "game/images/weapon/sword.png") (Some (10, 20)));
             ("rat", enemyWith None None None);
             ("giant_rat", enemyWith None None None)];
     available_sprites := Some ["orc.png"];
     available_weapons := Some ["sword.png"] |}.

(** The form has been submitted, the backend has accepted the record and
    answered the first request of [loadData]. *)
Definition savedWorld : World :=
  @run ascii_platform newRatWorld [SubmitForm; SaveAnswered SaveOk; EnemyTypesFetched ratData].

(** The list has been rendered and the thumbnail of the orc (image 0, canvas
    node 0) is still loading. *)
Definition loadingWorld : World :=
  @run ascii_platform (initWorld samplePage)
    [EnemyTypesFetched orcData; TexturesFetched None KNone].

(** A saved record makes [saveEnemy] render the list twice in a row, once
    inside [loadData] and once after it; both renders request the thumbnail
    of the orc (images 1 and 2).  Both images load, and then the edit is
    cancelled, which renders the list again. *)
Definition leakWorld : World :=
  @run ascii_platform savedWorld
    [TexturesFetched None (KSaved true "Giant Rat"); ImageLoaded 1; ImageLoaded 2; CancelEdit].


(** An enemy whose attack type the form has no radio button for, and a
    backend that has only this enemy. *)
Definition wizard : EnemyRecord :=
  {| name := Some "Wizard"; sprite_path := None; weapon_path := None;
     weapon_offset := None; projectile_path := None; sprite_scale := None;
     max_health := None; damage := None; speed := None;
     attack_type := Some "magic"; aggro_range := None; attack_range := None;
     attack_cooldown := None; color := None |}.

Definition wizardData : EnemyTypesData :=
  {| enemy_types := Some [("wizard", wizard)];
     available_sprites := Some [];
     available_weapons := Some [] |}.

Definition wizardWorld : World :=
  @run ascii_platform (initWorld samplePage)
    [EnemyTypesFetched wizardData; TexturesFetched None KNone].



(** The preview sidebar is open and the sprite of the player has loaded. *)
Definition playerWorld : World :=
  @run ascii_platform (initWorld samplePage) [TogglePreviewPanel; ImageLoaded 0].

Definition orc : EnemyRecord :=
  enemyWith (Some "game/images/enemy/orc.png") (Some "game/images/weapon/sword.png")
    (Some (10, 20)).

(** * Verification *)

(** ** Reasoning about computations *)

Section Preservation.

Variable I : World -> Prop.

Lemma preserves_ret {A} (a : A) : preserves I (mret a).
Proof. intros w H. exact H. Qed.

Lemma preserves_bind {A B} (m : Exec A) (k : A -> Exec B) :
  preserves I m -> (forall a, preserves I (k a)) -> preserves I (m ≫= k).
Proof.
  intros Hm Hk w H. specialize (Hm w H).
  unfold mbind, Exec_bind, bind. destruct (m w) as [a w'|w']; simpl in *.
  - apply Hk, Hm.
  - exact Hm.
Qed.

Lemma preserves_throw {A} : preserves I (@throw A).
Proof. intros w H. exact H. Qed.

Lemma preserves_try_catch (m h : Exec unit) :
  preserves I m -> preserves I h -> preserves I (try_catch m h).
Proof.
  intros Hm Hh w H. specialize (Hm w H).
  unfold try_catch. destruct (m w) as [a w'|w']; simpl in *.
  - exact Hm.
  - apply Hh, Hm.
Qed.

Lemma preserves_gets {A} (f : World -> A) : preserves I (gets f).
Proof. intros w H. exact H. Qed.

Lemma preserves_modify (f : World -> World) :
  (forall w, I w -> I (f w)) -> preserves I (modify f).
Proof. intros Hf w H. apply Hf, H. Qed.

Lemma preserves_when (c : bool) (m : Exec unit) :
  preserves I m -> preserves I (when c m).
Proof. intros Hm. destruct c; [exact Hm | apply preserves_ret]. Qed.

Lemma preserves_forEach {A} (f : A -> Exec unit) (l : list A) :
  (forall a, preserves I (f a)) -> preserves I (forEach f l).
Proof.
  intros Hf. induction l as [|a l IH]; simpl.
  - apply preserves_ret.
  - apply preserves_bind; [apply Hf | intros _; exact IH].
Qed.

Lemma preserves_deref {A} (o : option A) : preserves I (deref o).
Proof. destruct o; [apply preserves_ret | apply preserves_throw]. Qed.

End Preservation.

(** A computation built from the primitives keeps an invariant as soon as
    each primitive does: [preserve tac] walks through the binds and the
    branches, unfolds the functions of the script on the way, uses the
    lemmas of the [pres] database where one applies, and leaves each
    [modify] to [tac]. *)

Create HintDb pres.

Ltac head_of t :=
  lazymatch t with
  | ?f _ => head_of f
  | _ => t
  end.

Ltac preserve_step tac :=
  lazymatch goal with
  | |- preserves _ (mbind _ _) => apply preserves_bind; [|intros ?]
  | |- preserves _ (mret _) => apply preserves_ret
  | |- preserves _ (ret _) => apply preserves_ret
  | |- preserves _ throw => apply preserves_throw
  | |- preserves _ (try_catch _ _) => apply preserves_try_catch
  | |- preserves _ (when _ _) => apply preserves_when
  | |- preserves _ (forEach _ _) => apply preserves_forEach; intros ?
  | |- preserves _ (deref _) => apply preserves_deref
  | |- preserves _ (gets _) => apply preserves_gets
  | |- preserves _ (modify _) => apply preserves_modify; intros ? ?; tac
  | |- preserves _ (match ?x with _ => _ end) => destruct x
  | |- preserves _ (let _ := _ in _) => cbv zeta
  | |- preserves _ ?m => let h := head_of m in unfold h
  end.

Ltac preserve tac :=
  repeat first [ solve [auto with pres] | preserve_step tac ].

(** ** Cursors stay in range *)

Lemma rem_succ_range (x m : Z) : 0 <= x -> 0 < m -> 0 <= Z.rem (x + 1) m <= m - 1.
Proof. intros Hx Hm. pose proof (Z.rem_bound_pos (x + 1) m). lia. Qed.

Lemma tick_ok (k : Clock) (c : Cursor) : cursor_ok c -> cursor_ok (tick k c).
Proof.
  destruct c as [f d]. unfold cursor_ok. simpl. intros [Hf Hd].
  pose proof (rem_succ_range f 4). pose proof (rem_succ_range d 8).
  destruct k; simpl; try destruct (Z.rem (f + 1) 4 =? 0); simpl; lia.
Qed.

Lemma cursors_ok_clearInterval (n : positive) : preserves cursors_ok (clearInterval n).
Proof.
  intros w [H1 H2]. split; [exact H1|]. simpl.
  apply map_Forall_delete, H2.
Qed.

Lemma cursors_ok_setInterval (t : Ticker) :
  ticker_ok t ->
  forall w, cursors_ok w ->
    match setInterval t w with
    | Ok n w' => cursors_ok w'
    | Throw w' => cursors_ok w'
    end.
Proof.
  intros Ht w [H1 H2]. simpl. split; [exact H1|]. simpl.
  apply map_Forall_insert_2; assumption.
Qed.

Lemma cursors_ok_setInterval_pres (t : Ticker) :
  ticker_ok t -> preserves cursors_ok (setInterval t).
Proof.
  intros Ht w H. pose proof (cursors_ok_setInterval t Ht w H) as H'.
  destruct (setInterval t w); exact H'.
Qed.

Lemma ticker_ok_start_thumb (ctx : Surface) (image : Image) :
  ticker_ok (ThumbTicker ctx image 0 0).
Proof. unfold ticker_ok, cursor_ok. simpl. lia. Qed.

Lemma ticker_ok_start_editor : ticker_ok (EditorTicker 0 0).
Proof. unfold ticker_ok, cursor_ok. simpl. lia. Qed.

Lemma ticker_ok_sidebar (b : bool) : ticker_ok (SidebarTicker b).
Proof. exact Logic.I. Qed.

#[local] Hint Resolve cursors_ok_clearInterval cursors_ok_setInterval_pres
  ticker_ok_start_thumb ticker_ok_start_editor ticker_ok_sidebar : pres.

Lemma cursors_ok_prevDirection : preserves cursors_ok prevDirection.
Proof.
  unfold prevDirection. apply preserves_bind.
  - apply preserves_modify. intros w [[Hf Hd] H2]. split; [|exact H2].
    split; [exact Hf|]. simpl in *.
    pose proof (Z.rem_bound_pos (animationDirection (vars w) - 1 + 8) 8). lia.
  - intros _. preserve assumption.
Qed.

Lemma cursors_ok_nextDirection : preserves cursors_ok nextDirection.
Proof.
  unfold nextDirection. apply preserves_bind.
  - apply preserves_modify. intros w [[Hf Hd] H2]. split; [|exact H2].
    split; [exact Hf|]. simpl in *.
    pose proof (Z.rem_bound_pos (animationDirection (vars w) + 1) 8). lia.
  - intros _. preserve assumption.
Qed.

Lemma cursors_ok_drawOn (s : Surface) (l : list DrawOp) : preserves cursors_ok (drawOn s l).
Proof. preserve assumption. Qed.

Lemma cursors_ok_sidebarDraw (b : bool) : preserves cursors_ok (sidebarDraw b).
Proof. preserve assumption. Qed.

#[local] Hint Resolve cursors_ok_prevDirection cursors_ok_nextDirection
  cursors_ok_drawOn cursors_ok_sidebarDraw : pres.

Lemma bind_gets {A B} (f : World -> A) (k : A -> Exec B) (w : World) :
  (gets f ≫= k) w = k (f w) w.
Proof. reflexivity. Qed.

Lemma cursors_ok_set_ticker (n : positive) (t : Ticker) :
  ticker_ok t ->
  preserves cursors_ok (setr (fun r => set_timers (<[n := t]> (timers r)) r)).
Proof.
  intros Ht. apply preserves_modify. intros w [H1 H2]. split; [exact H1|].
  simpl. apply map_Forall_insert_2; assumption.
Qed.

Lemma cursors_ok_onTick (n : positive) : preserves cursors_ok (onTick n).
Proof.
  intros w Hw. unfold onTick, getr. rewrite bind_gets.
  destruct (timers (rt w) !! n) as [t|] eqn:E; [|exact Hw].
  pose proof (proj2 Hw n t E) as Ht. clear E.
  destruct t as [ctx image f d|b|f d]; cbv beta iota; revert w Hw.
  - apply preserves_bind; [|intros _; auto with pres].
    apply cursors_ok_set_ticker. apply (tick_ok ThumbClock (f, d)), Ht.
  - apply preserves_bind; [|intros _; auto with pres].
    apply preserves_modify. intros w [H1 H2]. split; [|exact H2].
    exact (tick_ok SidebarClock _ H1).
  - apply preserves_bind; [|intros _; preserve assumption].
    apply cursors_ok_set_ticker. apply (tick_ok EditorClock (f, d)), Ht.
Qed.

#[local] Hint Resolve cursors_ok_onTick : pres.

Lemma cursors_ok_handle `{P : Platform} (e : Event) : preserves cursors_ok (handle e).
Proof. destruct e; simpl; preserve assumption. Qed.

Lemma cursors_ok_init (d : Doc) : cursors_ok (initWorld d).
Proof.
  split.
  - unfold cursor_ok. simpl. lia.
  - apply map_Forall_empty.
Qed.

Lemma cursors_ok_run `{P : Platform} (es : list Event) (w : World) :
  cursors_ok w -> cursors_ok (run w es).
Proof.
  revert w. induction es as [|e es IH]; intros w Hw; simpl.
  - exact Hw.
  - apply IH. apply cursors_ok_handle, Hw.
Qed.

(** ** The tick law *)

Lemma tickFrameAndDirection_law (c : Cursor) :
  cursor_ok c -> tickFrameAndDirection c = tickLaw c.
Proof.
  destruct c as [f d]. unfold cursor_ok, tickFrameAndDirection, tickLaw. simpl.
  intros [Hf Hd]. rewrite !Z.rem_mod_nonneg by lia. reflexivity.
Qed.

Lemma cursor_ok_cases (c : Cursor) :
  cursor_ok c ->
  exists f d, c = (Z.of_nat f, Z.of_nat d) /\ (f < 4)%nat /\ (d < 8)%nat.
Proof.
  destruct c as [f d]. unfold cursor_ok. simpl. intros [Hf Hd].
  exists (Z.to_nat f), (Z.to_nat d). rewrite !Z2Nat.id by lia.
  split; [reflexivity | lia].
Qed.

Lemma four_ticks_frameAndDirection (c : Cursor) :
  cursor_ok c -> Nat.iter 4 tickFrameAndDirection c = (c.1, (c.2 + 1) mod 8).
Proof.
  intros (f & d & -> & Hf & Hd)%cursor_ok_cases.
  do 4 (destruct f as [|f]; [do 8 (destruct d as [|d]; [reflexivity|]); lia|]).
  lia.
Qed.

Lemma four_ticks_frameOnly (c : Cursor) :
  cursor_ok c -> Nat.iter 4 tickFrameOnly c = c.
Proof.
  intros (f & d & -> & Hf & Hd)%cursor_ok_cases.
  do 4 (destruct f as [|f]; [reflexivity|]). lia.
Qed.

Lemma bind_modify {B} (f : World -> World) (k : unit -> Exec B) (w : World) :
  (modify f ≫= k) w = k tt (f w).
Proof. reflexivity. Qed.

Lemma cursorAt_drawOn (n : positive) (x : option (Clock * Cursor)) (s : Surface) (l : list DrawOp) :
  preserves (fun w => cursorAt w n = x) (drawOn s l).
Proof. preserve assumption. Qed.

Lemma cursorAt_sidebarDraw (n : positive) (x : option (Clock * Cursor)) (b : bool) :
  preserves (fun w => cursorAt w n = x) (sidebarDraw b).
Proof. preserve assumption. Qed.

Lemma cursorAt_onTick (w : World) (n : positive) (k : Clock) (c : Cursor) :
  cursorAt w n = Some (k, c) ->
  cursorAt (final (onTick n w)) n = Some (k, tick k c).
Proof.
  unfold cursorAt at 1. intros H. unfold onTick, getr. rewrite bind_gets.
  destruct (timers (rt w) !! n) as [t|] eqn:E; [|discriminate].
  destruct t as [ctx image f d|b|f d]; injection H as <- <-; cbv beta iota.
  - unfold setr. rewrite bind_modify. apply cursorAt_drawOn.
    unfold cursorAt. simpl. rewrite lookup_insert_eq. reflexivity.
  - unfold setv. rewrite bind_modify. apply cursorAt_sidebarDraw.
    unfold cursorAt. simpl. rewrite E. reflexivity.
  - unfold setr. rewrite bind_modify. rewrite bind_gets.
    apply cursorAt_drawOn.
    unfold cursorAt. simpl. rewrite lookup_insert_eq. reflexivity.
Qed.

Lemma cursorAt_ticks `{P : Platform} (m : nat) (w : World) (n : positive) (k : Clock) (c : Cursor) :
  cursorAt w n = Some (k, c) ->
  cursorAt (run w (replicate m (Tick n))) n = Some (k, Nat.iter m (tick k) c).
Proof.
  revert w c. induction m as [|m IH]; intros w c H; simpl.
  - exact H.
  - rewrite (IH _ (tick k c)).
    + f_equal. f_equal. clear. induction m as [|m IH]; simpl; [reflexivity|].
      rewrite IH. reflexivity.
    + apply cursorAt_onTick, H.
Qed.

(** C1 (as amended).  One tick of a live timer applies the transition of its
    clock to its cursor, and four ticks apply it four times.  For the
    thumbnail and the editor clock that transition is the law of the
    specification, and four ticks from an in-range cursor (f, d) give
    (f, (d+1) mod 8).  The sidebar clock advances the frame only: the
    direction is left as it is, so four ticks return to the same cursor. *)
Theorem tick_transition_law `{P : Platform}
    (w : World) (n : positive) (k : Clock) (c : Cursor) :
  cursorAt w n = Some (k, c) ->
  cursor_ok c ->
  cursorAt (step w (Tick n)) n = Some (k, tick k c) /\
  cursorAt (run w (replicate 4 (Tick n))) n = Some (k, Nat.iter 4 (tick k) c) /\
  match k with
  | SidebarClock =>
      tick k c = ((c.1 + 1) mod 4, c.2) /\ Nat.iter 4 (tick k) c = c
  | _ =>
      tick k c = tickLaw c /\ Nat.iter 4 (tick k) c = (c.1, (c.2 + 1) mod 8)
  end.
Proof.
  intros Hat Hc. split; [|split].
  - apply cursorAt_onTick, Hat.
  - apply cursorAt_ticks, Hat.
  - destruct k; simpl.
    + split; [apply tickFrameAndDirection_law | apply four_ticks_frameAndDirection]; exact Hc.
    + split; [|apply four_ticks_frameOnly, Hc].
      unfold tickFrameOnly. destruct Hc as [Hf _].
      rewrite Z.rem_mod_nonneg by lia. reflexivity.
    + split; [apply tickFrameAndDirection_law | apply four_ticks_frameAndDirection]; exact Hc.
Qed.

Lemma tick_transition_law_witness :
  cursorAt listWorld 1 = Some (ThumbClock, (0, 0)) /\
  cursor_ok (0, 0) /\
  cursorAt (@step ascii_platform listWorld (Tick 1)) 1 = Some (ThumbClock, (1, 0)) /\
  cursorAt (@run ascii_platform listWorld (replicate 4 (Tick 1))) 1 = Some (ThumbClock, (0, 1)).
Proof.
  assert (H1 : cursorAt listWorld 1 = Some (ThumbClock, (0, 0))) by (vm_compute; reflexivity).
  assert (H2 : cursor_ok (0, 0)) by (unfold cursor_ok; simpl; lia).
  destruct (@tick_transition_law ascii_platform listWorld 1 ThumbClock (0, 0) H1 H2)
    as (T1 & T4 & _).
  exact (conj H1 (conj H2 (conj T1 T4))).
Defined.

(** C1 (as stated) fails for the sidebar clock.  With the sidebar open and
    its cursor at (3, 0), the next tick wraps the frame to 0 and the
    direction stays 0, where the stated law gives direction 1; four ticks
    from (3, 0) come back to (3, 0), not to (3, 1). *)
Lemma sidebar_clock_never_turns :
  let w := @run ascii_platform sidebarWorld [Tick 1; Tick 1; Tick 1] in
  cursorAt w 1 = Some (SidebarClock, (3, 0)) /\
  cursorAt (@step ascii_platform w (Tick 1)) 1 = Some (SidebarClock, (0, 0)) /\
  tickLaw (3, 0) = (0, 1) /\
  cursorAt (@step ascii_platform w (Tick 1)) 1 <> Some (SidebarClock, tickLaw (3, 0)) /\
  cursorAt (@run ascii_platform w (replicate 4 (Tick 1))) 1 = Some (SidebarClock, (3, 0)) /\
  cursorAt (@run ascii_platform w (replicate 4 (Tick 1))) 1
    <> Some (SidebarClock, (3, (0 + 1) mod 8)).
Proof. vm_compute. repeat split; (reflexivity || discriminate). Qed.

(** C2.  Whatever page the script starts on and whatever events follow, the
    sidebar cursor and the cursor of every live thumbnail and editor ticker
    have their frame in [0,3] and their direction in [0,7]; and
    [prevDirection] takes direction 0 to 7. *)
Theorem cursors_always_in_range `{P : Platform} (d : Doc) (es : list Event) :
  cursors_ok (run (initWorld d) es) /\
  forall w : World,
    animationDirection
      (vars (step (set_vars (set_animationDirection 0 (vars w)) w) PrevDirection)) = 7.
Proof.
  split.
  - apply cursors_ok_run, cursors_ok_init.
  - intros w. unfold step. simpl. unfold prevDirection, setv.
    rewrite bind_modify.
    assert (Hd : preserves (fun w' => animationDirection (vars w') = 7) updateDirectionLabel)
      by (preserve assumption).
    apply Hd. reflexivity.
Qed.

(** ** Where the weapon layer is drawn *)

Lemma mul_div_eqv (offset size : Z) :
  size <> 0 ->
  JsNum.eqv (JsNum.mul (zn offset) (JsNum.div (zn size) (zn frameSize)))
            (scaledOffset offset size).
Proof.
  intros Hs. unfold JsNum.mul, JsNum.div, zn, JsNum.of_Z, scaledOffset, frameSize.
  change (Qeq_bool (inject_Z 256) 0) with false. cbv iota.
  unfold JsNum.eqv. rewrite !Qred_correct. unfold Qdiv.
  rewrite Qmult_assoc. reflexivity.
Qed.

(** C3 (as amended).  On the two surfaces that draw the weapon overlay, the
    160px weapon preview of the sidebar and the 500px canvas of the form, the
    weapon layer is placed at (offsetX*S/256, offsetY*S/256) whenever the
    base sprite and the weapon image are loaded.  The 64px thumbnails and the
    128px canvases of the sidebar draw no weapon layer: the only image they
    draw is their base sprite. *)
Theorem weapon_offset_scaling (v : Vars) (c : Cursor) (sprite weapon : Image) :
  currentSpriteImage v = Some sprite ->
  currentWeaponImage v = Some weapon ->
  placedAt weapon (scaledOffset (currentWeaponOffsetX v) 160)
    (scaledOffset (currentWeaponOffsetY v) 160) 160 (sidebarDraw_weapon v) /\
  placedAt weapon (scaledOffset (currentWeaponOffsetX v) 500)
    (scaledOffset (currentWeaponOffsetY v) 500) 500 (editorDraw v c) /\
  imagesDrawn (thumbDraw sprite c) = [sprite] /\
  imagesDrawn (sidebarDraw_enemy v) = [sprite] /\
  imagesDrawn (sidebarDraw_player v) = option_list (playerSpriteImage v).
Proof.
  intros Hs Hw. repeat split.
  - unfold sidebarDraw_weapon. rewrite Hs, Hw.
    eexists _, _, _, _. split; [|split].
    + do 2 right. left.
    + apply mul_div_eqv. lia.
    + apply mul_div_eqv. lia.
  - unfold editorDraw. rewrite Hs, Hw.
    eexists _, _, _, _. split; [|split].
    + do 2 right. left.
    + apply mul_div_eqv. lia.
    + apply mul_div_eqv. lia.
  - unfold sidebarDraw_enemy. rewrite Hs. reflexivity.
  - unfold sidebarDraw_player. destruct (playerSpriteImage v); reflexivity.
Qed.

Lemma weapon_offset_scaling_witness :
  currentSpriteImage (vars editWorld) = Some orcSprite /\
  currentWeaponImage (vars editWorld) = Some sword /\
  placedAt sword (scaledOffset (currentWeaponOffsetX (vars editWorld)) 160)
    (scaledOffset (currentWeaponOffsetY (vars editWorld)) 160) 160
    (sidebarDraw_weapon (vars editWorld)) /\
  placedAt sword (scaledOffset (currentWeaponOffsetX (vars editWorld)) 500)
    (scaledOffset (currentWeaponOffsetY (vars editWorld)) 500) 500
    (editorDraw (vars editWorld) (1, 0)).
Proof.
  assert (H1 : currentSpriteImage (vars editWorld) = Some orcSprite)
    by (vm_compute; reflexivity).
  assert (H2 : currentWeaponImage (vars editWorld) = Some sword)
    by (vm_compute; reflexivity).
  destruct (weapon_offset_scaling (vars editWorld) (1, 0) orcSprite sword H1 H2)
    as (S160 & S500 & _).
  exact (conj H1 (conj H2 (conj S160 S500))).
Defined.

(** C3 (as stated) fails at S = 64.  The orc has a weapon with stored offset
    (10, 20); its weapon image is loaded and the 500px canvas of the form
    draws it at (10*500/256, 20*500/256).  The 64px thumbnail of the same
    enemy has received only its base sprite, at (0, 0): nothing is placed at
    (10*64/256, 20*64/256). *)
Lemma thumbnail_draws_no_weapon :
  currentWeaponImage (vars editWorld) = Some sword /\
  (currentWeaponOffsetX (vars editWorld), currentWeaponOffsetY (vars editWorld)) = (10, 20) /\
  placedAt sword (scaledOffset 10 500) (scaledOffset 20 500) 500
    (surfaceOps editWorld (StaticCanvas "editor-preview-canvas")) /\
  surfaceOps editWorld (ListCanvas 2) =
    [ ClearRect 0 0 64 64;
      DrawImage orcThumb 0 0 256 256 (zn 0) (zn 0) (zn 64) (zn 64);
      ClearRect 0 0 64 64;
      DrawImage orcThumb 256 0 256 256 (zn 0) (zn 0) (zn 64) (zn 64) ] /\
  forall image,
    ~ placedAt image (scaledOffset 10 64) (scaledOffset 20 64) 64
        (surfaceOps editWorld (ListCanvas 2)).
Proof.
  assert (E : surfaceOps editWorld (ListCanvas 2) =
    [ ClearRect 0 0 64 64;
      DrawImage orcThumb 0 0 256 256 (zn 0) (zn 0) (zn 64) (zn 64);
      ClearRect 0 0 64 64;
      DrawImage orcThumb 256 0 256 256 (zn 0) (zn 0) (zn 64) (zn 64) ])
    by (vm_compute; reflexivity).
  split; [vm_compute; reflexivity|].
  split; [vm_compute; reflexivity|].
  split.
  - exists 256, 0, (Fin (625 # 32)), (Fin (625 # 16)). split; [|split].
    + assert (E' : surfaceOps editWorld (StaticCanvas "editor-preview-canvas") !! 5%nat =
        Some (DrawImage sword 256 0 frameSize frameSize (Fin (625 # 32)) (Fin (625 # 16))
                (zn 500) (zn 500))) by (vm_compute; reflexivity).
      eapply list_elem_of_lookup_2, E'.
    + vm_compute. reflexivity.
    + vm_compute. reflexivity.
  - split; [exact E|].
    intros image (sx & sy & dx & dy & Hin & Hx & _). rewrite E in Hin.
    repeat (apply elem_of_cons in Hin as [Hin|Hin]; [try discriminate Hin|]).
    + injection Hin as _ _ _ -> _. vm_compute in Hx. discriminate Hx.
    + injection Hin as _ _ _ -> _. vm_compute in Hx. discriminate Hx.
    + apply elem_of_nil in Hin. exact Hin.
Qed.

(** ** Stepping through a computation *)

Lemma bind_ok {A B} (m : Exec A) (k : A -> Exec B) (w w' : World) (a : A) :
  m w = Ok a w' -> (m ≫= k) w = k a w'.
Proof. intros H. unfold mbind, Exec_bind, bind. rewrite H. reflexivity. Qed.

Lemma bind_throw {A B} (m : Exec A) (k : A -> Exec B) (w w' : World) :
  m w = Throw w' -> (m ≫= k) w = Throw w'.
Proof. intros H. unfold mbind, Exec_bind, bind. rewrite H. reflexivity. Qed.

Lemma getProp_ok {A} (id : string) (prop : Element -> A) (w : World) (e : Element) :
  elements (doc w) !! id = Some e -> getProp id prop w = Ok (prop e) w.
Proof.
  intros H. unfold getProp, getElementById, getd, gets, mbind, Exec_bind, bind.
  rewrite H. reflexivity.
Qed.

Lemma setProp_ok (id : string) (f : Element -> Element) (w : World) (e : Element) :
  elements (doc w) !! id = Some e -> setProp id f w = Ok tt (withElement id (f e) w).
Proof.
  intros H. unfold setProp, getElementById, getd, gets, mbind, Exec_bind, bind.
  rewrite H. reflexivity.
Qed.

Lemma withElement_lookup (id id' : string) (e : Element) (w : World) :
  elements (doc (withElement id e w)) !! id' =
  if decide (id = id') then Some e else elements (doc w) !! id'.
Proof. unfold withElement. simpl. apply lookup_insert. Qed.

(** ** Attack type and attack range *)

(** C4 (as amended).  [updateAttackTypeUI] rewrites the attack-range field
    to 8.0 when the checked type is ranged and the parsed value is below 5,
    and to 1.2 when the checked type is anything else and the parsed value is
    above 3.  Otherwise the field is left as it is: for ranged, a value of 5
    or more or one that does not parse; for melee, a value of 3 or less or
    one that does not parse.  A value strictly between 3 and 5 is therefore
    rewritten by both updates. *)
Theorem attack_type_coupling `{P : Platform}
    (w : World) (t : string) (range row : Element) :
  radioChecked (doc w) = Some t ->
  elements (doc w) !! "attack-range" = Some range ->
  elements (doc w) !! "projectile-row" = Some row ->
  options range = None ->
  let v := value range in
  let after := final (updateAttackTypeUI w) in
  let v' := value <$> elements (doc after) !! "attack-range" in
  returns (updateAttackTypeUI w) = true /\
  (t = "ranged" -> JsNum.lt (parseFloat v) (zn 5) = true -> v' = Some "8.0") /\
  (t = "ranged" -> JsNum.lt (parseFloat v) (zn 5) = false -> v' = Some v) /\
  (t <> "ranged" -> JsNum.gt (parseFloat v) (zn 3) = true -> v' = Some "1.2") /\
  (t <> "ranged" -> JsNum.gt (parseFloat v) (zn 3) = false -> v' = Some v).
Proof.
  intros Ht Hrange Hrow Hopt v after v'. subst v v' after.
  assert (Hchecked : checkedRadio w = Ok t w).
  { unfold checkedRadio, getd. rewrite bind_gets, Ht. reflexivity. }
  assert (Hrange' : forall d, elements (doc (withElement "projectile-row" d w)) !! "attack-range"
                              = Some range).
  { intros d. rewrite withElement_lookup. rewrite decide_False by discriminate. exact Hrange. }
  assert (Hset : forall s d,
    value <$> elements (doc (withElement "attack-range" (assign_value s range)
                               (withElement "projectile-row" d w))) !! "attack-range" = Some s).
  { intros s d. rewrite withElement_lookup, decide_True by reflexivity.
    unfold assign_value. rewrite Hopt. reflexivity. }
  unfold updateAttackTypeUI. rewrite (bind_ok _ _ _ _ _ Hchecked).
  destruct (bool_decide_reflect (t = "ranged")) as [Heq|Hne].
  - unfold setDisplay. rewrite (bind_ok _ _ _ _ _ (setProp_ok _ _ _ _ Hrow)).
    unfold getValue. rewrite (bind_ok _ _ _ _ _ (getProp_ok _ _ _ _ (Hrange' _))).
    destruct (JsNum.lt (parseFloat (value range)) (zn 5)) eqn:Hlt; unfold when.
    + unfold setValue. rewrite (setProp_ok _ _ _ _ (Hrange' _)).
      cbn [final returns]. rewrite Hset. repeat split; congruence.
    + unfold mret, Exec_ret, ret. cbn [final returns].
      rewrite Hrange'. repeat split; congruence.
  - unfold setDisplay. rewrite (bind_ok _ _ _ _ _ (setProp_ok _ _ _ _ Hrow)).
    unfold getValue. rewrite (bind_ok _ _ _ _ _ (getProp_ok _ _ _ _ (Hrange' _))).
    destruct (JsNum.gt (parseFloat (value range)) (zn 3)) eqn:Hgt; unfold when.
    + unfold setValue. rewrite (setProp_ok _ _ _ _ (Hrange' _)).
      cbn [final returns]. rewrite Hset. repeat split; congruence.
    + unfold mret, Exec_ret, ret. cbn [final returns].
      rewrite Hrange'. repeat split; congruence.
Qed.

Lemma attack_type_coupling_witness :
  radioChecked (doc rangeFourWorld) = Some "melee" /\
  elements (doc rangeFourWorld) !! "attack-range" = Some (set_value "4" blank) /\
  elements (doc rangeFourWorld) !! "projectile-row" = Some (set_display "none" blank) /\
  options (set_value "4" blank) = None /\
  @parseFloat ascii_platform "4" = zn 4 /\
  attackRangeOf (final (@updateAttackTypeUI ascii_platform rangeFourWorld)) = Some "1.2".
Proof.
  assert (H1 : radioChecked (doc rangeFourWorld) = Some "melee") by (vm_compute; reflexivity).
  assert (H2 : elements (doc rangeFourWorld) !! "attack-range" = Some (set_value "4" blank))
    by (vm_compute; reflexivity).
  assert (H3 : elements (doc rangeFourWorld) !! "projectile-row"
               = Some (set_display "none" blank)) by (vm_compute; reflexivity).
  assert (H4 : options (set_value "4" blank) = None) by reflexivity.
  destruct (@attack_type_coupling ascii_platform rangeFourWorld "melee" _ _ H1 H2 H3 H4)
    as (_ & _ & _ & Hmelee & _).
  repeat (split; [assumption || reflexivity|]).
  apply Hmelee; [discriminate | vm_compute; reflexivity].
Defined.

(** The scenario of the specification: a new enemy starts as melee with
    1.2; switching to ranged gives 8.0, switching back gives 1.2 again. *)
Example ranged_and_back :
  let w := @run ascii_platform (initWorld samplePage) [CreateNewEnemy] in
  attackRangeOf w = Some "1.2" /\
  attackRangeOf (@run ascii_platform w [RadioChange "ranged"]) = Some "8.0" /\
  attackRangeOf (@run ascii_platform w [RadioChange "ranged"; RadioChange "melee"]) = Some "1.2".
Proof. vm_compute. repeat split; reflexivity. Qed.

(** C4 (as stated) fails for a value between the two thresholds.  With 4 in
    the field, the update for ranged rewrites it to 8.0 and the update for
    melee rewrites it to 1.2: it is left untouched on neither transition. *)
Lemma in_between_value_is_rewritten :
  attackRangeOf rangeFourWorld = Some "4" /\
  @parseFloat ascii_platform "4" = zn 4 /\
  attackRangeOf (@step ascii_platform rangeFourWorld (RadioChange "ranged")) = Some "8.0" /\
  attackRangeOf (@step ascii_platform rangeFourWorld (RadioChange "melee")) = Some "1.2" /\
  attackRangeOf (@step ascii_platform rangeFourWorld (RadioChange "ranged"))
    <> attackRangeOf rangeFourWorld /\
  attackRangeOf (@step ascii_platform rangeFourWorld (RadioChange "melee"))
    <> attackRangeOf rangeFourWorld.
Proof. vm_compute. repeat split; (reflexivity || discriminate). Qed.

(** ** Saving a new enemy *)

Lemma replace_first_occurrence (c : ascii) (rep pre post : string) :
  JsString.contains_char c pre = false ->
  JsString.replace c rep (pre +:+ String c post) = pre +:+ rep +:+ post.
Proof.
  induction pre as [|a pre IH]; simpl; intros H.
  - rewrite Ascii.eqb_refl. reflexivity.
  - apply orb_false_iff in H as [Ha Hpre]. rewrite Ha. rewrite IH by exact Hpre.
    reflexivity.
Qed.

Lemma replace_no_occurrence (c : ascii) (rep s : string) :
  JsString.contains_char c s = false -> JsString.replace c rep s = s.
Proof.
  induction s as [|a s IH]; simpl; intros H; [reflexivity|].
  apply orb_false_iff in H as [Ha Hs]. rewrite Ha, IH by exact Hs. reflexivity.
Qed.

Ltac in_list := repeat first [apply list_elem_of_here | apply list_elem_of_further].

Lemma getValue_ok (w : World) (id : string) :
  is_Some (elements (doc w) !! id) -> getValue id w = Ok (fieldValue w id) w.
Proof.
  intros [e He]. unfold getValue, fieldValue. rewrite (getProp_ok _ _ _ _ He), He.
  reflexivity.
Qed.

Lemma showToast_ok (message type : string) (w : World) :
  exists w', showToast message type w = Ok tt w'.
Proof. eexists. reflexivity. Qed.

Lemma loadData_textures_returns `{P : Platform} (r : option (option (list string))) (w : World) :
  exists w', loadData_textures r w = Ok tt w'.
Proof.
  unfold loadData_textures, try_catch.
  match goal with |- context [match ?m w with _ => _ end] => destruct (m w) as [[] w'|w'] end.
  - eexists. reflexivity.
  - apply showToast_ok.
Qed.

Lemma currentEnemyId_renderEnemyList (x : option string) :
  preserves (fun w => currentEnemyId (vars w) = x) renderEnemyList.
Proof. preserve assumption. Qed.

Lemma currentEnemyId_after_save `{P : Platform} (id : string) (w : World) :
  currentEnemyId (vars (final (after_loadData (KSaved true id) w))) = Some (normalizeId id).
Proof.
  unfold after_loadData, try_catch, when, setv. rewrite bind_modify.
  match goal with |- context [renderEnemyList ?w1] =>
    pose proof (currentEnemyId_renderEnemyList (Some (normalizeId id)) w1 eq_refl) as H;
    destruct (renderEnemyList w1) as [[] w'|w']
  end; exact H.
Qed.

(** C5.  When no enemy is selected and the form carries a non-empty id, the
    submit handler sends a POST for a new record with that id.  Once the
    backend has accepted it and [loadData] has finished, whether its
    requests succeeded or not and whatever happened on the page meanwhile,
    the current selection is the submitted id, lower-cased, with its first
    space replaced by an underscore and every later space left in place. *)
Theorem new_id_is_normalized `{P : Platform}
    (w w2 : World) (t : string) (r : option (option (list string))) :
  (forall id, id ∈ formFields -> is_Some (elements (doc w) !! id)) ->
  radioChecked (doc w) = Some t ->
  id_truthy (currentEnemyId (vars w)) = false ->
  let id := JsString.or (fieldValue w "enemy-id") (fieldValue w "enemy-id-input") in
  id <> "" ->
  exists req,
    saveEnemy_submit w = Ok (Some req) w /\
    isNew req = true /\ method req = "POST" /\ url req = "/api/enemy-types" /\
    data_id (body req) = id /\
    let k := KSaved (isNew req) (data_id (body req)) in
    let normalized := JsString.replace " " "_" (toLowerCase id) in
    currentEnemyId (vars (step w2 (TexturesFetched r k))) = Some normalized /\
    currentEnemyId (vars (step w2 (EnemyTypesFailed k))) = Some normalized /\
    (forall pre post,
       toLowerCase id = pre +:+ " " +:+ post ->
       JsString.contains_char " " pre = false ->
       normalized = pre +:+ "_" +:+ post) /\
    (JsString.contains_char " " (toLowerCase id) = false -> normalized = toLowerCase id).
Proof.
  intros Hall Ht Hcur id Hid.
  assert (Hget : forall i, i ∈ formFields -> getValue i w = Ok (fieldValue w i) w)
    by (intros i Hi; apply getValue_ok, Hall, Hi).
  assert (Hchecked : checkedRadio w = Ok t w).
  { unfold checkedRadio, getd. rewrite bind_gets, Ht. reflexivity. }
  assert (Hid1 : (if JsString.truthy (fieldValue w "enemy-id")
                  then mret (fieldValue w "enemy-id")
                  else getValue "enemy-id-input") w = Ok id w).
  { subst id. unfold JsString.or.
    destruct (JsString.truthy (fieldValue w "enemy-id")); [reflexivity|].
    apply Hget. in_list. }
  assert (Htruthy : JsString.truthy id = true) by (destruct id; [congruence | reflexivity]).
  assert (Hsubmit : exists req,
    saveEnemy_submit w = Ok (Some req) w /\
    isNew req = negb (id_truthy (currentEnemyId (vars w))) /\
    data_id (body req) = id /\
    method req = (if isNew req then "POST" else "PUT") /\
    (isNew req = true -> url req = "/api/enemy-types")).
  { unfold saveEnemy_submit.
    rewrite (bind_ok _ _ _ _ _ (Hget "enemy-id" ltac:(in_list))).
    rewrite (bind_ok _ _ _ _ _ Hid1). rewrite Htruthy. cbn [negb].
    rewrite (bind_ok _ _ _ _ _ Hchecked).
    repeat match goal with
    | |- context [getValue ?i ≫= ?k] =>
        rewrite (bind_ok (getValue i) k w w _ (Hget i ltac:(in_list)))
    end.
    unfold getv. rewrite bind_gets.
    eexists. split; [reflexivity|]. cbn [isNew body data_id method url].
    repeat split. intros ->. reflexivity. }
  destruct Hsubmit as (req & Hreq & HisNew & Hdata & Hmethod & Hurl).
  rewrite Hcur in HisNew. cbn [negb] in HisNew. rewrite HisNew in Hmethod.
  exists req. split; [exact Hreq|]. split; [exact HisNew|]. split; [exact Hmethod|].
  split; [exact (Hurl HisNew)|]. split; [exact Hdata|].
  rewrite HisNew, Hdata. cbv zeta.
  split; [|split; [|split]].
  - unfold step. cbn [handle].
    destruct (loadData_textures_returns r w2) as [w3 H3].
    rewrite (bind_ok _ _ _ _ _ H3). apply currentEnemyId_after_save.
  - unfold step. cbn [handle]. unfold loadData_failed.
    destruct (showToast_ok "Ошибка загрузки данных" "error" w2) as [w3 H3].
    rewrite (bind_ok _ _ _ _ _ H3). apply currentEnemyId_after_save.
  - intros pre post Hlow Hpre. rewrite Hlow. apply replace_first_occurrence, Hpre.
  - apply replace_no_occurrence.
Qed.

Example normalizeId_examples :
  @normalizeId ascii_platform "Giant Rat" = "giant_rat" /\
  @normalizeId ascii_platform "Giant Rat King" = "giant_rat king" /\
  @normalizeId ascii_platform "orc" = "orc".
Proof. repeat split; reflexivity. Qed.

Lemma new_id_is_normalized_witness :
  (forall id, id ∈ formFields -> is_Some (elements (doc newRatWorld) !! id)) /\
  radioChecked (doc newRatWorld) = Some "melee" /\
  id_truthy (currentEnemyId (vars newRatWorld)) = false /\
  JsString.or (fieldValue newRatWorld "enemy-id") (fieldValue newRatWorld "enemy-id-input")
    = "Giant Rat" /\
  currentEnemyId
    (vars (@step ascii_platform savedWorld (TexturesFetched None (KSaved true "Giant Rat"))))
    = Some "giant_rat".
Proof.
  assert (H1 : forall id, id ∈ formFields -> is_Some (elements (doc newRatWorld) !! id)).
  { intros id Hid. unfold formFields in Hid.
    repeat (apply elem_of_cons in Hid as [->|Hid]; [vm_compute; eauto|]).
    apply elem_of_nil in Hid. destruct Hid. }
  assert (H2 : radioChecked (doc newRatWorld) = Some "melee") by (vm_compute; reflexivity).
  assert (H3 : id_truthy (currentEnemyId (vars newRatWorld)) = false)
    by (vm_compute; reflexivity).
  assert (H4 : JsString.or (fieldValue newRatWorld "enemy-id")
                 (fieldValue newRatWorld "enemy-id-input") = "Giant Rat")
    by (vm_compute; reflexivity).
  assert (H5 : JsString.or (fieldValue newRatWorld "enemy-id")
                 (fieldValue newRatWorld "enemy-id-input") <> "")
    by (rewrite H4; discriminate).
  destruct (@new_id_is_normalized ascii_platform newRatWorld savedWorld "melee" None
              H1 H2 H3 H5) as (req & _ & HisNew & _ & _ & Hdata & Hcur & _).
  rewrite HisNew, Hdata, H4 in Hcur.
  exact (conj H1 (conj H2 (conj H3 (conj H4 Hcur)))).
Defined.

(** ** Thumbnails without a sprite *)






(** ** Redrawing a surface *)

Lemma clearFirst_nil : clearFirst [].
Proof. left. reflexivity. Qed.

Lemma clearFirst_cons (size : Z) (rest : list DrawOp) :
  clearFirst (ClearRect 0 0 size size :: rest).
Proof. right. eauto. Qed.

Lemma clearFirst_app (a b : list DrawOp) :
  clearFirst a -> clearFirst b -> clearFirst (a ++ b).
Proof.
  intros [->|(size & rest & ->)] Hb; [exact Hb|].
  right. exists size, (rest ++ b). reflexivity.
Qed.


Lemma surfaceOps_drawOn_any (s s' : Surface) (l : list DrawOp) (w : World) :
  exists l', surfaceOps (final (drawOn s l w)) s' = surfaceOps w s' ++ l' /\
             (l' = [] \/ l' = l).
Proof.
  destruct s as [id|n].
  - unfold drawOn, setPropIfPresent, getElementById, getd. rewrite bind_gets.
    destruct (elements (doc w) !! id) as [e|] eqn:He;
      [|exists []; split; [symmetry; apply app_nil_r | left; reflexivity]].
    cbn [final setd modify]. destruct s' as [id'|n'].
    + unfold surfaceOps. cbn [doc set_doc elements set_elements].
      rewrite lookup_insert. destruct (decide (id = id')) as [<-|Hne].
      * exists l. rewrite He. split; [reflexivity | right; reflexivity].
      * exists []. split; [symmetry; apply app_nil_r | left; reflexivity].
    + exists []. split; [symmetry; apply app_nil_r | left; reflexivity].
  - cbn [drawOn final setd modify]. destruct s' as [id'|n'].
    + exists []. split; [symmetry; apply app_nil_r | left; reflexivity].
    + unfold surfaceOps. cbn [doc set_doc listCanvasOps set_listCanvasOps].
      rewrite lookup_insert. destruct (decide (n = n')) as [<-|Hne].
      * exists l. split; [reflexivity | right; reflexivity].
      * exists []. split; [symmetry; apply app_nil_r | left; reflexivity].
Qed.

Lemma redrawnSince_drawOn (w0 : World) (s' s : Surface) (l : list DrawOp) :
  clearFirst l -> preserves (redrawnSince w0 s') (drawOn s l).
Proof.
  intros Hl w (l0 & H0 & Hc0).
  destruct (surfaceOps_drawOn_any s s' l w) as (l' & H' & Hl').
  exists (l0 ++ l'). split.
  - rewrite H', H0. symmetry. apply app_assoc.
  - apply clearFirst_app; [exact Hc0|]. destruct Hl' as [->| ->]; [apply clearFirst_nil | exact Hl].
Qed.

Lemma clearFirst_thumbDraw (image : Image) (c : Cursor) : clearFirst (thumbDraw image c).
Proof. apply clearFirst_cons. Qed.
Lemma clearFirst_sidebarDraw_enemy (v : Vars) : clearFirst (sidebarDraw_enemy v).
Proof. apply clearFirst_cons. Qed.
Lemma clearFirst_sidebarDraw_player (v : Vars) : clearFirst (sidebarDraw_player v).
Proof. apply clearFirst_cons. Qed.
Lemma clearFirst_sidebarDraw_weapon (v : Vars) : clearFirst (sidebarDraw_weapon v).
Proof. apply clearFirst_cons. Qed.
Lemma clearFirst_editorDraw (v : Vars) (c : Cursor) : clearFirst (editorDraw v c).
Proof. apply clearFirst_cons. Qed.

#[local] Hint Resolve redrawnSince_drawOn clearFirst_thumbDraw clearFirst_sidebarDraw_enemy
  clearFirst_sidebarDraw_player clearFirst_sidebarDraw_weapon clearFirst_editorDraw : pres.




(** ** Which endpoint serves a weapon sprite *)



Lemma split_go_nonempty (sep : ascii) (acc s : string) : JsString.split_go sep acc s <> [].
Proof.
  revert acc. induction s as [|c s IH]; intros acc; simpl; [discriminate|].
  destruct (Ascii.eqb c sep); [discriminate | apply IH].
Qed.

Lemma last_cons_nonempty {A} (x d : A) (l : list A) : l <> [] -> List.last (x :: l) d = List.last l d.
Proof. destruct l; [congruence | reflexivity]. Qed.

(** Without a separator there is one segment, the string itself. *)
Lemma pop_split_go_plain (sep : ascii) (acc s : string) :
  JsString.contains_char sep s = false ->
  JsString.pop (JsString.split_go sep acc s) = String.rev_app acc s.
Proof.
  revert acc. induction s as [|c s IH]; intros acc; simpl; intros H; [reflexivity|].
  apply orb_false_iff in H as [Hc Hs]. rewrite Hc. apply IH, Hs.
Qed.

(** The last segment is the last segment of what follows any separator. *)
Lemma pop_split_go_after (sep : ascii) (acc dir file : string) :
  JsString.pop (JsString.split_go sep acc (dir +:+ String sep file)) =
  JsString.pop (JsString.split_go sep "" file).
Proof.
  revert acc. induction dir as [|c dir IH]; intros acc; simpl.
  - rewrite Ascii.eqb_refl. apply last_cons_nonempty, split_go_nonempty.
  - destruct (Ascii.eqb c sep).
    + unfold JsString.pop. rewrite last_cons_nonempty by apply split_go_nonempty.
      apply IH.
    + apply IH.
Qed.





(** ** Selecting an id that is not in the store *)




(** ** Stopping tickers *)

(** *** What the stop paths do cancel *)

Lemma final_bind_post (I : World -> Prop) {A B} (m : Exec A) (k : A -> Exec B) (w : World) :
  I (final (m w)) -> (forall a, preserves I (k a)) -> I (final ((m ≫= k) w)).
Proof.
  intros Hm Hk. unfold mbind, Exec_bind, bind.
  destruct (m w) as [a w'|w']; simpl in *; [apply Hk, Hm | exact Hm].
Qed.

Lemma timer_gone_clearInterval (n m : positive) :
  preserves (fun w => timers (rt w) !! n = None) (clearInterval m).
Proof.
  intros w H. cbn [final clearInterval setr modify rt set_rt timers set_timers].
  apply lookup_delete_None. right. exact H.
Qed.

Lemma clear_all_cancels (l : list ListAnim) (a : ListAnim) (w : World) :
  a ∈ l ->
  timers (rt (final (forEach (fun anim => clearInterval (interval anim)) l w))) !! interval a
  = None.
Proof.
  revert w. induction l as [|b l IH]; intros w Ha; [apply elem_of_nil in Ha; destruct Ha|].
  cbn [forEach].
  change ((clearInterval (interval b) ≫= fun _ => forEach (fun anim => clearInterval (interval anim)) l) w)
    with (forEach (fun anim => clearInterval (interval anim)) l
            (set_rt (set_timers (delete (interval b) (timers (rt w))) (rt w)) w)).
  apply elem_of_cons in Ha as [->|Ha]; [|apply IH, Ha].
  apply (preserves_forEach (fun w => timers (rt w) !! interval b = None)).
  - intros c. apply timer_gone_clearInterval.
  - cbn [rt set_rt timers set_timers]. apply lookup_delete_eq.
Qed.

(** [renderEnemyList] cancels every ticker registered in
    [enemyListAnimations]. *)
Lemma renderEnemyList_cancels_registered (w : World) (id : string) (a : ListAnim) :
  enemyListAnimations (vars w) !! id = Some a ->
  timers (rt (final (renderEnemyList w))) !! interval a = None.
Proof.
  intros Ha. unfold renderEnemyList, getv. rewrite bind_gets.
  apply (final_bind_post (fun w => timers (rt w) !! interval a = None)).
  - apply clear_all_cancels. apply list_elem_of_fmap. exists (id, a).
    split; [reflexivity|]. apply elem_of_map_to_list, Ha.
  - intros _. preserve assumption.
Qed.

(** [stopAnimation] cancels the sidebar ticker and [stopEditorPreview] the
    ticker of the form. *)
Lemma stopAnimation_cancels (w : World) (n : positive) :
  animationInterval (vars w) = Some n ->
  timers (rt (final (stopAnimation w))) !! n = None /\
  animationInterval (vars (final (stopAnimation w))) = None.
Proof.
  intros H. unfold stopAnimation, getv. rewrite bind_gets, H.
  split; [|reflexivity]. cbn. apply lookup_delete_eq.
Qed.

Lemma stopEditorPreview_cancels (w : World) (n : positive) :
  editorPreviewAnimation (vars w) = Some n ->
  timers (rt (final (stopEditorPreview w))) !! n = None /\
  editorPreviewAnimation (vars (final (stopEditorPreview w))) = None.
Proof.
  intros H. unfold stopEditorPreview, getv. rewrite bind_gets, H.
  split; [|reflexivity]. cbn. apply lookup_delete_eq.
Qed.

(** *** A leaked ticker is never cancelled *)

Section Leak.

Variables (t : positive) (node : nat) (image : Image).

Lemma leaked_clearInterval (n : positive) : n <> t -> preserves (leaked t node image) (clearInterval n).
Proof.
  intros Hn w ((f & d & Ht) & H). split; [|exact H].
  exists f, d. cbn [final clearInterval setr modify rt set_rt timers set_timers].
  rewrite lookup_delete_ne by exact Hn. exact Ht.
Qed.

Lemma leaked_stopAnimation : preserves (leaked t node image) stopAnimation.
Proof.
  intros w Hw. unfold stopAnimation, getv. rewrite bind_gets.
  destruct (animationInterval (vars w)) as [n|] eqn:E; [|exact Hw].
  assert (Hn : n <> t).
  { destruct Hw as (_ & _ & (_ & Ha & _) & _). congruence. }
  revert w Hw E. intros w Hw _. revert w Hw.
  apply preserves_bind; [apply leaked_clearInterval, Hn|]. intros _.
  apply preserves_modify. intros w (H1 & H2 & (Ha & _ & He) & H4).
  split; [exact H1|]. split; [exact H2|]. split; [|exact H4].
  split; [exact Ha|]. split; [discriminate | exact He].
Qed.

Lemma leaked_stopEditorPreview : preserves (leaked t node image) stopEditorPreview.
Proof.
  intros w Hw. unfold stopEditorPreview, getv. rewrite bind_gets.
  destruct (editorPreviewAnimation (vars w)) as [n|] eqn:E; [|exact Hw].
  assert (Hn : n <> t).
  { destruct Hw as (_ & _ & (_ & _ & He) & _). congruence. }
  revert w Hw E. intros w Hw _. revert w Hw.
  apply preserves_bind; [apply leaked_clearInterval, Hn|]. intros _.
  apply preserves_modify. intros w (H1 & H2 & (Ha & Hs & _) & H4).
  split; [exact H1|]. split; [exact H2|]. split; [|exact H4].
  split; [exact Ha|]. split; [exact Hs | discriminate].
Qed.

(** Starting a timer and storing its id, in any of the three variables. *)
Lemma leaked_setInterval_store (T : Ticker) (store : positive -> Vars -> Vars) :
  (forall n v, n <> t -> handles_ok t v -> handles_ok t (store n v)) ->
  preserves (leaked t node image) (setInterval T ≫= fun n => setv (store n)).
Proof.
  intros Hstore w ((f & d & Ht) & Hlt & Hh & H4).
  assert (Hn : nextTimer (rt w) <> t) by lia.
  change (final ((setInterval T ≫= fun n => setv (store n)) w)) with
    (set_vars (store (nextTimer (rt w)) (vars w))
       (set_rt (set_nextTimer (Pos.succ (nextTimer (rt w)))
                  (set_timers (<[nextTimer (rt w) := T]> (timers (rt w))) (rt w))) w)).
  split; [|split; [|split]].
  - exists f, d. cbn [rt set_rt set_vars timers set_timers set_nextTimer].
    rewrite lookup_insert_ne by exact Hn. exact Ht.
  - cbn [rt set_rt set_vars nextTimer set_timers set_nextTimer]. lia.
  - apply Hstore; assumption.
  - exact H4.
Qed.

Lemma leaked_start_sidebar (b : bool) :
  preserves (leaked t node image)
    (setInterval (SidebarTicker b) ≫= fun n => setv (set_animationInterval (Some n))).
Proof.
  apply leaked_setInterval_store. intros n v Hn (Ha & _ & He).
  split; [exact Ha|]. split; [|exact He]. cbn. congruence.
Qed.

Lemma leaked_start_editor (f d : Z) :
  preserves (leaked t node image)
    (setInterval (EditorTicker f d) ≫= fun n => setv (set_editorPreviewAnimation (Some n))).
Proof.
  apply leaked_setInterval_store. intros n v Hn (Ha & Hs & _).
  split; [exact Ha|]. split; [exact Hs|]. cbn. congruence.
Qed.

Lemma leaked_start_thumb (ctx : Surface) (i : Image) (f d : Z) (id : string) :
  preserves (leaked t node image)
    (setInterval (ThumbTicker ctx i f d) ≫= fun n =>
       setv (fun v =>
         set_enemyListAnimations
           (<[id := {| interval := n; img := i |}]> (enemyListAnimations v)) v)).
Proof.
  apply (leaked_setInterval_store _
    (fun n v => set_enemyListAnimations
                  (<[id := {| interval := n; img := i |}]> (enemyListAnimations v)) v)).
  intros n v Hn (Ha & Hs & He).
  split; [|split; [exact Hs | exact He]].
  intros k a. cbn. rewrite lookup_insert. destruct (decide (id = k)).
  - intros [= <-]. exact Hn.
  - apply Ha.
Qed.

Lemma leaked_reset_animations :
  preserves (leaked t node image) (setv (set_enemyListAnimations ∅)).
Proof.
  apply preserves_modify. intros w (H1 & H2 & (_ & Hs & He) & H4).
  split; [exact H1|]. split; [exact H2|]. split; [|exact H4].
  split; [|split; [exact Hs | exact He]].
  intros k a. cbn. rewrite lookup_empty. discriminate.
Qed.

Lemma leaked_reset_list : preserves (leaked t node image) (setd (set_enemyListItems [])).
Proof.
  apply preserves_modify. intros w (H1 & H2 & H3 & H4 & _).
  split; [exact H1|]. split; [exact H2|]. split; [exact H3|]. split; [exact H4|].
  unfold listCanvases. cbn. apply not_elem_of_nil.
Qed.

End Leak.

#[local] Hint Resolve leaked_clearInterval leaked_stopAnimation leaked_stopEditorPreview
  leaked_start_sidebar leaked_start_editor leaked_start_thumb
  leaked_reset_animations leaked_reset_list : pres.

Section LeakForever.

Variables (t : positive) (node : nat) (image : Image).

Lemma leaked_renderEnemyItem (entry : string * EnemyRecord) :
  preserves (leaked t node image) (renderEnemyItem entry).
Proof.
  destruct entry as [id enemy]. intros w Hw.
  unfold renderEnemyItem, getv, getr, setr, setd.
  rewrite bind_gets, bind_gets, bind_modify, bind_modify.
  match goal with |- leaked _ _ _ (final (?rest ?w1)) =>
    assert (Hrest : preserves (leaked t node image) rest) by (preserve assumption);
    apply Hrest
  end.
  destruct Hw as (H1 & H2 & H3 & H4 & H5).
  split; [exact H1|]. split; [exact H2|]. split; [exact H3|]. split.
  - cbn [rt set_rt set_doc nextNode set_nextNode]. lia.
  - unfold listCanvases in *.
    cbn [doc set_doc set_rt enemyListItems set_enemyListItems].
    rewrite fmap_app, not_elem_of_app. split; [exact H5|].
    cbn. rewrite not_elem_of_cons. split; [lia | apply not_elem_of_nil].
Qed.

Lemma leaked_clear_all (l : list ListAnim) :
  (forall a, a ∈ l -> interval a <> t) ->
  preserves (leaked t node image) (forEach (fun anim => clearInterval (interval anim)) l).
Proof.
  induction l as [|a l IH]; intros Hl; simpl.
  - apply preserves_ret.
  - apply preserves_bind.
    + apply leaked_clearInterval, Hl. left.
    + intros _. apply IH. intros b Hb. apply Hl. right. exact Hb.
Qed.

#[local] Hint Resolve leaked_renderEnemyItem : pres.

Lemma leaked_renderEnemyList : preserves (leaked t node image) renderEnemyList.
Proof.
  intros w Hw. unfold renderEnemyList, getv. rewrite bind_gets.
  assert (Hl : forall a, a ∈ (map_to_list (enemyListAnimations (vars w))).*2 -> interval a <> t).
  { intros a Ha. apply list_elem_of_fmap in Ha as ([k a'] & -> & Hk).
    apply elem_of_map_to_list in Hk. destruct Hw as (_ & _ & (Hh & _) & _).
    exact (Hh k a' Hk). }
  refine (preserves_bind (leaked t node image) _ _ (leaked_clear_all _ Hl) _ w Hw).
  intros _. preserve assumption.
Qed.

Lemma leaked_drawOn (s : Surface) (l : list DrawOp) :
  preserves (leaked t node image) (drawOn s l).
Proof. preserve assumption. Qed.

Lemma leaked_sidebarDraw (b : bool) : preserves (leaked t node image) (sidebarDraw b).
Proof. preserve assumption. Qed.

Lemma leaked_onTick (n : positive) : preserves (leaked t node image) (onTick n).
Proof.
  intros w Hw. unfold onTick, getr. rewrite bind_gets.
  destruct (timers (rt w) !! n) as [T|] eqn:E; [|exact Hw].
  destruct Hw as ((f0 & d0 & Ht) & Hrest).
  destruct T as [ctx i f d|b|f d]; cbv beta iota.
  - unfold setr. rewrite bind_modify. apply leaked_drawOn.
    split; [|exact Hrest]. cbn [rt set_rt timers set_timers].
    rewrite lookup_insert. destruct (decide (n = t)) as [->|Hn]; [|eauto].
    rewrite Ht in E. injection E as <- <- _ _. eauto.
  - unfold setv. rewrite bind_modify. apply leaked_sidebarDraw.
    split; [eauto | exact Hrest].
  - unfold setr. rewrite bind_modify, bind_gets. apply leaked_drawOn.
    split; [|exact Hrest]. cbn [rt set_rt timers set_timers].
    rewrite lookup_insert. destruct (decide (n = t)) as [->|Hn]; [|eauto].
    rewrite Ht in E. discriminate E.
Qed.

#[local] Hint Resolve leaked_renderEnemyList leaked_onTick : pres.

Lemma leaked_handle `{P : Platform} (e : Event) : preserves (leaked t node image) (handle e).
Proof. destruct e; simpl; preserve assumption. Qed.

Lemma leaked_run `{P : Platform} (es : list Event) (w : World) :
  leaked t node image w -> leaked t node image (run w es).
Proof.
  revert w. induction es as [|e es IH]; intros w Hw; simpl.
  - exact Hw.
  - apply IH. apply leaked_handle, Hw.
Qed.

End LeakForever.

Lemma leaked_in_leakWorld :
  leaked 3 5 {| img_id := 1; img_src := "/api/sprites/orc.png" |} leakWorld.
Proof.
  assert (E1 : enemyListAnimations (vars leakWorld) = ∅) by (vm_compute; reflexivity).
  assert (E2 : animationInterval (vars leakWorld) = None) by (vm_compute; reflexivity).
  assert (E3 : editorPreviewAnimation (vars leakWorld) = Some 2%positive)
    by (vm_compute; reflexivity).
  assert (E4 : nextNode (rt leakWorld) = 11%nat) by (vm_compute; reflexivity).
  assert (E5 : listCanvases leakWorld = [8; 9; 10]%nat) by (vm_compute; reflexivity).
  assert (E6 : nextTimer (rt leakWorld) = 5%positive) by (vm_compute; reflexivity).
  split; [|split; [|split; [|split]]].
  - exists 0, 0. vm_compute. reflexivity.
  - rewrite E6. reflexivity.
  - split; [|split].
    + intros k a. rewrite E1, lookup_empty. discriminate.
    + rewrite E2. discriminate.
    + rewrite E3. discriminate.
  - rewrite E4. lia.
  - rewrite E5. intros H.
    repeat (apply elem_of_cons in H as [H|H]; [discriminate H|]).
    apply elem_of_nil in H. exact H.
Qed.

(** What the run leaves behind. *)
Lemma leakWorld_facts :
  let before := @run ascii_platform savedWorld
                  [TexturesFetched None (KSaved true "Giant Rat"); ImageLoaded 1; ImageLoaded 2] in
  let image1 := {| img_id := 1; img_src := "/api/sprites/orc.png" |} in
  let image2 := {| img_id := 2; img_src := "/api/sprites/orc.png" |} in
  map_to_list (timers (rt before)) =
    [ (3%positive, ThumbTicker (ListCanvas 5) image1 0 0);
      (4%positive, ThumbTicker (ListCanvas 5) image2 0 0);
      (2%positive, EditorTicker 0 0) ] /\
  heldTimers before = [4%positive; 2%positive] /\
  map_to_list (timers (rt leakWorld)) =
    [ (3%positive, ThumbTicker (ListCanvas 5) image1 0 0);
      (2%positive, EditorTicker 0 0) ] /\
  heldTimers leakWorld = [2%positive] /\
  listCanvases leakWorld = [8; 9; 10]%nat /\
  surfaceOps (@step ascii_platform leakWorld (Tick 3)) (ListCanvas 5) =
    surfaceOps leakWorld (ListCanvas 5) ++ thumbDraw image1 (1, 0) /\
  hidden <$> elements (doc leakWorld) !! "editor-panel" = Some true.
Proof. vm_compute. repeat split; reflexivity. Qed.

(** C8 fails on this run.  The two loads started one ticker each (timers 3
    and 4) on the same canvas, and the second registration under the key orc
    overwrote the first.  The render of [cancelEdit] cancelled timer 4 and
    removed the canvas; timer 3 is still live, the script holds no handle to
    it, its canvas (node 5) is no longer in the list, and its next tick draws
    on that removed canvas.  Nothing that can happen afterwards cancels it:
    after any further events, on any platform, timer 3 is still a live
    ticker on canvas 5 and canvas 5 is still out of the document.  The ticker
    of the form (timer 2) also outlives [hideEditor], which hid the editor
    panel. *)
Theorem thumbnail_ticker_leaks :
  let before := @run ascii_platform savedWorld
                  [TexturesFetched None (KSaved true "Giant Rat"); ImageLoaded 1; ImageLoaded 2] in
  let image1 := {| img_id := 1; img_src := "/api/sprites/orc.png" |} in
  let image2 := {| img_id := 2; img_src := "/api/sprites/orc.png" |} in
  map_to_list (timers (rt before)) =
    [ (3%positive, ThumbTicker (ListCanvas 5) image1 0 0);
      (4%positive, ThumbTicker (ListCanvas 5) image2 0 0);
      (2%positive, EditorTicker 0 0) ] /\
  heldTimers before = [4%positive; 2%positive] /\
  map_to_list (timers (rt leakWorld)) =
    [ (3%positive, ThumbTicker (ListCanvas 5) image1 0 0);
      (2%positive, EditorTicker 0 0) ] /\
  heldTimers leakWorld = [2%positive] /\
  listCanvases leakWorld = [8; 9; 10]%nat /\
  surfaceOps (@step ascii_platform leakWorld (Tick 3)) (ListCanvas 5) =
    surfaceOps leakWorld (ListCanvas 5) ++ thumbDraw image1 (1, 0) /\
  hidden <$> elements (doc leakWorld) !! "editor-panel" = Some true /\
  forall (P : Platform) (es : list Event), leaked 3 5 image1 (@run P leakWorld es).
Proof.
  pose proof leakWorld_facts as (F1 & F2 & F3 & F4 & F5 & F6 & F7).
  repeat (split; [assumption|]).
  intros P es. apply leaked_run, leaked_in_leakWorld.
Qed.

(** * Properties of every run *)

(** ** One clock for each preview *)

Lemma final_bind_hoare (I R : World -> Prop) {A B} (m : Exec A) (k : A -> Exec B) (w : World) :
  I (final (m w)) -> (forall w', I w' -> R w') ->
  (forall a w', I w' -> R (final (k a w'))) ->
  R (final ((m ≫= k) w)).
Proof.
  intros Hm Hthrow Hk. unfold mbind, Exec_bind, bind.
  destruct (m w) as [a w'|w']; simpl in *; [apply Hk, Hm | apply Hthrow, Hm].
Qed.

(** *** The editor clock *)

Lemma editor_held_clearInterval (n : positive) :
  preserves editor_clock_held (clearInterval n).
Proof.
  intros w H m f d. simpl. intros Hm. apply lookup_delete_Some in Hm as [_ Hm].
  exact (H m f d Hm).
Qed.

Lemma no_editor_clearInterval (n : positive) :
  preserves no_editor_clock (clearInterval n).
Proof.
  intros w H m f d. simpl. intros Hm. apply lookup_delete_Some in Hm as [_ Hm].
  exact (H m f d Hm).
Qed.

Lemma editor_held_setInterval (t : Ticker) :
  (forall f d, t <> EditorTicker f d) -> preserves editor_clock_held (setInterval t).
Proof.
  intros Ht w H m f d. simpl. rewrite lookup_insert.
  destruct (decide (nextTimer (rt w) = m)) as [_|_].
  - intros [= E]. destruct (Ht f d E).
  - apply H.
Qed.

Lemma editor_held_setInterval_thumb (ctx : Surface) (i : Image) (f d : Z) :
  preserves editor_clock_held (setInterval (ThumbTicker ctx i f d)).
Proof. apply editor_held_setInterval. discriminate. Qed.

Lemma editor_held_setInterval_sidebar (b : bool) :
  preserves editor_clock_held (setInterval (SidebarTicker b)).
Proof. apply editor_held_setInterval. discriminate. Qed.

#[local] Hint Resolve editor_held_clearInterval no_editor_clearInterval
  editor_held_setInterval_thumb editor_held_setInterval_sidebar : pres.

Lemma no_editor_held (w : World) : no_editor_clock w -> editor_clock_held w.
Proof. intros H n f d E. destruct (H n f d E). Qed.

Lemma stopEditorPreview_no_editor (w : World) :
  editor_clock_held w -> no_editor_clock (final (stopEditorPreview w)).
Proof.
  intros H. unfold stopEditorPreview, getv. rewrite bind_gets.
  destruct (editorPreviewAnimation (vars w)) as [n|] eqn:E.
  - intros m f d. simpl. intros Hm. apply lookup_delete_Some in Hm as [Hne Hm].
    apply H in Hm. congruence.
  - intros m f d Hm. apply H in Hm. congruence.
Qed.

Lemma editor_held_stopEditorPreview : preserves editor_clock_held stopEditorPreview.
Proof. intros w H. apply no_editor_held, stopEditorPreview_no_editor, H. Qed.

Lemma no_editor_drawOn (s : Surface) (l : list DrawOp) :
  preserves no_editor_clock (drawOn s l).
Proof. preserve assumption. Qed.

Lemma editor_held_startEditorPreview : preserves editor_clock_held startEditorPreview.
Proof.
  intros w H. unfold startEditorPreview.
  apply (final_bind_hoare no_editor_clock).
  - apply stopEditorPreview_no_editor, H.
  - apply no_editor_held.
  - intros _ w1 H1. unfold getElementById, getd. rewrite bind_gets.
    destruct (elements (doc w1) !! "editor-preview-canvas") as [e|];
      [|apply no_editor_held, H1].
    rewrite bind_gets.
    apply (final_bind_hoare no_editor_clock).
    + apply no_editor_drawOn, H1.
    + apply no_editor_held.
    + intros _ w2 H2 m f d. simpl. rewrite lookup_insert.
      destruct (decide (nextTimer (rt w2) = m)) as [<-|_]; [reflexivity|].
      intros Hm. destruct (H2 m f d Hm).
Qed.

Lemma editor_held_drawOn (s : Surface) (l : list DrawOp) :
  preserves editor_clock_held (drawOn s l).
Proof. preserve assumption. Qed.

Lemma editor_held_sidebarDraw (b : bool) : preserves editor_clock_held (sidebarDraw b).
Proof. preserve assumption. Qed.

Lemma editor_held_onTick (n : positive) : preserves editor_clock_held (onTick n).
Proof.
  intros w H. unfold onTick, getr. rewrite bind_gets.
  destruct (timers (rt w) !! n) as [t|] eqn:E; [|exact H].
  destruct t as [ctx i f d|b|f d]; cbv beta iota.
  - unfold setr. rewrite bind_modify. apply editor_held_drawOn.
    intros m f' d'. simpl. rewrite lookup_insert.
    destruct (decide (n = m)); [discriminate | apply H].
  - unfold setv. rewrite bind_modify. apply editor_held_sidebarDraw. exact H.
  - unfold setr. rewrite bind_modify, bind_gets. apply editor_held_drawOn.
    intros m f' d'. simpl. rewrite lookup_insert.
    destruct (decide (n = m)) as [<-|_]; [|apply H].
    intros _. exact (H n f d E).
Qed.

#[local] Hint Resolve editor_held_stopEditorPreview editor_held_startEditorPreview
  editor_held_onTick : pres.

Lemma editor_held_handle `{P : Platform} (e : Event) : preserves editor_clock_held (handle e).
Proof. destruct e; simpl; preserve assumption. Qed.

(** *** The sidebar clock *)

Lemma setProp_throw (id : string) (f : Element -> Element) (w : World) :
  elements (doc w) !! id = None -> setProp id f w = Throw w.
Proof.
  intros H. unfold setProp, getElementById, getd, gets, mbind, Exec_bind, bind.
  rewrite H. reflexivity.
Qed.

Section ElementFrame.

Variable Q : World -> Prop.
Variable kept : string -> Element -> Element -> Prop.

Hypothesis Q_frame : forall w id e e',
  elements (doc w) !! id = Some e -> kept id e e' -> Q w -> Q (withElement id e' w).

Lemma frame_setProp (id : string) (f : Element -> Element) :
  (forall e, kept id e (f e)) -> preserves Q (setProp id f).
Proof.
  intros Hf w H. destruct (elements (doc w) !! id) as [e|] eqn:E.
  - rewrite (setProp_ok _ _ _ _ E). apply (Q_frame w id e (f e) E (Hf e) H).
  - rewrite (setProp_throw _ _ _ E). exact H.
Qed.

Lemma frame_setPropIfPresent (id : string) (f : Element -> Element) :
  (forall e, kept id e (f e)) -> preserves Q (setPropIfPresent id f).
Proof.
  intros Hf w H. unfold setPropIfPresent, getElementById, getd. rewrite bind_gets.
  destruct (elements (doc w) !! id) as [e|] eqn:E; [|exact H].
  apply (Q_frame w id e (f e) E (Hf e) H).
Qed.

End ElementFrame.

Ltac hidden_kept :=
  intros ? ?;
  first [ discriminate
        | unfold assign_value, assign_options; repeat case_match; reflexivity ].

Lemma sidebar_shown_frame (w : World) (id : string) (e e' : Element) :
  elements (doc w) !! id = Some e ->
  hidden_kept_at id e e' ->
  sidebar_shown w -> sidebar_shown (withElement id e' w).
Proof.
  unfold hidden_kept_at. intros E He [Hv Hh]. split; [exact Hv|].
  rewrite withElement_lookup. destruct (decide (id = "preview-sidebar")) as [->|_]; [|exact Hh].
  rewrite E in Hh. simpl in *. rewrite He by reflexivity. exact Hh.
Qed.

Lemma sidebar_ok_frame (w : World) (id : string) (e e' : Element) :
  elements (doc w) !! id = Some e ->
  hidden_kept_at id e e' ->
  sidebar_clock_ok w -> sidebar_clock_ok (withElement id e' w).
Proof.
  intros E He H n b Hn. destruct (H n b Hn) as [Ha Hs].
  split; [exact Ha|]. apply (sidebar_shown_frame w id e e' E He Hs).
Qed.

#[local] Hint Extern 1 (preserves sidebar_clock_ok (setProp _ _)) =>
  apply (frame_setProp _ _ sidebar_ok_frame); hidden_kept : pres.
#[local] Hint Extern 1 (preserves sidebar_clock_ok (setPropIfPresent _ _)) =>
  apply (frame_setPropIfPresent _ _ sidebar_ok_frame); hidden_kept : pres.
#[local] Hint Extern 1 (preserves sidebar_shown (setProp _ _)) =>
  apply (frame_setProp _ _ sidebar_shown_frame); hidden_kept : pres.
#[local] Hint Extern 1 (preserves sidebar_shown (setPropIfPresent _ _)) =>
  apply (frame_setPropIfPresent _ _ sidebar_shown_frame); hidden_kept : pres.

Lemma no_sidebar_ok (w : World) : no_sidebar_clock w -> sidebar_clock_ok w.
Proof. intros H n b E. destruct (H n b E). Qed.

Lemma sidebar_ok_clearInterval (n : positive) :
  preserves sidebar_clock_ok (clearInterval n).
Proof.
  intros w H m b. simpl. intros Hm. apply lookup_delete_Some in Hm as [_ Hm].
  exact (H m b Hm).
Qed.

Lemma no_sidebar_clearInterval (n : positive) :
  preserves no_sidebar_clock (clearInterval n).
Proof.
  intros w H m b. simpl. intros Hm. apply lookup_delete_Some in Hm as [_ Hm].
  exact (H m b Hm).
Qed.

Lemma sidebar_ok_setInterval (t : Ticker) :
  (forall b, t <> SidebarTicker b) -> preserves sidebar_clock_ok (setInterval t).
Proof.
  intros Ht w H m b. simpl. rewrite lookup_insert.
  destruct (decide (nextTimer (rt w) = m)) as [_|_].
  - intros [= E]. destruct (Ht b E).
  - apply H.
Qed.

Lemma sidebar_ok_setInterval_thumb (ctx : Surface) (i : Image) (f d : Z) :
  preserves sidebar_clock_ok (setInterval (ThumbTicker ctx i f d)).
Proof. apply sidebar_ok_setInterval. discriminate. Qed.

Lemma sidebar_ok_setInterval_editor (f d : Z) :
  preserves sidebar_clock_ok (setInterval (EditorTicker f d)).
Proof. apply sidebar_ok_setInterval. discriminate. Qed.

#[local] Hint Resolve sidebar_ok_clearInterval no_sidebar_clearInterval
  sidebar_ok_setInterval_thumb sidebar_ok_setInterval_editor : pres.

Lemma stopAnimation_no_sidebar (w : World) :
  (forall n b, timers (rt w) !! n = Some (SidebarTicker b) ->
               animationInterval (vars w) = Some n) ->
  no_sidebar_clock (final (stopAnimation w)).
Proof.
  intros H. unfold stopAnimation, getv. rewrite bind_gets.
  destruct (animationInterval (vars w)) as [n|] eqn:E.
  - intros m b. simpl. intros Hm. apply lookup_delete_Some in Hm as [Hne Hm].
    apply H in Hm. congruence.
  - intros m b Hm. apply H in Hm. congruence.
Qed.

Lemma sidebar_ok_stopAnimation : preserves sidebar_clock_ok stopAnimation.
Proof.
  intros w H. apply no_sidebar_ok, stopAnimation_no_sidebar.
  intros n b Hn. apply (H n b Hn).
Qed.

Lemma no_sidebar_stopAnimation : preserves no_sidebar_clock stopAnimation.
Proof. preserve assumption. Qed.

(** Either the sidebar clock is running, held and shown, or none is. *)
Lemma sidebar_ok_cases (w : World) :
  sidebar_clock_ok w ->
  (exists e, elements (doc w) !! "preview-sidebar" = Some e /\
             forall n b, timers (rt w) !! n = Some (SidebarTicker b) ->
                         animationInterval (vars w) = Some n) \/
  no_sidebar_clock w.
Proof.
  intros H. destruct (animationInterval (vars w)) as [n|] eqn:Ea.
  - destruct (timers (rt w) !! n) as [t|] eqn:Et.
    + destruct t as [ctx i f d|b|f d].
      * right. intros m b Hm. destruct (H m b Hm) as [Hm' _]. congruence.
      * left. destruct (H n b Et) as (_ & _ & Hh).
        destruct (elements (doc w) !! "preview-sidebar") as [e|]; [|discriminate].
        exists e. split; [reflexivity|]. intros m b' Hm. rewrite <- Ea. apply (H m b' Hm).
      * right. intros m b Hm. destruct (H m b Hm) as [Hm' _]. congruence.
    + right. intros m b Hm. destruct (H m b Hm) as [Hm' _]. congruence.
  - right. intros m b Hm. destruct (H m b Hm) as [Hm' _]. congruence.
Qed.

(** The statements that hide the sidebar, in [togglePreviewPanel] and in
    [selectEnemy]. *)
Lemma hide_sidebar_no_clock (w : World) (v : Vars) :
  sidebar_clock_ok w ->
  animationInterval v = animationInterval (vars w) ->
  no_sidebar_clock
    (final ((classList_add_hidden "preview-sidebar";; stopAnimation) (set_vars v w))) \/
  no_sidebar_clock w.
Proof.
  intros H Hv. destruct (sidebar_ok_cases w H) as [(e & He & Hheld)|Hno]; [left | right; exact Hno].
  unfold classList_add_hidden.
  rewrite (bind_ok _ _ _ _ _ (setProp_ok "preview-sidebar" _ (set_vars v w) e He)).
  apply stopAnimation_no_sidebar. intros n b Hn. simpl. rewrite Hv. apply (Hheld n b Hn).
Qed.

Lemma no_sidebar_hide (v : Vars) (w : World) :
  no_sidebar_clock w ->
  no_sidebar_clock
    (final ((classList_add_hidden "preview-sidebar";; stopAnimation) (set_vars v w))).
Proof.
  intros H.
  assert (Hp : preserves no_sidebar_clock (classList_add_hidden "preview-sidebar";; stopAnimation))
    by (preserve assumption).
  apply Hp. exact H.
Qed.

Lemma sidebar_ok_hide_block :
  preserves sidebar_clock_ok
    (setv (set_previewSidebarVisible false);;
     classList_add_hidden "preview-sidebar";;
     stopAnimation).
Proof.
  intros w H. unfold setv. rewrite bind_modify. apply no_sidebar_ok.
  destruct (hide_sidebar_no_clock w (set_previewSidebarVisible false (vars w)) H eq_refl)
    as [Hn|Hn]; [exact Hn | apply no_sidebar_hide, Hn].
Qed.

Lemma no_sidebar_drawOn (s : Surface) (l : list DrawOp) :
  preserves no_sidebar_clock (drawOn s l).
Proof. preserve assumption. Qed.

Lemma sidebar_shown_drawOn (s : Surface) (l : list DrawOp) :
  preserves sidebar_shown (drawOn s l).
Proof. preserve assumption. Qed.

Lemma preserves_and (I J : World -> Prop) {A} (m : Exec A) :
  preserves I m -> preserves J m -> preserves (fun w => I w /\ J w) m.
Proof. intros HI HJ w [H1 H2]. split; [apply HI, H1 | apply HJ, H2]. Qed.

(** Starting the sidebar clock on a shown sidebar on which none runs. *)
Lemma startAnimation_sidebar_ok (w : World) :
  no_sidebar_clock w -> sidebar_shown w -> sidebar_clock_ok (final (startAnimation w)).
Proof.
  intros Hn Hs. unfold startAnimation.
  apply (final_bind_hoare (fun w => no_sidebar_clock w /\ sidebar_shown w)).
  - split; [apply no_sidebar_stopAnimation, Hn|].
    assert (Hp : preserves sidebar_shown stopAnimation) by (preserve assumption).
    apply Hp, Hs.
  - intros w' [H _]. apply no_sidebar_ok, H.
  - intros _ w1 [Hn1 Hs1]. unfold getElementById, getd. rewrite !bind_gets.
    match goal with |- context [if ?c then _ else _] => destruct c end;
      [apply no_sidebar_ok, Hn1|].
    apply (final_bind_hoare (fun w => no_sidebar_clock w /\ sidebar_shown w)).
    + assert (Hp : preserves (fun w => no_sidebar_clock w /\ sidebar_shown w)
                     (sidebarDraw (bool_decide (is_Some (elements (doc w1) !! "weapon-preview-canvas")))))
        by (apply preserves_and; preserve assumption).
      apply Hp. split; assumption.
    + intros w' [H _]. apply no_sidebar_ok, H.
    + intros _ w2 [Hn2 Hs2] m b. simpl. rewrite lookup_insert.
      destruct (decide (nextTimer (rt w2) = m)) as [<-|_].
      * intros _. split; [reflexivity | exact Hs2].
      * intros Hm. destruct (Hn2 m b Hm).
Qed.

Lemma sidebar_ok_togglePreviewPanel `{P : Platform} :
  preserves sidebar_clock_ok togglePreviewPanel.
Proof.
  intros w H. unfold togglePreviewPanel, setv, getv. rewrite bind_modify, bind_gets.
  cbn [vars set_vars previewSidebarVisible set_previewSidebarVisible].
  destruct (previewSidebarVisible (vars w)) eqn:Ev; cbn [negb].
  - apply no_sidebar_ok.
    destruct (hide_sidebar_no_clock w (set_previewSidebarVisible false (vars w)) H eq_refl)
      as [Hn|Hn]; [exact Hn | apply no_sidebar_hide, Hn].
  - assert (Hn : no_sidebar_clock w).
    { intros n b Hn. destruct (H n b Hn) as (_ & Hv & _). congruence. }
    match goal with |- sidebar_clock_ok (final (_ ?w1)) => set (w1' := w1) end.
    assert (Hn1 : no_sidebar_clock w1') by exact Hn.
    unfold classList_remove_hidden.
    destruct (elements (doc w1') !! "preview-sidebar") as [e|] eqn:E;
      [|rewrite (bind_throw _ _ _ _ (setProp_throw _ _ _ E)); apply no_sidebar_ok, Hn1].
    rewrite (bind_ok _ _ _ _ _ (setProp_ok _ _ _ _ E)).
    apply (final_bind_hoare (fun w => no_sidebar_clock w /\ sidebar_shown w)).
    + assert (Hp : preserves (fun w => no_sidebar_clock w /\ sidebar_shown w) loadPlayerSprite)
        by (apply preserves_and; preserve assumption).
      apply Hp. split; [exact Hn1|]. split; [reflexivity|].
      rewrite withElement_lookup, decide_True by reflexivity. reflexivity.
    + intros w' [Hw' _]. apply no_sidebar_ok, Hw'.
    + intros _ w2 H2.
      apply (final_bind_hoare (fun w => no_sidebar_clock w /\ sidebar_shown w)).
      * assert (Hp : preserves (fun w => no_sidebar_clock w /\ sidebar_shown w) loadCurrentSprites)
          by (apply preserves_and; preserve assumption).
        apply Hp, H2.
      * intros w' [Hw' _]. apply no_sidebar_ok, Hw'.
      * intros _ w3 [Hn3 Hs3]. apply startAnimation_sidebar_ok; assumption.
Qed.

Lemma sidebar_ok_drawOn (s : Surface) (l : list DrawOp) :
  preserves sidebar_clock_ok (drawOn s l).
Proof. preserve assumption. Qed.

Lemma sidebar_ok_sidebarDraw (b : bool) : preserves sidebar_clock_ok (sidebarDraw b).
Proof. preserve assumption. Qed.

Lemma sidebar_ok_onTick (n : positive) : preserves sidebar_clock_ok (onTick n).
Proof.
  intros w H. unfold onTick, getr. rewrite bind_gets.
  destruct (timers (rt w) !! n) as [t|] eqn:E; [|exact H].
  destruct t as [ctx i f d|b|f d]; cbv beta iota.
  - unfold setr. rewrite bind_modify. apply sidebar_ok_drawOn.
    intros m b. simpl. rewrite lookup_insert.
    destruct (decide (n = m)); [discriminate | apply H].
  - unfold setv. rewrite bind_modify. apply sidebar_ok_sidebarDraw. exact H.
  - unfold setr. rewrite bind_modify, bind_gets. apply sidebar_ok_drawOn.
    intros m b. simpl. rewrite lookup_insert.
    destruct (decide (n = m)); [discriminate | apply H].
Qed.

#[local] Hint Resolve sidebar_ok_stopAnimation sidebar_ok_hide_block
  sidebar_ok_togglePreviewPanel sidebar_ok_onTick : pres.

Lemma sidebar_ok_handle `{P : Platform} (e : Event) : preserves sidebar_clock_ok (handle e).
Proof. destruct e; simpl; preserve assumption. Qed.

Lemma editor_held_run `{P : Platform} (es : list Event) (w : World) :
  editor_clock_held w -> editor_clock_held (run w es).
Proof.
  revert w. induction es as [|e es IH]; intros w Hw; simpl; [exact Hw|].
  apply IH, editor_held_handle, Hw.
Qed.

Lemma sidebar_ok_run `{P : Platform} (es : list Event) (w : World) :
  sidebar_clock_ok w -> sidebar_clock_ok (run w es).
Proof.
  revert w. induction es as [|e es IH]; intros w Hw; simpl; [exact Hw|].
  apply IH, sidebar_ok_handle, Hw.
Qed.

(** X1.  After any sequence of events on any page, at most one timer drives
    the preview of the form and at most one drives the preview of the
    sidebar, and each is the timer whose id the script holds, in
    [editorPreviewAnimation] and in [animationInterval]: [startEditorPreview]
    and [startAnimation] stop the old timer before they start a new one. *)
Theorem one_clock_per_preview `{P : Platform} (d : Doc) (es : list Event) (n m : positive) :
  let w := run (initWorld d) es in
  (forall f dir f' dir',
     timers (rt w) !! n = Some (EditorTicker f dir) ->
     timers (rt w) !! m = Some (EditorTicker f' dir') ->
     n = m /\ editorPreviewAnimation (vars w) = Some n) /\
  (forall b b',
     timers (rt w) !! n = Some (SidebarTicker b) ->
     timers (rt w) !! m = Some (SidebarTicker b') ->
     n = m /\ animationInterval (vars w) = Some n).
Proof.
  intros w. split.
  - assert (H : editor_clock_held w).
    { apply editor_held_run. intros k f dd E. simpl in E. rewrite lookup_empty in E. discriminate. }
    intros f dir f' dir' Hn Hm. pose proof (H _ _ _ Hn) as E1. pose proof (H _ _ _ Hm) as E2.
    split; [congruence | exact E1].
  - assert (H : sidebar_clock_ok w).
    { apply sidebar_ok_run. intros k b E. simpl in E. rewrite lookup_empty in E. discriminate. }
    intros b b' Hn Hm. destruct (H _ _ Hn) as [E1 _]. destruct (H _ _ Hm) as [E2 _].
    split; [congruence | exact E1].
Qed.

(** X2.  After any sequence of events on any page, a timer of the sidebar
    preview is live only while the sidebar is open: [previewSidebarVisible]
    is true and the element [preview-sidebar] is on the page without the
    class [hidden]. *)
Theorem sidebar_clock_only_while_shown `{P : Platform}
    (d : Doc) (es : list Event) (n : positive) (b : bool) :
  let w := run (initWorld d) es in
  timers (rt w) !! n = Some (SidebarTicker b) ->
  previewSidebarVisible (vars w) = true /\
  hidden <$> elements (doc w) !! "preview-sidebar" = Some false.
Proof.
  intros w Hn.
  assert (H : sidebar_clock_ok w).
  { apply sidebar_ok_run. intros k b' E. simpl in E. rewrite lookup_empty in E. discriminate. }
  destruct (H _ _ Hn) as [_ Hs]. exact Hs.
Qed.

Lemma sidebar_clock_only_while_shown_witness :
  timers (rt (@run ascii_platform (initWorld samplePage) [TogglePreviewPanel])) !! 1%positive
    = Some (SidebarTicker true) /\
  previewSidebarVisible (vars (@run ascii_platform (initWorld samplePage) [TogglePreviewPanel]))
    = true /\
  hidden <$> elements (doc (@run ascii_platform (initWorld samplePage) [TogglePreviewPanel]))
               !! "preview-sidebar" = Some false.
Proof.
  assert (H : timers (rt (@run ascii_platform (initWorld samplePage) [TogglePreviewPanel]))
                !! 1%positive = Some (SidebarTicker true)) by (vm_compute; reflexivity).
  split; [exact H|].
  exact (@sidebar_clock_only_while_shown ascii_platform samplePage [TogglePreviewPanel] 1 true H).
Defined.

(** *** Source rectangles *)

Lemma cell_ok_source (image : Image) (c : Cursor) (dx dy dw dh : JSNum) :
  cursor_ok c ->
  cell_ok (DrawImage image (sx_of c.1) (sy_of c.2) frameSize frameSize dx dy dw dh).
Proof.
  destruct c as [f d]. intros [Hf Hd]. simpl in *.
  split; [reflexivity|]. split; [reflexivity|]. split.
  - exists f. split; [lia|]. unfold sx_of. rewrite Z.rem_small by lia. reflexivity.
  - exists d. split; [lia | reflexivity].
Qed.

Ltac cells Hc :=
  repeat first [ apply Forall_nil_2 | apply Forall_cons_2 ];
  first [ exact Logic.I | apply cell_ok_source, Hc
        | apply (cell_ok_source _ (_, _)), Hc ].

Lemma cells_thumbDraw (image : Image) (c : Cursor) :
  cursor_ok c -> Forall cell_ok (thumbDraw image c).
Proof. intros Hc. unfold thumbDraw. cells Hc. Qed.

Lemma cells_editorDraw (v : Vars) (c : Cursor) :
  cursor_ok c -> Forall cell_ok (editorDraw v c).
Proof.
  intros Hc. unfold editorDraw.
  destruct (currentSpriteImage v); [destruct (currentWeaponImage v)|]; cells Hc.
Qed.

Lemma cells_sidebarDraw_enemy (v : Vars) :
  cursor_ok (animationFrame v, animationDirection v) -> Forall cell_ok (sidebarDraw_enemy v).
Proof.
  intros Hc. unfold sidebarDraw_enemy.
  destruct (currentSpriteImage v); cells Hc.
Qed.

Lemma cells_sidebarDraw_player (v : Vars) :
  cursor_ok (animationFrame v, animationDirection v) -> Forall cell_ok (sidebarDraw_player v).
Proof.
  intros Hc. unfold sidebarDraw_player.
  destruct (playerSpriteImage v); cells Hc.
Qed.

Lemma cells_sidebarDraw_weapon (v : Vars) :
  cursor_ok (animationFrame v, animationDirection v) -> Forall cell_ok (sidebarDraw_weapon v).
Proof.
  intros Hc. unfold sidebarDraw_weapon.
  destruct (currentSpriteImage v); [destruct (currentWeaponImage v)|]; cells Hc.
Qed.

Lemma surfaceOps_frame (w : World) (id : string) (e e' : Element) (s : Surface) :
  elements (doc w) !! id = Some e -> ops_kept_at id e e' ->
  surfaceOps (withElement id e' w) s = surfaceOps w s.
Proof.
  unfold ops_kept_at. intros E He. destruct s as [id'|n]; [|reflexivity].
  unfold surfaceOps. rewrite withElement_lookup.
  destruct (decide (id = id')) as [<-|_]; [|reflexivity].
  simpl. rewrite He, E. reflexivity.
Qed.

Lemma draws_ok_frame (w0 w : World) (id : string) (e e' : Element) :
  elements (doc w) !! id = Some e -> ops_kept_at id e e' ->
  draws_ok w0 w -> draws_ok w0 (withElement id e' w).
Proof.
  intros E He H s. rewrite (surfaceOps_frame w id e e' s E He). apply H.
Qed.

Ltac ops_kept :=
  intros ?; unfold ops_kept_at, assign_value, assign_options; repeat case_match; reflexivity.

#[local] Hint Extern 1 (preserves (draws_ok _) (setProp _ _)) =>
  apply (frame_setProp _ _ (draws_ok_frame _)); ops_kept : pres.
#[local] Hint Extern 1 (preserves (draws_ok _) (setPropIfPresent _ (set_value _))) =>
  apply (frame_setPropIfPresent _ _ (draws_ok_frame _)); ops_kept : pres.
#[local] Hint Extern 1 (preserves (draws_ok _) (setPropIfPresent _ (set_display _))) =>
  apply (frame_setPropIfPresent _ _ (draws_ok_frame _)); ops_kept : pres.
#[local] Hint Extern 1 (preserves (draws_ok _) (setPropIfPresent _ (set_textContent _))) =>
  apply (frame_setPropIfPresent _ _ (draws_ok_frame _)); ops_kept : pres.
#[local] Hint Extern 1 (preserves (draws_ok _) (setPropIfPresent _ (assign_value _))) =>
  apply (frame_setPropIfPresent _ _ (draws_ok_frame _)); ops_kept : pres.

Lemma draws_ok_drawOn (w0 : World) (s : Surface) (l : list DrawOp) :
  Forall cell_ok l -> preserves (draws_ok w0) (drawOn s l).
Proof.
  intros Hl w H s'. destruct (H s') as (l0 & H0 & Hc0).
  destruct (surfaceOps_drawOn_any s s' l w) as (l' & H' & Hl').
  exists (l0 ++ l'). split.
  - rewrite H', H0. symmetry. apply app_assoc.
  - apply Forall_app. split; [exact Hc0|].
    destruct Hl' as [->| ->]; [apply Forall_nil_2 | exact Hl].
Qed.

Lemma cells_fill (style : string) (x y a b : Z) : Forall cell_ok [FillRect style x y a b].
Proof. apply Forall_cons_2; [exact Logic.I | apply Forall_nil_2]. Qed.

Lemma cells_thumb_start (image : Image) : Forall cell_ok (thumbDraw image (0, 0)).
Proof. apply cells_thumbDraw. unfold cursor_ok. simpl. lia. Qed.

Lemma cells_editor_start (v : Vars) : Forall cell_ok (editorDraw v (0, 0)).
Proof. apply cells_editorDraw. unfold cursor_ok. simpl. lia. Qed.

#[local] Hint Resolve draws_ok_drawOn cells_fill cells_thumb_start cells_editor_start : pres.

Lemma cells_of_preserves (w0 : World) {A} (m : Exec A) :
  preserves cursors_ok m -> preserves (draws_ok w0) m -> preserves (drawn_in_cells w0) m.
Proof. intros H1 H2. apply preserves_and; assumption. Qed.

Lemma cells_sidebarDraw (w0 : World) (b : bool) : preserves (drawn_in_cells w0) (sidebarDraw b).
Proof.
  intros w [Hc Hd]. split; [apply cursors_ok_sidebarDraw, Hc|].
  destruct Hc as [Hc _]. unfold sidebarDraw. rewrite bind_gets. revert w Hd Hc.
  intros w Hd Hc.
  assert (Hp : preserves (draws_ok w0)
    (drawOn (StaticCanvas "enemy-canvas") (sidebarDraw_enemy (vars w));;
     drawOn (StaticCanvas "player-canvas") (sidebarDraw_player (vars w));;
     when b (drawOn (StaticCanvas "weapon-preview-canvas") (sidebarDraw_weapon (vars w))))).
  { pose proof (cells_sidebarDraw_enemy _ Hc). pose proof (cells_sidebarDraw_player _ Hc).
    pose proof (cells_sidebarDraw_weapon _ Hc). preserve assumption. }
  apply Hp, Hd.
Qed.

Lemma cells_frame (w0 w : World) (id : string) (e e' : Element) :
  elements (doc w) !! id = Some e -> ops_kept_at id e e' ->
  drawn_in_cells w0 w -> drawn_in_cells w0 (withElement id e' w).
Proof. intros E He [Hc Hd]. split; [exact Hc | exact (draws_ok_frame w0 w id e e' E He Hd)]. Qed.

#[local] Hint Extern 1 (preserves (drawn_in_cells _) (setProp _ _)) =>
  apply (frame_setProp _ _ (cells_frame _)); ops_kept : pres.
#[local] Hint Extern 1 (preserves (drawn_in_cells _) (setPropIfPresent _ (set_value _))) =>
  apply (frame_setPropIfPresent _ _ (cells_frame _)); ops_kept : pres.
#[local] Hint Extern 1 (preserves (drawn_in_cells _) (setPropIfPresent _ (set_display _))) =>
  apply (frame_setPropIfPresent _ _ (cells_frame _)); ops_kept : pres.
#[local] Hint Extern 1 (preserves (drawn_in_cells _) (setPropIfPresent _ (set_textContent _))) =>
  apply (frame_setPropIfPresent _ _ (cells_frame _)); ops_kept : pres.
#[local] Hint Extern 1 (preserves (drawn_in_cells _) (setPropIfPresent _ (assign_value _))) =>
  apply (frame_setPropIfPresent _ _ (cells_frame _)); ops_kept : pres.

Lemma cells_clearInterval (w0 : World) (n : positive) :
  preserves (drawn_in_cells w0) (clearInterval n).
Proof. apply cells_of_preserves; [apply cursors_ok_clearInterval | preserve assumption]. Qed.

Lemma cells_setInterval (w0 : World) (t : Ticker) :
  ticker_ok t -> preserves (drawn_in_cells w0) (setInterval t).
Proof.
  intros Ht. apply cells_of_preserves; [apply cursors_ok_setInterval_pres, Ht|].
  preserve assumption.
Qed.

Lemma cells_drawOn (w0 : World) (s : Surface) (l : list DrawOp) :
  Forall cell_ok l -> preserves (drawn_in_cells w0) (drawOn s l).
Proof.
  intros Hl. apply cells_of_preserves; [apply cursors_ok_drawOn | apply draws_ok_drawOn, Hl].
Qed.

Lemma cells_prevDirection (w0 : World) : preserves (drawn_in_cells w0) prevDirection.
Proof. apply cells_of_preserves; [apply cursors_ok_prevDirection | preserve assumption]. Qed.

Lemma cells_nextDirection (w0 : World) : preserves (drawn_in_cells w0) nextDirection.
Proof. apply cells_of_preserves; [apply cursors_ok_nextDirection | preserve assumption]. Qed.

Lemma cells_onTick (w0 : World) (n : positive) : preserves (drawn_in_cells w0) (onTick n).
Proof.
  intros w [Hc Hd]. split; [apply cursors_ok_onTick, Hc|].
  unfold onTick, getr. rewrite bind_gets.
  destruct (timers (rt w) !! n) as [t|] eqn:E; [|exact Hd].
  pose proof (proj2 Hc n t E) as Ht.
  destruct t as [ctx image f d|b|f d]; cbv beta iota.
  - unfold setr. rewrite bind_modify.
    apply draws_ok_drawOn; [|exact Hd].
    apply cells_thumbDraw, (tick_ok ThumbClock (f, d)), Ht.
  - unfold setv. rewrite bind_modify. apply cells_sidebarDraw.
    split; [|exact Hd]. split; [|exact (proj2 Hc)].
    exact (tick_ok SidebarClock _ (proj1 Hc)).
  - unfold setr. rewrite bind_modify, bind_gets.
    apply draws_ok_drawOn; [|exact Hd].
    apply cells_editorDraw, (tick_ok EditorClock (f, d)), Ht.
Qed.

#[local] Hint Resolve cells_clearInterval cells_setInterval cells_drawOn
  cells_prevDirection cells_nextDirection cells_sidebarDraw cells_onTick : pres.

Lemma cells_handle `{P : Platform} (w0 : World) (e : Event) :
  preserves (drawn_in_cells w0) (handle e).
Proof. destruct e; simpl; preserve assumption. Qed.

Lemma cells_run `{P : Platform} (w0 : World) (es : list Event) (w : World) :
  drawn_in_cells w0 w -> drawn_in_cells w0 (run w es).
Proof.
  revert w. induction es as [|e es IH]; intros w Hw; simpl; [exact Hw|].
  apply IH, cells_handle, Hw.
Qed.

(** X3.  Whatever the events, every [drawImage] call that any canvas has
    received since the page was loaded reads exactly one cell of the sprite
    sheet: 256 by 256 pixels, at a column from 0 to 3 and a row from 0 to
    7. *)
Theorem every_frame_is_one_cell `{P : Platform} (d : Doc) (es : list Event) (s : Surface) :
  exists drawn,
    surfaceOps (run (initWorld d) es) s = surfaceOps (initWorld d) s ++ drawn /\
    forall image sx sy sw sh dx dy dw dh,
      DrawImage image sx sy sw sh dx dy dw dh ∈ drawn ->
      sw = 256 /\ sh = 256 /\
      (exists col, 0 <= col <= 3 /\ sx = col * 256) /\
      (exists row, 0 <= row <= 7 /\ sy = row * 256).
Proof.
  assert (H : drawn_in_cells (initWorld d) (run (initWorld d) es)).
  { apply cells_run. split; [apply cursors_ok_init|].
    intros s0. exists []. split; [symmetry; apply app_nil_r | apply Forall_nil_2]. }
  destruct (proj2 H s) as (l & Hl & Hc). exists l. split; [exact Hl|].
  intros image sx sy sw sh dx dy dw dh Hop.
  rewrite Forall_forall in Hc. exact (Hc _ Hop).
Qed.

(** ** On a complete page no handler throws *)

Section Completion.

Variable I : World -> Prop.

Lemma completes_ret {A} (a : A) : completes I (mret a).
Proof. intros w H. exists a, w. split; [reflexivity | exact H]. Qed.

Lemma completes_bind {A B} (m : Exec A) (k : A -> Exec B) :
  completes I m -> (forall a, completes I (k a)) -> completes I (m ≫= k).
Proof.
  intros Hm Hk w H. destruct (Hm w H) as (a & w1 & E1 & H1).
  destruct (Hk a w1 H1) as (b & w2 & E2 & H2).
  exists b, w2. split; [|exact H2]. rewrite (bind_ok _ _ _ _ _ E1). exact E2.
Qed.

Lemma completes_try_catch (m h : Exec unit) :
  completes I m -> completes I (try_catch m h).
Proof.
  intros Hm w H. destruct (Hm w H) as (a & w1 & E1 & H1).
  exists a, w1. split; [|exact H1]. unfold try_catch. rewrite E1. reflexivity.
Qed.

Lemma completes_gets {A} (f : World -> A) : completes I (gets f).
Proof. intros w H. exists (f w), w. split; [reflexivity | exact H]. Qed.

Lemma completes_modify (f : World -> World) :
  (forall w, I w -> I (f w)) -> completes I (modify f).
Proof. intros Hf w H. exists tt, (f w). split; [reflexivity | apply Hf, H]. Qed.

Lemma completes_when (c : bool) (m : Exec unit) :
  completes I m -> completes I (when c m).
Proof. intros Hm. destruct c; [exact Hm | apply completes_ret]. Qed.

Lemma completes_forEach {A} (f : A -> Exec unit) (l : list A) :
  (forall a, completes I (f a)) -> completes I (forEach f l).
Proof.
  intros Hf. induction l as [|a l IH]; simpl.
  - apply completes_ret.
  - apply completes_bind; [apply Hf | intros _; exact IH].
Qed.

Lemma completes_preserves {A} (m : Exec A) : completes I m -> preserves I m.
Proof. intros Hm w H. destruct (Hm w H) as (a & w' & E & H'). rewrite E. exact H'. Qed.

End Completion.

Create HintDb comp.

Ltac complete_step tac :=
  lazymatch goal with
  | |- completes _ (mbind _ _) => apply completes_bind; [|intros ?]
  | |- completes _ (mret _) => apply completes_ret
  | |- completes _ (ret _) => apply completes_ret
  | |- completes _ (try_catch _ _) => apply completes_try_catch
  | |- completes _ (when _ _) => apply completes_when
  | |- completes _ (forEach _ _) => apply completes_forEach; intros ?
  | |- completes _ (gets _) => apply completes_gets
  | |- completes _ (modify _) => apply completes_modify; intros ? ?; tac
  | |- completes _ (match ?x with _ => _ end) => destruct x
  | |- completes _ (let _ := _ in _) => cbv zeta
  | |- completes _ throw => fail
  | |- completes _ (deref _) => fail
  | |- completes _ ?m => let h := head_of m in unfold h
  end.

Ltac complete tac :=
  repeat first [ solve [auto with comp] | complete_step tac ].

Lemma page_with_insert (R : list string) (w : World) (id : string) (e : Element) :
  page_with R w ->
  page_with R (set_doc (set_elements (<[id := e]> (elements (doc w))) (doc w)) w).
Proof.
  intros [(He & Hm & Hc) HR]. split; [|exact HR]. split; [|split; assumption].
  intros i Hi. simpl. rewrite lookup_insert. destruct (decide (id = i)); [eauto | apply He, Hi].
Qed.

Lemma page_with_check (R : list string) (w : World) (v : string) :
  page_with R w -> page_with R (set_doc (set_radioChecked (Some v) (doc w)) w).
Proof.
  intros [(He & Hm & Hc) HR]. split; [|exact HR]. split; [exact He|]. split; [exact Hm|].
  simpl. eauto.
Qed.

Ltac page_leaf :=
  first [ assumption
        | apply page_with_insert; assumption
        | apply page_with_check; assumption ].

Lemma page_getElement (R : list string) (id : string) :
  id ∈ requiredIds -> completes (page_with R) (getElementById id ≫= deref).
Proof.
  intros Hid w H. destruct H as [(He & Hm & Hc) HR].
  destruct (He id Hid) as [e E]. exists e, w.
  split; [|exact (conj (conj He (conj Hm Hc)) HR)].
  unfold getElementById, getd. rewrite bind_gets, E. reflexivity.
Qed.

Lemma page_getProp (R : list string) {A} (id : string) (prop : Element -> A) :
  id ∈ requiredIds -> completes (page_with R) (getProp id prop).
Proof.
  intros Hid. unfold getProp. apply completes_bind; [apply page_getElement, Hid|].
  intros e. apply completes_ret.
Qed.

Lemma page_setProp (R : list string) (id : string) (f : Element -> Element) :
  id ∈ requiredIds -> completes (page_with R) (setProp id f).
Proof.
  intros Hid. unfold setProp. apply completes_bind; [apply page_getElement, Hid|].
  intros e. apply completes_modify. intros w H. apply page_with_insert, H.
Qed.

Lemma page_checkedRadio (R : list string) : completes (page_with R) checkedRadio.
Proof.
  intros w H. destruct H as [(He & Hm & [v Hc]) HR]. exists v, w.
  split; [|exact (conj (conj He (conj Hm (ex_intro _ v Hc))) HR)].
  unfold checkedRadio, getd. rewrite bind_gets, Hc. reflexivity.
Qed.

Lemma page_checkRadio (R : list string) (v : string) :
  v ∈ R -> completes (page_with R) (checkRadio v).
Proof.
  intros Hv w H. exists tt, (set_doc (set_radioChecked (Some v) (doc w)) w).
  split; [|apply page_with_check, H].
  unfold checkRadio, getd. rewrite bind_gets. destruct H as [_ HR]. rewrite HR.
  rewrite bool_decide_eq_true_2 by exact Hv. reflexivity.
Qed.

Ltac in_required := unfold requiredIds; in_list.

#[local] Hint Extern 1 (completes (page_with _) (getElementById _ ≫= deref)) =>
  apply page_getElement; in_required : comp.
#[local] Hint Extern 1 (completes (page_with _) (getProp _ _)) =>
  apply page_getProp; in_required : comp.
#[local] Hint Extern 1 (completes (page_with _) (setProp _ _)) =>
  apply page_setProp; in_required : comp.
#[local] Hint Resolve page_checkedRadio page_checkRadio : comp.

Section PageComplete.

Context `{P : Platform}.
Variable R : list string.
Hypothesis melee : "melee" ∈ R.

Lemma page_handle_other (e : Event) :
  (forall id, e <> SelectEnemy id) -> completes (page_with R) (handle e).
Proof.
  intros He. destruct e; simpl; try (destruct (He _ eq_refl)); complete page_leaf.
Qed.

Lemma page_selectEnemy (id : string) (w : World) :
  match lookupEnemy id (enemyTypes (vars w)) with
  | Some enemy => str_or (attack_type enemy) "melee" ∈ R
  | None => True
  end ->
  page_with R w -> exists w', selectEnemy id w = Ok tt w' /\ page_with R w'.
Proof.
  intros Ha H. unfold selectEnemy, setv, getv. rewrite bind_modify, bind_gets.
  cbn [vars set_vars enemyTypes set_currentEnemyId].
  destruct (lookupEnemy id (enemyTypes (vars w))) as [enemy|].
  - match goal with |- exists w', ?m ?w1 = _ /\ _ =>
      assert (Hm : completes (page_with R) m) by (complete page_leaf);
      destruct (Hm w1 H) as ([] & w' & E & H')
    end.
    exists w'. split; [exact E | exact H'].
  - eexists. split; [reflexivity | exact H].
Qed.

End PageComplete.

Ltac page_by_evaluation :=
  split;
    [ intros id Hid; unfold requiredIds in Hid;
      repeat (apply elem_of_cons in Hid as [->|Hid]; [vm_compute; eauto|]);
      apply elem_of_nil in Hid; destruct Hid
    | split; [vm_compute; in_list | vm_compute; eauto] ].

Ltac inputs_by_evaluation :=
  let id := fresh "id" in
  let Hid := fresh "Hid" in
  intros id Hid; unfold formInputs in Hid;
  repeat (apply elem_of_cons in Hid as [->|Hid];
          [intros ? E; vm_compute in E; injection E as <-; reflexivity|]);
  apply elem_of_nil in Hid; destruct Hid.

Lemma samplePage_complete : page_complete (initWorld samplePage).
Proof. page_by_evaluation. Qed.

Lemma listWorld_complete : page_complete listWorld.
Proof. page_by_evaluation. Qed.



(** ** The enemy list mirrors the store *)

Lemma find_app_last {A} (f : A -> bool) (l : list A) (x : A) :
  f x = true -> exists y, List.find f (l ++ [x]) = Some y.
Proof.
  intros Hx. induction l as [|a l IH]; simpl.
  - rewrite Hx. eauto.
  - destruct (f a); [eauto | exact IH].
Qed.

Lemma renderEnemyItem_returns (entry : string * EnemyRecord) (w : World) :
  exists w',
    renderEnemyItem entry w = Ok tt w' /\
    enemyListItems (doc w') =
      enemyListItems (doc w) ++ [listItemOf (currentEnemyId (vars w)) (nextNode (rt w)) entry] /\
    nextNode (rt w') = S (nextNode (rt w)) /\
    vars w' = vars w /\
    elements (doc w') = elements (doc w) /\
    spriteListItems (doc w') = spriteListItems (doc w) /\
    textureListItems (doc w') = textureListItems (doc w) /\
    toasts (doc w') = toasts (doc w) /\
    timers (rt w') = timers (rt w).
Proof.
  destruct entry as [id enemy].
  unfold renderEnemyItem, getv, getr, setr, setd.
  rewrite bind_gets, bind_gets, bind_modify, bind_modify.
  match goal with |- context [(if _ then _ else _) ?w1] => set (w1' := w1) end.
  destruct (str_truthy (sprite_path enemy)).
  - eexists. split; [reflexivity|]. repeat split.
  - unfold getCanvasById, getd. rewrite bind_gets.
    assert (Hfind : exists n, findCanvas (doc w1') ("enemy-preview-" +:+ id) = Some (ListCanvas n)).
    { unfold findCanvas.
      change (enemyListItems (doc w1')) with
        (enemyListItems (doc w) ++ [listItemOf (currentEnemyId (vars w)) (nextNode (rt w)) (id, enemy)]).
      destruct (find_app_last
                  (fun it => bool_decide (item_canvasId it = "enemy-preview-" +:+ id))
                  (enemyListItems (doc w))
                  (listItemOf (currentEnemyId (vars w)) (nextNode (rt w)) (id, enemy)))
        as [y Hy].
      { apply bool_decide_eq_true_2. reflexivity. }
      rewrite Hy. eauto. }
    destruct Hfind as [n Hn]. rewrite Hn.
    eexists. split; [reflexivity|]. repeat split.
Qed.

Lemma imap_shift {A B} (f : nat -> A -> B) (n : nat) (l : list A) :
  imap (fun i => f (S n + i)%nat) l = imap ((fun i => f (n + i)%nat) ∘ S) l.
Proof. apply imap_ext. intros i x _. simpl. f_equal. lia. Qed.

Lemma renderEnemyItems_returns (entries : list (string * EnemyRecord)) (w : World) :
  exists w',
    forEach renderEnemyItem entries w = Ok tt w' /\
    enemyListItems (doc w') =
      enemyListItems (doc w) ++
      imap (fun i => listItemOf (currentEnemyId (vars w)) (nextNode (rt w) + i)) entries /\
    nextNode (rt w') = (nextNode (rt w) + length entries)%nat /\
    vars w' = vars w /\
    elements (doc w') = elements (doc w) /\
    spriteListItems (doc w') = spriteListItems (doc w) /\
    textureListItems (doc w') = textureListItems (doc w) /\
    toasts (doc w') = toasts (doc w) /\
    timers (rt w') = timers (rt w).
Proof.
  revert w. induction entries as [|entry entries IH]; intros w.
  - exists w. split; [reflexivity|]. simpl. rewrite app_nil_r, Nat.add_0_r. repeat split.
  - destruct (renderEnemyItem_returns entry w)
      as (w1 & E1 & Hi1 & Hn1 & Hv1 & He1 & Hs1 & Ht1 & Ho1 & Hm1).
    destruct (IH w1) as (w2 & E2 & Hi2 & Hn2 & Hv2 & He2 & Hs2 & Ht2 & Ho2 & Hm2).
    exists w2. split; [cbn [forEach]; rewrite (bind_ok _ _ _ _ _ E1); exact E2|].
    split; [|repeat split; congruence || (simpl; lia)].
    rewrite Hi2, Hi1, Hv1, Hn1, <- app_assoc. f_equal. simpl.
    rewrite Nat.add_0_r. f_equal.
    apply (imap_shift (fun k => listItemOf (currentEnemyId (vars w)) k)).
Qed.

Lemma getElement_ok (id : string) (w : World) (e : Element) :
  elements (doc w) !! id = Some e -> (getElementById id ≫= deref) w = Ok e w.
Proof. intros H. unfold getElementById, getd. rewrite bind_gets, H. reflexivity. Qed.


Lemma clear_all_returns (l : list ListAnim) (w : World) :
  exists w',
    forEach (fun anim => clearInterval (interval anim)) l w = Ok tt w' /\
    vars w' = vars w /\ doc w' = doc w /\ nextNode (rt w') = nextNode (rt w).
Proof.
  revert w. induction l as [|a l IH]; intros w.
  - exists w. repeat split.
  - cbn [forEach].
    change ((clearInterval (interval a) ≫= fun _ => forEach (fun anim => clearInterval (interval anim)) l) w)
      with (forEach (fun anim => clearInterval (interval anim)) l
              (set_rt (set_timers (delete (interval a) (timers (rt w))) (rt w)) w)).
    destruct (IH (set_rt (set_timers (delete (interval a) (timers (rt w))) (rt w)) w))
      as (w' & E & Hv & Hd & Hn).
    exists w'. repeat split; assumption.
Qed.

Lemma imap_fmap_const {A B C} (f : nat -> A -> B) (g : B -> C) (h : A -> C) (l : list A) :
  (forall i x, g (f i x) = h x) -> g <$> imap f l = h <$> l.
Proof.
  revert f. induction l as [|x l IH]; intros f Hf; simpl; [reflexivity|].
  rewrite Hf. f_equal. apply IH. intros i y. apply Hf.
Qed.


Lemma renderEnemyList_returns (w : World) (e : Element) :
  elements (doc w) !! "enemy-list" = Some e ->
  exists w',
    renderEnemyList w = Ok tt w' /\
    enemyListItems (doc w') =
      imap (fun i => listItemOf (currentEnemyId (vars w)) (nextNode (rt w) + i))
           (enemyTypes (vars w)) /\
    vars w' = set_enemyListAnimations ∅ (vars w) /\
    elements (doc w') = elements (doc w) /\
    spriteListItems (doc w') = spriteListItems (doc w) /\
    textureListItems (doc w') = textureListItems (doc w) /\
    toasts (doc w') = toasts (doc w).
Proof.
  intros He. unfold renderEnemyList, getv. rewrite bind_gets.
  destruct (clear_all_returns (map_to_list (enemyListAnimations (vars w))).*2 w)
    as (w1 & E1 & Hv1 & Hd1 & Hn1).
  rewrite (bind_ok _ _ _ _ _ E1). unfold setv. rewrite bind_modify.
  match goal with |- context [(_ ≫= ?k) ?w2] => set (w2' := w2) end.
  assert (Hd2 : elements (doc w2') !! "enemy-list" = Some e)
    by (unfold w2'; simpl; rewrite Hd1; exact He).
  rewrite (bind_ok _ _ _ _ _ (getElement_ok _ _ _ Hd2)). unfold w2'.
  unfold setd. rewrite bind_modify, bind_gets.
  match goal with |- context [forEach renderEnemyItem ?l ?w3] =>
    destruct (renderEnemyItems_returns l w3)
      as (w' & E & Hi & Hn & Hv & Hel & Hsp & Htx & Hto & _)
  end.
  exists w'. split; [exact E|].
  cbn [vars doc rt set_vars set_doc enemyListItems set_enemyListItems enemyTypes
       set_enemyListAnimations currentEnemyId app elements spriteListItems textureListItems
       toasts] in Hi, Hn, Hv, Hel, Hsp, Htx, Hto.
  rewrite Hv1, Hn1 in Hi. rewrite Hv1 in Hv. rewrite Hd1 in Hel, Hsp, Htx, Hto.
  repeat split; assumption.
Qed.


(** ** Loading the data *)

Lemma try_catch_cases (m h : Exec unit) (w : World) :
  (exists w', m w = Ok tt w' /\ try_catch m h w = Ok tt w') \/
  (exists w', m w = Throw w' /\ try_catch m h w = h w').
Proof.
  unfold try_catch. destruct (m w) as [[] w'|w']; [left | right]; eauto.
Qed.

Lemma toasts_loadData_body `{P : Platform} (t : list (string * string)) (v : list string) :
  preserves (fun w => toasts (doc w) = t)
    (setv (set_availableTextures v);;
     renderEnemyList;; renderSpriteList;; renderTextureList;; updateSpriteSelects).
Proof. preserve assumption. Qed.

Lemma store_loadData_body `{P : Platform}
    (x : list (string * EnemyRecord) * list string * list string) (v : list string) :
  preserves (fun w => (enemyTypes (vars w), availableSprites (vars w), availableWeapons (vars w)) = x)
    (setv (set_availableTextures v);;
     renderEnemyList;; renderSpriteList;; renderTextureList;; updateSpriteSelects).
Proof. preserve assumption. Qed.

Lemma textures_loadData_body `{P : Platform} (v : list string) :
  preserves (fun w => availableTextures (vars w) = v)
    (renderEnemyList;; renderSpriteList;; renderTextureList;; updateSpriteSelects).
Proof. preserve assumption. Qed.

(** X6.  [loadData], whatever the backend answers and whatever the page
    lacks: both of its steps return, the four stores hold what was answered
    (the empty list for a missing field and for a failed textures request),
    and the only toast it can add is the one that reports a loading
    error, at most once. *)
Theorem loadData_reports_failures `{P : Platform}
    (data : EnemyTypesData) (r : option (option (list string))) (w : World) :
  let w' := run w [EnemyTypesFetched data; TexturesFetched r KNone] in
  returns (handle (EnemyTypesFetched data) w) = true /\
  returns (handle (TexturesFetched r KNone) (step w (EnemyTypesFetched data))) = true /\
  enemyTypes (vars w') = default [] (enemy_types data) /\
  availableSprites (vars w') = default [] (available_sprites data) /\
  availableWeapons (vars w') = default [] (available_weapons data) /\
  availableTextures (vars w') = match r with Some t => default [] t | None => [] end /\
  (toasts (doc w') = toasts (doc w) \/
   toasts (doc w') = toasts (doc w) ++ [("Ошибка загрузки данных", "error")]).
Proof.
  cbv zeta. split; [reflexivity|].
  unfold run. cbn [foldl]. set (w1 := step w (EnemyTypesFetched data)).
  assert (Hstore : (enemyTypes (vars w1), availableSprites (vars w1), availableWeapons (vars w1))
                   = (default [] (enemy_types data), default [] (available_sprites data),
                      default [] (available_weapons data))) by reflexivity.
  assert (Htoasts : toasts (doc w1) = toasts (doc w)) by reflexivity.
  clearbody w1. unfold step. cbn [handle after_loadData].
  unfold loadData_textures.
  set (v := match r with Some t => default [] t | None => [] end).
  pose proof (toasts_loadData_body _ v w1 eq_refl) as Ht.
  pose proof (store_loadData_body _ v w1 Hstore) as Hs.
  assert (Hv : availableTextures
                 (vars (final ((setv (set_availableTextures v);;
                                renderEnemyList;; renderSpriteList;; renderTextureList;;
                                updateSpriteSelects) w1))) = v).
  { unfold setv at 1. rewrite bind_modify. apply textures_loadData_body. reflexivity. }
  match goal with |- context [try_catch ?m ?h] =>
    destruct (try_catch_cases m h w1) as [(w2 & Eb & Et)|(w2 & Eb & Et)];
    rewrite Eb in Ht, Hs, Hv; cbn [final] in Ht, Hs, Hv;
    rewrite (bind_ok _ _ _ _ _ Et)
  end; cbn [returns final mret Exec_ret ret vars doc set_doc toasts set_toasts];
    injection Hs as Hs1 Hs2 Hs3; rewrite Ht, Htoasts; auto 10.
Qed.

Lemma lists_updateSpriteSelects (Q : Doc -> Prop) :
  (forall d els, Q d -> Q (set_elements els d)) ->
  preserves (fun w => Q (doc w)) updateSpriteSelects.
Proof. intros HQ. preserve ltac:(apply HQ; assumption). Qed.

Lemma renderSpriteList_returns (w : World) (e : Element) :
  elements (doc w) !! "sprite-list" = Some e ->
  renderSpriteList w = Ok tt (set_doc (set_spriteListItems (availableSprites (vars w)) (doc w)) w).
Proof.
  intros He. unfold renderSpriteList. rewrite (bind_ok _ _ _ _ _ (getElement_ok _ _ _ He)).
  reflexivity.
Qed.

Lemma renderTextureList_returns (w : World) :
  renderTextureList w =
  Ok tt (if elements (doc w) !! "texture-list" is Some _
         then set_doc (set_textureListItems (availableTextures (vars w)) (doc w)) w
         else w).
Proof.
  unfold renderTextureList, getElementById, getd. rewrite bind_gets.
  destruct (elements (doc w) !! "texture-list"); reflexivity.
Qed.

(** X7.  [loadData] on a complete page adds no toast; afterwards the enemy
    list shows the ids of the answered records in their order and the
    sprite list the answered sprites; the texture list shows the answered
    textures if the page has the element [texture-list] and is unchanged
    otherwise; the page is still complete. *)
Theorem loadData_renders_the_lists `{P : Platform}
    (data : EnemyTypesData) (r : option (option (list string))) (w : World) :
  page_complete w ->
  let w' := run w [EnemyTypesFetched data; TexturesFetched r KNone] in
  let textures := match r with Some t => default [] t | None => [] end in
  toasts (doc w') = toasts (doc w) /\
  item_id <$> enemyListItems (doc w') = (default [] (enemy_types data)).*1 /\
  spriteListItems (doc w') = default [] (available_sprites data) /\
  textureListItems (doc w') =
    (if elements (doc w) !! "texture-list" is Some _ then textures
     else textureListItems (doc w)) /\
  page_complete w'.
Proof.
  intros Hpage. cbv zeta. unfold run. cbn [foldl].
  set (v := match r with Some t => default [] t | None => [] end).
  set (wa := set_vars (set_availableTextures v (vars (step w (EnemyTypesFetched data))))
               (step w (EnemyTypesFetched data))).
  assert (Hpa : page_with (radios (doc w)) wa) by (split; [exact Hpage | reflexivity]).
  pose proof Hpa as [(Hel & _) _].
  destruct (Hel "enemy-list" ltac:(in_required)) as [e1 He1].
  destruct (Hel "sprite-list" ltac:(in_required)) as [e2 He2].
  destruct (renderEnemyList_returns wa e1 He1) as (wb & Eb & Hi & Hv & Hels & Hsp & Htx & Hto).
  assert (Hpb : page_with (radios (doc w)) wb).
  { assert (Hc : completes (page_with (radios (doc w))) renderEnemyList)
      by (complete page_leaf).
    destruct (Hc wa Hpa) as ([] & wb' & Eb' & Hpb'). congruence. }
  rewrite <- Hels in He2.
  pose proof (renderSpriteList_returns wb e2 He2) as Ec.
  set (wc := set_doc (set_spriteListItems (availableSprites (vars wb)) (doc wb)) wb) in Ec.
  pose proof (renderTextureList_returns wc) as Ed.
  set (wd := if elements (doc wc) !! "texture-list" is Some _
             then set_doc (set_textureListItems (availableTextures (vars wc)) (doc wc)) wc
             else wc) in Ed.
  assert (Hpd : page_with (radios (doc w)) wd).
  { unfold wd. destruct (elements (doc wc) !! "texture-list"); exact Hpb. }
  assert (Hc : completes (page_with (radios (doc w))) updateSpriteSelects)
    by (complete page_leaf).
  destruct (Hc wd Hpd) as ([] & we & Ee & Hpe).
  assert (Ebody : (setv (set_availableTextures v);;
                   renderEnemyList;; renderSpriteList;; renderTextureList;;
                   updateSpriteSelects) (step w (EnemyTypesFetched data)) = Ok tt we).
  { unfold setv at 1. rewrite bind_modify. fold wa.
    rewrite (bind_ok _ _ _ _ _ Eb), (bind_ok _ _ _ _ _ Ec), (bind_ok _ _ _ _ _ Ed).
    exact Ee. }
  assert (Hstep : step (step w (EnemyTypesFetched data)) (TexturesFetched r KNone) = we).
  { generalize dependent (step w (EnemyTypesFetched data)). intros w1 wa0 Hpa Hel He1 Eb Hi Hv
      Hels Hsp Htx Hto Ebody.
    unfold step. cbn [handle after_loadData]. unfold loadData_textures. fold v.
    match goal with |- context [try_catch ?m ?h] =>
      assert (Et : try_catch m h w1 = Ok tt we)
        by (unfold try_catch; rewrite Ebody; reflexivity)
    end.
    rewrite (bind_ok _ _ _ _ _ Et). reflexivity. }
  rewrite Hstep.
  assert (Hd : enemyListItems (doc we) = enemyListItems (doc wd) /\
               spriteListItems (doc we) = spriteListItems (doc wd) /\
               textureListItems (doc we) = textureListItems (doc wd) /\
               toasts (doc we) = toasts (doc wd)).
  { pose proof (lists_updateSpriteSelects
                  (fun d => enemyListItems d = enemyListItems (doc wd) /\
                            spriteListItems d = spriteListItems (doc wd) /\
                            textureListItems d = textureListItems (doc wd) /\
                            toasts d = toasts (doc wd))
                  ltac:(intros d els Hd; exact Hd) wd
                  ltac:(repeat split)) as Hp.
    rewrite Ee in Hp. exact Hp. }
  destruct Hd as (Hd1 & Hd2 & Hd3 & Hd4).
  assert (Htl : elements (doc wc) !! "texture-list" = elements (doc w) !! "texture-list")
    by (unfold wc; simpl; rewrite Hels; reflexivity).
  split; [|split; [|split; [|split; [|exact (proj1 Hpe)]]]].
  - rewrite Hd4. unfold wd. destruct (elements (doc wc) !! "texture-list"); simpl; exact Hto.
  - rewrite Hd1.
    assert (Hi' : enemyListItems (doc wd) = enemyListItems (doc wb))
      by (unfold wd; destruct (elements (doc wc) !! "texture-list"); reflexivity).
    rewrite Hi', Hi. apply imap_fmap_const. reflexivity.
  - rewrite Hd2.
    assert (Hs' : spriteListItems (doc wd) = availableSprites (vars wb))
      by (unfold wd; destruct (elements (doc wc) !! "texture-list"); reflexivity).
    rewrite Hs', Hv. reflexivity.
  - rewrite Hd3. unfold wd. rewrite Htl.
    destruct (elements (doc w) !! "texture-list"); simpl.
    + rewrite Hv. reflexivity.
    + exact Htx.
Qed.

Lemma loadData_renders_the_lists_witness :
  page_complete (initWorld samplePage) /\
  toasts (doc loadingWorld) = [] /\
  item_id <$> enemyListItems (doc loadingWorld) = ["orc"; "rat"] /\
  spriteListItems (doc loadingWorld) = ["orc.png"].
Proof.
  split; [exact samplePage_complete|].
  destruct (@loadData_renders_the_lists ascii_platform orcData None (initWorld samplePage)
              samplePage_complete) as (H1 & H2 & H3 & _).
  exact (conj H1 (conj H2 H3)).
Defined.



(** ** File names *)

Lemma last_separator (c : ascii) (s : string) :
  JsString.contains_char c s = false \/
  exists dir file, s = dir +:+ String c file /\ JsString.contains_char c file = false.
Proof.
  induction s as [|a s IH]; [left; reflexivity|].
  destruct IH as [Hs|(dir & file & -> & Hfile)].
  - simpl. destruct (Ascii.eqb a c) eqn:Ha.
    + right. apply Ascii.eqb_eq in Ha as ->. exists "", s. split; [reflexivity | exact Hs].
    + left. exact Hs.
  - right. exists (String a dir), file. split; [reflexivity | exact Hfile].
Qed.

Lemma append_slash (dir file : string) :
  (dir +:+ "/") +:+ file = dir +:+ String "/" file.
Proof.
  induction dir as [|a dir IH]; [reflexivity|].
  change (String a ((dir +:+ "/") +:+ file) = String a (dir +:+ String "/" file)).
  rewrite IH. reflexivity.
Qed.

(** X9.  [path.split('/').pop()] is the part of the path after its last
    slash: it holds no slash, and the path is a directory part, empty or
    ending in a slash, followed by it.  A path without a slash is its own
    file name; a path ending in a slash has the empty file name. *)
Theorem filenameOf_is_the_last_segment (path : string) :
  JsString.contains_char "/" (filenameOf path) = false /\
  (exists dir, path = dir +:+ filenameOf path /\ (dir = "" \/ exists d, dir = d +:+ "/")) /\
  (JsString.contains_char "/" path = false -> filenameOf path = path) /\
  (forall dir, filenameOf (dir +:+ "/") = "").
Proof.
  assert (Hplain : forall s, JsString.contains_char "/" s = false -> filenameOf s = s).
  { intros s Hs. apply (pop_split_go_plain "/" "" s Hs). }
  assert (Hafter : forall dir file, JsString.contains_char "/" file = false ->
                                    filenameOf (dir +:+ String "/" file) = file).
  { intros dir file Hfile. unfold filenameOf, JsString.split.
    rewrite pop_split_go_after. apply (pop_split_go_plain "/" "" file Hfile). }
  split; [|split; [|split]].
  - destruct (last_separator "/" path) as [Hs|(dir & file & -> & Hfile)].
    + rewrite Hplain; assumption.
    + rewrite Hafter; assumption.
  - destruct (last_separator "/" path) as [Hs|(dir & file & -> & Hfile)].
    + exists "". rewrite Hplain by exact Hs. split; [reflexivity | left; reflexivity].
    + exists (dir +:+ "/"). rewrite Hafter by exact Hfile.
      split; [symmetry; apply append_slash | right; exists dir; reflexivity].
  - apply Hplain.
  - intros dir. apply (Hafter dir ""). reflexivity.
Qed.

(** ** The direction buttons *)

Lemma direction_updateDirectionLabel (x : Z) :
  preserves (fun w => animationDirection (vars w) = x) updateDirectionLabel.
Proof. preserve assumption. Qed.

Lemma direction_after_next `{P : Platform} (w : World) :
  animationDirection (vars (step w NextDirection)) = Z.rem (animationDirection (vars w) + 1) 8.
Proof.
  unfold step. cbn [handle]. unfold nextDirection, setv. rewrite bind_modify.
  apply direction_updateDirectionLabel. reflexivity.
Qed.

Lemma direction_after_prev `{P : Platform} (w : World) :
  animationDirection (vars (step w PrevDirection)) = Z.rem (animationDirection (vars w) - 1 + 8) 8.
Proof.
  unfold step. cbn [handle]. unfold prevDirection, setv. rewrite bind_modify.
  apply direction_updateDirectionLabel. reflexivity.
Qed.

Lemma direction_after_presses `{P : Platform} (e : Event) (f : Z -> Z) (n : nat) (w : World) :
  (forall w, animationDirection (vars (step w e)) = f (animationDirection (vars w))) ->
  animationDirection (vars (run w (replicate n e))) = Nat.iter n f (animationDirection (vars w)).
Proof.
  intros He. revert w. induction n as [|n IH]; intros w; [reflexivity|].
  cbn [replicate run foldl]. fold (run (step w e) (replicate n e)).
  rewrite IH, He. clear. induction n as [|n IH]; simpl; [reflexivity|].
  rewrite IH. reflexivity.
Qed.

Lemma direction_cases (d : Z) :
  0 <= d <= 7 -> d = 0 \/ d = 1 \/ d = 2 \/ d = 3 \/ d = 4 \/ d = 5 \/ d = 6 \/ d = 7.
Proof. lia. Qed.

Lemma label_after_direction (w : World) (e : Element) :
  elements (doc w) !! "direction-label" = Some e ->
  updateDirectionLabel w =
  Ok tt (withElement "direction-label"
           (set_textContent (directionLabel (animationDirection (vars w))) e) w).
Proof.
  intros He. unfold updateDirectionLabel, getv. rewrite bind_gets.
  unfold setPropIfPresent, getElementById, getd. rewrite bind_gets, He. reflexivity.
Qed.

(** X10.  With the direction in the range 0 to 7, the two direction buttons
    undo each other, and eight presses of either one come back to the same
    direction; [nextDirection] adds 1 and [prevDirection] adds 7 modulo 8.
    Both return on every page, and the label, where the page has one, shows
    the name of the new direction. *)
Theorem direction_buttons_are_inverse `{P : Platform} (w : World) :
  0 <= animationDirection (vars w) <= 7 ->
  let d := animationDirection (vars w) in
  animationDirection (vars (run w [PrevDirection; NextDirection])) = d /\
  animationDirection (vars (run w [NextDirection; PrevDirection])) = d /\
  animationDirection (vars (run w (replicate 8 NextDirection))) = d /\
  animationDirection (vars (run w (replicate 8 PrevDirection))) = d /\
  animationDirection (vars (step w NextDirection)) = (d + 1) mod 8 /\
  animationDirection (vars (step w PrevDirection)) = (d + 7) mod 8 /\
  returns (handle NextDirection w) = true /\
  returns (handle PrevDirection w) = true /\
  (forall e, elements (doc w) !! "direction-label" = Some e ->
     textContent <$> elements (doc (step w NextDirection)) !! "direction-label"
       = directions !! Z.to_nat ((d + 1) mod 8) /\
     textContent <$> elements (doc (step w PrevDirection)) !! "direction-label"
       = directions !! Z.to_nat ((d + 7) mod 8)).
Proof.
  intros Hd d. subst d.
  split; [|split; [|split; [|split; [|split; [|split; [|split; [|split]]]]]]].
  - cbn [run foldl]. rewrite direction_after_next, direction_after_prev.
    destruct (direction_cases _ Hd) as [->|[->|[->|[->|[->|[->|[->| ->]]]]]]]; reflexivity.
  - cbn [run foldl]. rewrite direction_after_prev, direction_after_next.
    destruct (direction_cases _ Hd) as [->|[->|[->|[->|[->|[->|[->| ->]]]]]]]; reflexivity.
  - rewrite (direction_after_presses NextDirection (fun d => Z.rem (d + 1) 8))
      by apply direction_after_next.
    destruct (direction_cases _ Hd) as [->|[->|[->|[->|[->|[->|[->| ->]]]]]]]; reflexivity.
  - rewrite (direction_after_presses PrevDirection (fun d => Z.rem (d - 1 + 8) 8))
      by apply direction_after_prev.
    destruct (direction_cases _ Hd) as [->|[->|[->|[->|[->|[->|[->| ->]]]]]]]; reflexivity.
  - rewrite direction_after_next.
    destruct (direction_cases _ Hd) as [->|[->|[->|[->|[->|[->|[->| ->]]]]]]]; reflexivity.
  - rewrite direction_after_prev.
    destruct (direction_cases _ Hd) as [->|[->|[->|[->|[->|[->|[->| ->]]]]]]]; reflexivity.
  - cbn [handle]. unfold nextDirection, setv. rewrite bind_modify.
    unfold updateDirectionLabel, getv. rewrite bind_gets.
    unfold setPropIfPresent, getElementById, getd. rewrite bind_gets.
    match goal with |- context [match ?x with _ => _ end] => destruct x end; reflexivity.
  - cbn [handle]. unfold prevDirection, setv. rewrite bind_modify.
    unfold updateDirectionLabel, getv. rewrite bind_gets.
    unfold setPropIfPresent, getElementById, getd. rewrite bind_gets.
    match goal with |- context [match ?x with _ => _ end] => destruct x end; reflexivity.
  - intros e He. unfold step. cbn [handle]. unfold nextDirection, prevDirection, setv.
    rewrite !bind_modify.
    rewrite (label_after_direction _ e) by exact He.
    rewrite (label_after_direction _ e) by exact He.
    cbn [final]. rewrite !withElement_lookup, !decide_True by reflexivity.
    cbn [fmap option_fmap option_map textContent set_textContent vars set_vars
         animationDirection set_animationDirection].
    destruct (direction_cases _ Hd) as [H|[H|[H|[H|[H|[H|[H|H]]]]]]]; rewrite H;
      split; reflexivity.
Qed.

Lemma direction_buttons_are_inverse_witness :
  0 <= animationDirection (vars sidebarWorld) <= 7 /\
  animationDirection (vars (@run ascii_platform sidebarWorld [PrevDirection; NextDirection]))
    = animationDirection (vars sidebarWorld) /\
  animationDirection (vars (@step ascii_platform sidebarWorld PrevDirection)) = 7.
Proof.
  assert (H : 0 <= animationDirection (vars sidebarWorld) <= 7) by (vm_compute; split; discriminate).
  destruct (@direction_buttons_are_inverse ascii_platform sidebarWorld H)
    as (H1 & _ & _ & _ & _ & H6 & _).
  exact (conj H (conj H1 H6)).
Defined.

(** ** The weapon offset, from the preview to the form *)

Lemma offsets_updateOffsetDisplay (x y : Z) :
  preserves (fun w => currentWeaponOffsetX (vars w) = x /\ currentWeaponOffsetY (vars w) = y)
    updateOffsetDisplay.
Proof. preserve assumption. Qed.






(** X12.  [applyWeaponOffsetToForm], on a page whose two offset fields are
    inputs and on a platform whose [parseInt] reads back the printed offset:
    it returns, writes the offset of the preview into the two fields, adds
    one toast and changes no variable; [updateWeaponOffset] then reads the
    same offset back from the form. *)
Theorem applied_offset_reads_back `{P : Platform} (w : World) (ex ey : Element) :
  elements (doc w) !! "weapon-offset-x" = Some ex -> options ex = None ->
  elements (doc w) !! "weapon-offset-y" = Some ey -> options ey = None ->
  let x := currentWeaponOffsetX (vars w) in
  let y := currentWeaponOffsetY (vars w) in
  parseInt (JsString.of_Z x) = Some x ->
  parseInt (JsString.of_Z y) = Some y ->
  let w1 := step w ApplyWeaponOffsetToForm in
  returns (handle ApplyWeaponOffsetToForm w) = true /\
  fieldValue w1 "weapon-offset-x" = JsString.of_Z x /\
  fieldValue w1 "weapon-offset-y" = JsString.of_Z y /\
  toasts (doc w1) =
    toasts (doc w) ++
    [("Смещение (" +:+ JsString.of_Z x +:+ ", " +:+ JsString.of_Z y +:+ ") применено", "success")] /\
  vars w1 = vars w /\
  returns (updateWeaponOffset w1) = true /\
  currentWeaponOffsetX (vars (final (updateWeaponOffset w1))) = x /\
  currentWeaponOffsetY (vars (final (updateWeaponOffset w1))) = y.
Proof.
  intros Hx Hox Hy Hoy x y Hpx Hpy. cbv zeta. unfold step. cbn [handle].
  unfold applyWeaponOffsetToForm, getv. rewrite !bind_gets. fold x y.
  unfold setValue.
  rewrite (bind_ok _ _ _ _ _ (setProp_ok _ _ _ _ Hx)).
  assert (Hy1 : forall e, elements (doc (withElement "weapon-offset-x" e w)) !! "weapon-offset-y"
                          = Some ey).
  { intros e. rewrite withElement_lookup, decide_False by discriminate. exact Hy. }
  rewrite (bind_ok _ _ _ _ _ (setProp_ok _ _ _ _ (Hy1 _))).
  cbn [showToast setd modify final returns].
  set (w1 := set_doc _ _).
  assert (Fx : elements (doc w1) !! "weapon-offset-x" = Some (set_value (JsString.of_Z x) ex)).
  { unfold w1. cbn [doc set_doc elements set_toasts].
    rewrite !withElement_lookup, decide_False, decide_True by (reflexivity || discriminate).
    unfold assign_value. rewrite Hox. reflexivity. }
  assert (Fy : elements (doc w1) !! "weapon-offset-y" = Some (set_value (JsString.of_Z y) ey)).
  { unfold w1. cbn [doc set_doc elements set_toasts].
    rewrite !withElement_lookup, decide_True by reflexivity.
    unfold assign_value. rewrite Hoy. reflexivity. }
  split; [reflexivity|]. unfold fieldValue. rewrite Fx, Fy.
  split; [reflexivity|]. split; [reflexivity|]. split; [reflexivity|]. split; [reflexivity|].
  unfold updateWeaponOffset, getValue.
  rewrite (bind_ok _ _ _ _ _ (getProp_ok _ _ _ _ Fx)).
  unfold setv. rewrite bind_modify.
  match goal with |- context [(getProp "weapon-offset-y" value ≫= _) ?w2] =>
    rewrite (bind_ok _ _ _ _ _ (getProp_ok "weapon-offset-y" value w2 _ Fy))
  end.
  cbn [modify final returns vars set_vars value set_value
       currentWeaponOffsetX currentWeaponOffsetY set_currentWeaponOffsetX set_currentWeaponOffsetY].
  rewrite Hpx, Hpy. repeat split.
Qed.

Lemma applied_offset_reads_back_witness :
  elements (doc editWorld) !! "weapon-offset-x" = Some (set_value "10" blank) /\
  elements (doc editWorld) !! "weapon-offset-y" = Some (set_value "20" blank) /\
  currentWeaponOffsetX (vars editWorld) = 10 /\
  currentWeaponOffsetY (vars editWorld) = 20 /\
  @parseInt ascii_platform "10" = Some 10 /\
  @parseInt ascii_platform "20" = Some 20 /\
  fieldValue (@step ascii_platform editWorld ApplyWeaponOffsetToForm) "weapon-offset-x" = "10" /\
  fieldValue (@step ascii_platform editWorld ApplyWeaponOffsetToForm) "weapon-offset-y" = "20".
Proof.
  assert (H1 : elements (doc editWorld) !! "weapon-offset-x" = Some (set_value "10" blank))
    by (vm_compute; reflexivity).
  assert (H2 : elements (doc editWorld) !! "weapon-offset-y" = Some (set_value "20" blank))
    by (vm_compute; reflexivity).
  assert (H3 : currentWeaponOffsetX (vars editWorld) = 10) by (vm_compute; reflexivity).
  assert (H4 : currentWeaponOffsetY (vars editWorld) = 20) by (vm_compute; reflexivity).
  assert (H5 : @parseInt ascii_platform "10" = Some 10) by (vm_compute; reflexivity).
  assert (H6 : @parseInt ascii_platform "20" = Some 20) by (vm_compute; reflexivity).
  destruct (@applied_offset_reads_back ascii_platform editWorld _ _ H1 eq_refl H2 eq_refl)
    as (_ & Hx & Hy & _).
  - rewrite H3. exact H5.
  - rewrite H4. exact H6.
  - rewrite H3 in Hx. rewrite H4 in Hy.
    exact (conj H1 (conj H2 (conj H3 (conj H4 (conj H5 (conj H6 (conj Hx Hy))))))).
Defined.

(** ** Submitting without an id *)

(** X13.  When the hidden id field and the id input are both empty,
    [saveEnemy] sends no request: it adds the toast that asks for an id and
    changes nothing else. *)
Theorem submit_without_id_sends_nothing `{P : Platform} (w : World) :
  is_Some (elements (doc w) !! "enemy-id") ->
  is_Some (elements (doc w) !! "enemy-id-input") ->
  fieldValue w "enemy-id" = "" ->
  fieldValue w "enemy-id-input" = "" ->
  saveEnemy_submit w =
  Ok None (set_doc (set_toasts (toasts (doc w) ++ [("Введите ID врага", "error")]) (doc w)) w).
Proof.
  intros H1 H2 E1 E2. unfold saveEnemy_submit.
  rewrite (bind_ok _ _ _ _ _ (getValue_ok _ _ H1)). rewrite E1. cbn [JsString.truthy].
  rewrite (bind_ok _ _ _ _ _ (getValue_ok _ _ H2)). rewrite E2. reflexivity.
Qed.

Lemma submit_without_id_sends_nothing_witness :
  fieldValue (@step ascii_platform (initWorld samplePage) CreateNewEnemy) "enemy-id" = "" /\
  fieldValue (@step ascii_platform (initWorld samplePage) CreateNewEnemy) "enemy-id-input" = "" /\
  exists w',
    @saveEnemy_submit ascii_platform (@step ascii_platform (initWorld samplePage) CreateNewEnemy)
      = Ok None w' /\
    toasts (doc w') = [("Введите ID врага", "error")].
Proof.
  assert (H1 : fieldValue (@step ascii_platform (initWorld samplePage) CreateNewEnemy) "enemy-id"
               = "") by (vm_compute; reflexivity).
  assert (H2 : fieldValue (@step ascii_platform (initWorld samplePage) CreateNewEnemy)
                 "enemy-id-input" = "") by (vm_compute; reflexivity).
  split; [exact H1|]. split; [exact H2|].
  eexists. split.
  - apply (@submit_without_id_sends_nothing ascii_platform); [vm_compute; eauto..|exact H1|exact H2].
  - vm_compute. reflexivity.
Defined.

(** ** A thumbnail that arrives too late *)



(** ** Closing the editor *)

Lemma hideEditor_returns (w : World) (ee ew : Element) :
  elements (doc w) !! "editor-panel" = Some ee ->
  elements (doc w) !! "welcome-panel" = Some ew ->
  hideEditor w =
  Ok tt (withElement "welcome-panel" (set_hidden false ew)
           (withElement "editor-panel" (set_hidden true ee) w)).
Proof.
  intros He Hw. unfold hideEditor, classList_add_hidden, classList_remove_hidden.
  rewrite (bind_ok _ _ _ _ _ (setProp_ok _ _ _ _ He)).
  apply setProp_ok. rewrite withElement_lookup, decide_False by discriminate. exact Hw.
Qed.

(** X15.  [cancelEdit] on a page with the two panels and the enemy list
    returns; afterwards no enemy is current, the editor panel is hidden, the
    welcome panel is shown, and the list shows the records of the store with
    no entry marked active. *)
Theorem cancelEdit_closes_the_editor `{P : Platform} (w : World) (ee ew el : Element) :
  elements (doc w) !! "editor-panel" = Some ee ->
  elements (doc w) !! "welcome-panel" = Some ew ->
  elements (doc w) !! "enemy-list" = Some el ->
  exists w',
    handle CancelEdit w = Ok tt w' /\
    currentEnemyId (vars w') = None /\
    hidden <$> elements (doc w') !! "editor-panel" = Some true /\
    hidden <$> elements (doc w') !! "welcome-panel" = Some false /\
    item_id <$> enemyListItems (doc w') = (enemyTypes (vars w)).*1 /\
    (forall it, it ∈ enemyListItems (doc w') -> item_active it = false).
Proof.
  intros He Hw Hl. cbn [handle]. unfold cancelEdit, setv. rewrite bind_modify.
  set (w0 := set_vars (set_currentEnemyId None (vars w)) w).
  rewrite (bind_ok _ _ _ _ _ (hideEditor_returns w0 ee ew He Hw)).
  match goal with |- context [renderEnemyList ?w1] =>
    assert (Hl1 : elements (doc w1) !! "enemy-list" = Some el)
      by (rewrite !withElement_lookup, !decide_False by discriminate; exact Hl);
    destruct (renderEnemyList_returns w1 el Hl1) as (w' & E & Hi & Hv & Hels & _)
  end.
  exists w'. split; [exact E|]. rewrite Hv, Hels, Hi.
  split; [reflexivity|].
  rewrite !withElement_lookup.
  rewrite (decide_False (P := "welcome-panel" = "editor-panel")) by discriminate.
  rewrite !decide_True by reflexivity.
  split; [reflexivity|]. split; [reflexivity|].
  split; [apply imap_fmap_const; reflexivity|].
  intros it Hit. apply elem_of_lookup_imap in Hit as (i & p & -> & _). reflexivity.
Qed.

Lemma cancelEdit_closes_the_editor_witness :
  elements (doc editWorld) !! "editor-panel" = Some blank /\
  elements (doc editWorld) !! "welcome-panel" = Some (set_hidden true blank) /\
  elements (doc editWorld) !! "enemy-list" = Some blank /\
  exists w',
    @handle ascii_platform CancelEdit editWorld = Ok tt w' /\
    currentEnemyId (vars w') = None /\
    hidden <$> elements (doc w') !! "editor-panel" = Some true /\
    hidden <$> elements (doc w') !! "welcome-panel" = Some false.
Proof.
  assert (H1 : elements (doc editWorld) !! "editor-panel" = Some blank)
    by (vm_compute; reflexivity).
  assert (H2 : elements (doc editWorld) !! "welcome-panel" = Some (set_hidden true blank))
    by (vm_compute; reflexivity).
  assert (H3 : elements (doc editWorld) !! "enemy-list" = Some blank)
    by (vm_compute; reflexivity).
  destruct (@cancelEdit_closes_the_editor ascii_platform editWorld _ _ _ H1 H2 H3)
    as (w' & E & Hc & He & Hw & _).
  exact (conj H1 (conj H2 (conj H3 (ex_intro _ w' (conj E (conj Hc (conj He Hw))))))).
Defined.

(** ** The player sprite is loaded once *)

Lemma settled_loadImage (image : Image) (src : string) (k : LoadKind) :
  k <> PlayerLoad -> preserves (player_sprite_settled image) (loadImage src k).
Proof.
  intros Hk w [Hp Hn]. split; [exact Hp|]. intros n src'. simpl. rewrite lookup_insert.
  destruct (decide (nextImage (rt w) = n)); [congruence | apply Hn].
Qed.

Lemma settled_loadPlayerSprite (image : Image) :
  preserves (player_sprite_settled image) loadPlayerSprite.
Proof.
  intros w [Hp Hn]. unfold loadPlayerSprite, getv. rewrite bind_gets, Hp.
  split; assumption.
Qed.

Lemma settled_forget (image : Image) (n : nat) :
  preserves (player_sprite_settled image)
    (setr (fun r => set_pendingLoads (delete n (pendingLoads r)) r)).
Proof.
  intros w [Hp Hn]. split; [exact Hp|]. intros m src. simpl. intros Hm.
  apply lookup_delete_Some in Hm as [_ Hm]. exact (Hn m src Hm).
Qed.

#[local] Hint Extern 1 (preserves (player_sprite_settled _) (loadImage _ _)) =>
  apply settled_loadImage; discriminate : pres.
#[local] Hint Resolve settled_loadPlayerSprite settled_forget : pres.

Lemma settled_onImageLoaded (image : Image) (n : nat) :
  preserves (player_sprite_settled image) (onImageLoaded n).
Proof.
  intros w H. unfold onImageLoaded, getr. rewrite bind_gets.
  destruct (pendingLoads (rt w) !! n) as [[src k]|] eqn:E; [|exact H].
  destruct k as [id canvasId colour| |weaponPath|]; cbv beta iota;
    [| | |destruct H as [_ Hn]; destruct (Hn n src E)];
    match goal with |- player_sprite_settled _ (final (?m w)) =>
      cut (preserves (player_sprite_settled image) m); [intros Hp; apply Hp, H|]
    end; preserve assumption.
Qed.

#[local] Hint Resolve settled_onImageLoaded : pres.

Lemma settled_handle `{P : Platform} (image : Image) (e : Event) :
  preserves (player_sprite_settled image) (handle e).
Proof. destruct e; simpl; preserve assumption. Qed.

(** X16.  Once the sprite of the player has loaded and no request for it is
    pending, no sequence of events replaces it or requests it again. *)
Theorem player_sprite_is_loaded_once `{P : Platform} (w : World) (es : list Event) (image : Image) :
  playerSpriteImage (vars w) = Some image ->
  (forall n src, pendingLoads (rt w) !! n <> Some (src, PlayerLoad)) ->
  playerSpriteImage (vars (run w es)) = Some image /\
  (forall n src, pendingLoads (rt (run w es)) !! n <> Some (src, PlayerLoad)).
Proof.
  intros Hp Hn. assert (H : player_sprite_settled image w) by (split; assumption).
  clear Hp Hn. revert w H. induction es as [|e es IH]; intros w H; [exact H|].
  apply IH, settled_handle, H.
Qed.

Lemma player_sprite_is_loaded_once_witness :
  playerSpriteImage (vars playerWorld) = Some {| img_id := 0; img_src := "/api/player-sprite" |} /\
  pendingLoads (rt playerWorld) = ∅ /\
  playerSpriteImage (vars (@run ascii_platform playerWorld [TogglePreviewPanel; TogglePreviewPanel]))
    = Some {| img_id := 0; img_src := "/api/player-sprite" |}.
Proof.
  assert (H1 : playerSpriteImage (vars playerWorld)
               = Some {| img_id := 0; img_src := "/api/player-sprite" |})
    by (vm_compute; reflexivity).
  assert (H2 : pendingLoads (rt playerWorld) = ∅) by (vm_compute; reflexivity).
  refine (conj H1 (conj H2 _)).
  apply (@player_sprite_is_loaded_once ascii_platform playerWorld
           [TogglePreviewPanel; TogglePreviewPanel] _ H1).
  intros n src. rewrite H2, lookup_empty. discriminate.
Defined.

(** ** The form of a new enemy *)

Lemma elem_has_frame (id : string) (p : Element -> Prop) (w : World) (id' : string) (e e' : Element) :
  elements (doc w) !! id' = Some e -> kept_at id p id' e e' ->
  elem_has id p w -> elem_has id p (withElement id' e' w).
Proof.
  intros E Hk H e0. rewrite withElement_lookup.
  destruct (decide (id' = id)) as [->|_]; [|apply H].
  intros [= <-]. apply Hk; [reflexivity | apply H, E].
Qed.

Ltac elem_kept :=
  intros ? ? ?;
  first [ discriminate
        | assumption
        | unfold assign_value, assign_options; repeat case_match; assumption ].

#[local] Hint Extern 1 (preserves (elem_has _ _) (setProp _ _)) =>
  apply (frame_setProp _ _ (elem_has_frame _ _)); elem_kept : pres.
#[local] Hint Extern 1 (preserves (elem_has _ _) (setPropIfPresent _ _)) =>
  apply (frame_setPropIfPresent _ _ (elem_has_frame _ _)); elem_kept : pres.

Lemma completes_and (I Q : World -> Prop) {A} (m : Exec A) :
  completes I m -> preserves Q m -> completes (fun w => I w /\ Q w) m.
Proof.
  intros Hc Hp w [HI HQ]. destruct (Hc w HI) as (a & w' & E & HI').
  exists a, w'. split; [exact E|]. split; [exact HI'|].
  specialize (Hp w HQ). rewrite E in Hp. exact Hp.
Qed.

Lemma step_over (J : World -> Prop) {A B} (m : Exec A) (k : A -> Exec B) (w : World) :
  completes J m -> J w -> exists a w1, J w1 /\ (m ≫= k) w = k a w1.
Proof.
  intros Hc HJ. destruct (Hc w HJ) as (a & w1 & E & H1). exists a, w1.
  split; [exact H1 | apply bind_ok, E].
Qed.

(** [walk_until J HJ stop]: while [stop] does not recognise the next
    statement, run that statement; [HJ : J w] for the current world [w]. *)
Ltac step_over_by J HJ tac :=
  lazymatch goal with
  | |- context [final ((?m ≫= ?k) ?w0)] =>
      let a := fresh "a" in
      let w1 := fresh "w" in
      let HJ1 := fresh "HJ" in
      let E := fresh "E" in
      let Hc := fresh "Hc" in
      assert (Hc : completes J m) by tac;
      destruct (step_over J m k w0 Hc HJ) as (a & w1 & HJ1 & E);
      rewrite E; clear E Hc HJ; rename HJ1 into HJ; try destruct a; cbv beta;
      try lazymatch goal with
          | |- context [final ((let x := _ in _) _)] => cbv beta zeta
          end
  end.

Ltac step_over_with J HJ :=
  step_over_by J HJ
    ltac:(apply completes_and; [complete page_leaf | preserve assumption]).

Ltac walk_until J HJ stop :=
  repeat (tryif stop then fail else step_over_with J HJ).

Ltac walk_until_by J HJ tac stop :=
  repeat (tryif stop then fail else step_over_by J HJ tac).

Lemma establish_setProp {B} (id : string) (f : Element -> Element) (p : Element -> Prop)
    (k : unit -> Exec B) (w : World) :
  is_Some (elements (doc w) !! id) ->
  (forall e, elements (doc w) !! id = Some e -> p (f e)) ->
  preserves (elem_has id p) (k tt) ->
  elem_has id p (final ((setProp id f ≫= k) w)).
Proof.
  intros [e E] Hf Hk. rewrite (bind_ok _ _ _ _ _ (setProp_ok _ _ _ _ E)).
  apply Hk. intros e0. rewrite withElement_lookup, decide_True by reflexivity.
  intros [= <-]. apply Hf, E.
Qed.

Lemma run_setValue {B} (id v : string) (k : unit -> Exec B) (w : World) (e : Element) :
  elements (doc w) !! id = Some e ->
  (setValue id v ≫= k) w = k tt (withElement id (assign_value v e) w).
Proof. intros E. unfold setValue. apply bind_ok, setProp_ok, E. Qed.

Lemma run_setv {B} (f : Vars -> Vars) (k : unit -> Exec B) (w : World) :
  (setv f ≫= k) w = k tt (set_vars (f (vars w)) w).
Proof. reflexivity. Qed.

Lemma value_assigned_input (v : string) (e : Element) :
  options e = None -> value (assign_value v e) = v.
Proof. intros H. unfold assign_value. rewrite H. reflexivity. Qed.

Lemma value_assigned_empty (e : Element) : value (assign_value "" e) = "".
Proof.
  unfold assign_value. destruct (options e); [|reflexivity].
  simpl. destruct (bool_decide _); reflexivity.
Qed.

Section FormFacts.

Context `{P : Platform}.
Variable R : list string.
Hypothesis melee : "melee" ∈ R.

Lemma createNewEnemy_writes (id v : string) (w : World) :
  (id, v) ∈ newEnemyDefaults -> id <> "attack-range" ->
  page_with R w -> elem_has id (fun e => options e = None \/ v = "") w ->
  elem_has id (fun e => value e = v) (final (createNewEnemy w)).
Proof.
  intros Hd Hne Hpage Hinput.
  set (J := fun w => page_with R w /\ elem_has id (fun e => options e = None \/ v = "") w).
  assert (HJ : J w) by (split; assumption). clear Hpage Hinput.
  unfold createNewEnemy. unfold newEnemyDefaults in Hd.
  repeat (apply elem_of_cons in Hd as [Hd|Hd];
    [injection Hd as -> ->;
     first
       [ solve [destruct Hne; reflexivity]
       | match goal with |- elem_has ?i _ _ =>
           walk_until J HJ ltac:(idtac; lazymatch goal with
                                 | |- context [final ((setValue i _ ≫= _) _)] => idtac
                                 end)
         end;
         unfold setValue at 1;
         apply establish_setProp;
           [apply (proj1 (proj1 (proj1 HJ))); in_required
           |intros e E; destruct (proj2 HJ e E) as [Ho|Hv];
              [apply value_assigned_input, Ho
              |first [apply value_assigned_empty | discriminate Hv]]
           |preserve assumption] ]
    |]).
  apply elem_of_nil in Hd. destruct Hd.
Qed.

Lemma melee_range_frame (v : string) (w : World) (id' : string) (e e' : Element) :
  elements (doc w) !! id' = Some e ->
  kept_at "attack-range" (fun e => options e = None /\ value e = v) id' e e' ->
  melee_range v w -> melee_range v (withElement id' e' w).
Proof.
  intros E Hk [H1 H2]. split; [|exact H2]. exact (elem_has_frame _ _ w id' e e' E Hk H1).
Qed.

End FormFacts.

Ltac range_kept :=
  intros ? ? ?;
  first [ discriminate
        | assumption
        | match goal with
          | H : options ?e = None /\ value ?e = ?v |- _ =>
              destruct H as [? ?]; unfold assign_value;
              repeat match goal with Ho : options e = None |- _ => rewrite Ho end;
              split; assumption || reflexivity
          end ].

#[local] Hint Extern 1 (preserves (melee_range _) (setProp _ _)) =>
  apply (frame_setProp _ _ (melee_range_frame _)); range_kept : pres.
#[local] Hint Extern 1 (preserves (melee_range _) (setPropIfPresent _ _)) =>
  apply (frame_setPropIfPresent _ _ (melee_range_frame _)); range_kept : pres.

Section FormFacts2.

Context `{P : Platform}.
Variable R : list string.
Hypothesis melee : "melee" ∈ R.

Lemma melee_range_updateAttackTypeUI :
  preserves (melee_range "1.2") updateAttackTypeUI.
Proof.
  intros w H. unfold updateAttackTypeUI.
  assert (Hc : checkedRadio w = Ok "melee" w).
  { unfold checkedRadio, getd. rewrite bind_gets, (proj2 H). reflexivity. }
  rewrite (bind_ok _ _ _ _ _ Hc). rewrite bool_decide_eq_false_2 by discriminate.
  revert w H Hc. intros w H _. revert w H.
  match goal with |- forall w, _ -> melee_range _ (final (?m w)) =>
    change (preserves (melee_range "1.2") m)
  end.
  preserve assumption.
Qed.

#[local] Hint Resolve melee_range_updateAttackTypeUI : pres.

Lemma checkRadio_returns (v : string) (w : World) :
  v ∈ radios (doc w) ->
  checkRadio v w = Ok tt (set_doc (set_radioChecked (Some v) (doc w)) w).
Proof.
  intros Hv. unfold checkRadio, getd. rewrite bind_gets.
  rewrite bool_decide_eq_true_2 by exact Hv. reflexivity.
Qed.

Lemma createNewEnemy_range (w : World) :
  page_with R w -> elem_has "attack-range" (fun e => options e = None) w ->
  melee_range "1.2" (final (createNewEnemy w)).
Proof.
  intros Hpage Hinput.
  set (J := fun w => page_with R w /\ elem_has "attack-range" (fun e => options e = None) w).
  assert (HJ : J w) by (split; assumption). clear Hpage Hinput.
  unfold createNewEnemy.
  walk_until J HJ ltac:(idtac; lazymatch goal with
                        | |- context [final ((setValue "attack-range" _ ≫= _) _)] => idtac
                        end).
  destruct HJ as [Hpage Hinput].
  destruct (proj1 (proj1 Hpage) "attack-range" ltac:(in_required)) as [e E].
  rewrite (run_setValue _ _ _ _ e E).
  set (J2 := fun w => page_with R w /\
               elem_has "attack-range" (fun e => options e = None /\ value e = "1.2") w).
  match goal with |- context [final (_ ?w')] => assert (HJ : J2 w') end.
  { split; [apply page_with_insert, Hpage|].
    intros e0. rewrite withElement_lookup, decide_True by reflexivity. intros [= <-].
    split; [|apply value_assigned_input, (Hinput e E)].
    unfold assign_value. rewrite (Hinput e E). apply (Hinput e E). }
  clear Hpage Hinput E.
  walk_until J2 HJ ltac:(idtac; lazymatch goal with
                         | |- context [final ((checkRadio _ ≫= _) _)] => idtac
                         end).
  destruct HJ as [Hpage Hrange].
  rewrite (bind_ok _ _ _ _ _ (checkRadio_returns "melee" _
                                ltac:(rewrite (proj2 Hpage); exact melee))).
  match goal with |- melee_range _ (final (?m ?w')) =>
    assert (Hp : preserves (melee_range "1.2") m) by (preserve assumption);
    apply Hp
  end.
  split; [exact Hrange | reflexivity].
Qed.

Lemma createNewEnemy_radio (w : World) :
  page_with R w -> radioChecked (doc (final (createNewEnemy w))) = Some "melee".
Proof.
  intros Hpage.
  set (J := fun w => page_with R w /\ True).
  assert (HJ : J w) by (split; [assumption | exact Logic.I]). clear Hpage.
  unfold createNewEnemy.
  walk_until J HJ ltac:(idtac; lazymatch goal with
                        | |- context [final ((checkRadio _ ≫= _) _)] => idtac
                        end).
  destruct HJ as [Hpage _].
  rewrite (bind_ok _ _ _ _ _ (checkRadio_returns "melee" _
                                ltac:(rewrite (proj2 Hpage); exact melee))).
  match goal with |- _ (doc (final (?m ?w'))) = _ =>
    assert (Hp : preserves (fun w => radioChecked (doc w) = Some "melee") m)
      by (preserve assumption);
    apply Hp
  end.
  reflexivity.
Qed.

Lemma createNewEnemy_vars (w : World) :
  page_with R w ->
  let v := vars (final (createNewEnemy w)) in
  currentEnemyId v = None /\ currentWeaponOffsetX v = 0 /\ currentWeaponOffsetY v = 0 /\
  currentWeaponImage v = None.
Proof.
  intros Hpage. cbv zeta. split.
  - unfold createNewEnemy. rewrite run_setv.
    match goal with |- _ (vars (final (?m ?w'))) = _ =>
      assert (Hp : preserves (fun w => currentEnemyId (vars w) = None) m)
        by (preserve assumption);
      apply Hp
    end.
    reflexivity.
  - set (J := fun w => page_with R w /\ True).
    assert (HJ : J w) by (split; [assumption | exact Logic.I]). clear Hpage.
    unfold createNewEnemy.
    walk_until J HJ ltac:(idtac; lazymatch goal with
                          | |- context [final ((setv (set_currentWeaponOffsetX _) ≫= _) _)] => idtac
                          end).
    rewrite !run_setv.
    match goal with |- context [final (?m ?w')] =>
      assert (Hp : preserves (fun w => currentWeaponOffsetX (vars w) = 0 /\
                                       currentWeaponOffsetY (vars w) = 0 /\
                                       currentWeaponImage (vars w) = None) m)
        by (preserve ltac:(idtac; match goal with
                           | H : _ /\ _ /\ _ |- _ =>
                               destruct H as (? & ? & ?); repeat split;
                               first [assumption | reflexivity]
                           end));
      apply Hp
    end.
    repeat split.
Qed.

Lemma showEditor_returns (w : World) (ee ew : Element) :
  elements (doc w) !! "editor-panel" = Some ee ->
  elements (doc w) !! "welcome-panel" = Some ew ->
  showEditor w =
  Ok tt (withElement "welcome-panel" (set_hidden true ew)
           (withElement "editor-panel" (set_hidden false ee) w)).
Proof.
  intros He Hw. unfold showEditor, classList_add_hidden, classList_remove_hidden.
  rewrite (bind_ok _ _ _ _ _ (setProp_ok _ _ _ _ He)).
  apply setProp_ok. rewrite withElement_lookup, decide_False by discriminate. exact Hw.
Qed.

Lemma createNewEnemy_shows_editor (w : World) :
  page_with R w ->
  let w' := final (createNewEnemy w) in
  elem_has "editor-panel" (fun e => hidden e = false) w' /\
  elem_has "welcome-panel" (fun e => hidden e = true) w' /\
  elem_has "enemy-id-input" (fun e => disabled e = false) w'.
Proof.
  intros Hpage. cbv zeta.
  set (J := fun w => page_with R w /\ True).
  assert (HJ : J w) by (split; [assumption | exact Logic.I]). clear Hpage.
  split; [|split]; unfold createNewEnemy.
  - walk_until J HJ ltac:(idtac; lazymatch goal with
                          | |- context [final ((showEditor ≫= _) _)] => idtac
                          end).
    destruct HJ as [Hpage _].
    destruct (proj1 (proj1 Hpage) "editor-panel" ltac:(in_required)) as [ee Ee].
    destruct (proj1 (proj1 Hpage) "welcome-panel" ltac:(in_required)) as [ew Ew].
    rewrite (bind_ok _ _ _ _ _ (showEditor_returns _ ee ew Ee Ew)).
    assert (Hp : preserves (elem_has "editor-panel" (fun e => hidden e = false))
                   startEditorPreview) by (preserve assumption).
    apply Hp. intros e. rewrite !withElement_lookup.
    rewrite decide_False by discriminate. rewrite decide_True by reflexivity.
    intros [= <-]. reflexivity.
  - walk_until J HJ ltac:(idtac; lazymatch goal with
                          | |- context [final ((showEditor ≫= _) _)] => idtac
                          end).
    destruct HJ as [Hpage _].
    destruct (proj1 (proj1 Hpage) "editor-panel" ltac:(in_required)) as [ee Ee].
    destruct (proj1 (proj1 Hpage) "welcome-panel" ltac:(in_required)) as [ew Ew].
    rewrite (bind_ok _ _ _ _ _ (showEditor_returns _ ee ew Ee Ew)).
    assert (Hp : preserves (elem_has "welcome-panel" (fun e => hidden e = true))
                   startEditorPreview) by (preserve assumption).
    apply Hp. intros e. rewrite !withElement_lookup.
    rewrite decide_True by reflexivity.
    intros [= <-]. reflexivity.
  - walk_until J HJ ltac:(idtac; lazymatch goal with
                          | |- context [final ((setProp "enemy-id-input" _ ≫= _) _)] => idtac
                          end).
    apply establish_setProp;
      [apply (proj1 (proj1 (proj1 HJ))); in_required
      |intros e E; reflexivity
      |preserve assumption].
Qed.

End FormFacts2.

Lemma fieldValue_of (id v : string) (w : World) :
  is_Some (elements (doc w) !! id) -> elem_has id (fun e => value e = v) w ->
  fieldValue w id = v.
Proof. intros [e E] H. unfold fieldValue. rewrite E. apply (H e E). Qed.

Lemma prop_of {A} (id : string) (prop : Element -> A) (x : A) (w : World) :
  is_Some (elements (doc w) !! id) -> elem_has id (fun e => prop e = x) w ->
  prop <$> elements (doc w) !! id = Some x.
Proof. intros [e E] H. rewrite E. simpl. f_equal. apply (H e E). Qed.

(** X17.  [createNewEnemy] on a complete page whose text and number controls
    are inputs returns, and afterwards every control of the form holds its
    default, melee is the checked attack type, no enemy is current, the
    weapon offset is (0, 0) and no weapon image is kept; the id input is
    enabled, the editor panel is shown and the welcome panel hidden. *)
Theorem createNewEnemy_fills_in_the_defaults `{P : Platform} (w : World) :
  page_complete w ->
  (forall id, id ∈ formInputs -> elem_has id (fun e => options e = None) w) ->
  exists w',
    handle CreateNewEnemy w = Ok tt w' /\
    (forall id v, (id, v) ∈ newEnemyDefaults -> fieldValue w' id = v) /\
    radioChecked (doc w') = Some "melee" /\
    currentEnemyId (vars w') = None /\
    currentWeaponOffsetX (vars w') = 0 /\
    currentWeaponOffsetY (vars w') = 0 /\
    currentWeaponImage (vars w') = None /\
    disabled <$> elements (doc w') !! "enemy-id-input" = Some false /\
    hidden <$> elements (doc w') !! "editor-panel" = Some false /\
    hidden <$> elements (doc w') !! "welcome-panel" = Some true /\
    page_complete w'.
Proof.
  intros Hpage Hinputs.
  assert (Hw : page_with (radios (doc w)) w) by (split; [exact Hpage | reflexivity]).
  pose proof (proj1 (proj2 Hpage)) as Hm.
  destruct (page_handle_other (radios (doc w)) Hm CreateNewEnemy ltac:(discriminate) w Hw)
    as ([] & w' & E & Hw').
  exists w'. split; [exact E|].
  cbn [handle] in E.
  assert (Hf : final (createNewEnemy w) = w') by (rewrite E; reflexivity).
  pose proof (createNewEnemy_range _ Hm w Hw
                (Hinputs "attack-range" ltac:(unfold formInputs; in_list))) as [Hr _].
  pose proof (createNewEnemy_radio _ Hm w Hw) as Hradio.
  pose proof (createNewEnemy_vars _ Hm w Hw) as (Hv1 & Hv2 & Hv3 & Hv4).
  pose proof (createNewEnemy_shows_editor _ Hm w Hw) as (Hs1 & Hs2 & Hs3).
  cbv zeta in Hv1, Hv2, Hv3, Hv4, Hs1, Hs2, Hs3.
  rewrite Hf in Hr, Hradio, Hv1, Hv2, Hv3, Hv4, Hs1, Hs2, Hs3.
  destruct Hw' as [Hpage' _]. pose proof (proj1 Hpage') as Hel.
  refine (conj _ (conj Hradio (conj Hv1 (conj Hv2 (conj Hv3 (conj Hv4
            (conj _ (conj _ (conj _ Hpage')))))))));
    [|apply prop_of; [apply Hel; in_required | assumption]..].
  intros id v Hd. apply fieldValue_of.
  - unfold newEnemyDefaults in Hd.
    repeat (apply elem_of_cons in Hd as [[= -> ->]|Hd]; [apply Hel; in_required|]).
    apply elem_of_nil in Hd. destruct Hd.
  - destruct (decide (id = "attack-range")) as [->|Hne].
    + assert (v = "1.2") as ->.
      { unfold newEnemyDefaults in Hd.
        repeat (apply elem_of_cons in Hd as [Hd|Hd]; [congruence|]).
        apply elem_of_nil in Hd. destruct Hd. }
      intros e He. apply (Hr e He).
    + rewrite <- Hf. apply (createNewEnemy_writes (radios (doc w)) Hm id v w Hd Hne Hw).
      destruct (decide (id ∈ formInputs)) as [Hin|Hnin].
      * intros e He. left. apply (Hinputs id Hin e He).
      * intros e He. right. unfold newEnemyDefaults in Hd. unfold formInputs in Hnin.
        repeat (apply elem_of_cons in Hd as [[= -> ->]|Hd];
                [first [reflexivity | destruct Hnin; in_list]|]).
        apply elem_of_nil in Hd. destruct Hd.
Qed.

Lemma createNewEnemy_fills_in_the_defaults_witness :
  page_complete (initWorld samplePage) /\
  exists w',
    @handle ascii_platform CreateNewEnemy (initWorld samplePage) = Ok tt w' /\
    fieldValue w' "max-health" = "30" /\
    fieldValue w' "attack-range" = "1.2" /\
    radioChecked (doc w') = Some "melee".
Proof.
  split; [exact samplePage_complete|].
  destruct (@createNewEnemy_fills_in_the_defaults ascii_platform (initWorld samplePage)
              samplePage_complete ltac:(inputs_by_evaluation))
    as (w' & E & Hf & Hr & _).
  exists w'. split; [exact E|].
  split; [apply Hf; unfold newEnemyDefaults; in_list|].
  split; [apply Hf; unfold newEnemyDefaults; in_list|exact Hr].
Defined.

(** ** Selecting an enemy and saving it again *)

Lemma run_getv {A B} (f : Vars -> A) (k : A -> Exec B) (w : World) :
  (getv f ≫= k) w = k (f (vars w)) w.
Proof. reflexivity. Qed.

Ltac enter_select Hl :=
  unfold selectEnemy; rewrite run_setv, run_getv;
  cbn [vars set_vars enemyTypes set_currentEnemyId]; rewrite Hl; cbv iota.

Section SelectFacts.

Context `{P : Platform}.
Variable R : list string.
Variables (id : string) (enemy : EnemyRecord).
Hypothesis attackType_ok : str_or (attack_type enemy) "melee" ∈ R.

Lemma selectEnemy_writes (fid v : string) (w : World) :
  (fid, v) ∈ selectedFields id enemy ->
  lookupEnemy id (enemyTypes (vars w)) = Some enemy ->
  page_with R w -> elem_has fid (fun e => options e = None) w ->
  elem_has fid (fun e => value e = v) (final (selectEnemy id w)).
Proof.
  intros Hd Hl Hpage Hinput.
  enter_select Hl.
  set (J := fun w => page_with R w /\ elem_has fid (fun e => options e = None) w).
  match goal with |- context [final (_ ?w0)] => assert (HJ : J w0) by (split; assumption) end.
  clear Hpage Hinput.
  unfold selectedFields in Hd. cbv zeta in Hd.
  repeat (apply elem_of_cons in Hd as [Hd|Hd];
    [injection Hd as -> ->;
     match goal with |- elem_has ?i _ _ =>
       walk_until J HJ ltac:(idtac; lazymatch goal with
                             | |- context [final ((setValue i _ ≫= _) _)] => idtac
                             end)
     end;
     unfold setValue at 1;
     apply establish_setProp;
       [apply (proj1 (proj1 (proj1 HJ))); in_required
       |intros e E; apply value_assigned_input, (proj2 HJ e E)
       |preserve assumption]
    |]).
  apply elem_of_nil in Hd. destruct Hd.
Qed.

Lemma selectEnemy_radio (w : World) :
  lookupEnemy id (enemyTypes (vars w)) = Some enemy ->
  page_with R w ->
  radioChecked (doc (final (selectEnemy id w))) = Some (str_or (attack_type enemy) "melee").
Proof.
  intros Hl Hpage. enter_select Hl.
  set (J := fun w => page_with R w /\ True).
  match goal with |- context [final (_ ?w0)] =>
    assert (HJ : J w0) by (split; [assumption | exact Logic.I])
  end.
  clear Hpage.
  walk_until J HJ ltac:(idtac; lazymatch goal with
                        | |- context [final ((checkRadio _ ≫= _) _)] => idtac
                        end).
  destruct HJ as [Hpage _].
  rewrite (bind_ok _ _ _ _ _ (checkRadio_returns _ _
                                ltac:(rewrite (proj2 Hpage); exact attackType_ok))).
  match goal with |- _ (doc (final (?m ?w'))) = Some ?a =>
    assert (Hp : preserves (fun w => radioChecked (doc w) = Some a) m)
      by (preserve assumption);
    apply Hp
  end.
  reflexivity.
Qed.

Lemma selectEnemy_current (w : World) :
  lookupEnemy id (enemyTypes (vars w)) = Some enemy ->
  currentEnemyId (vars (final (selectEnemy id w))) = Some id.
Proof.
  intros Hl. enter_select Hl.
  match goal with |- _ (vars (final (?m ?w'))) = _ =>
    assert (Hp : preserves (fun w => currentEnemyId (vars w) = Some id) m)
      by (preserve assumption);
    apply Hp
  end.
  reflexivity.
Qed.

End SelectFacts.

Lemma run_getValue `{P : Platform} {B} (id : string) (k : string -> Exec B) (w : World) :
  is_Some (elements (doc w) !! id) ->
  (getValue id ≫= k) w = k (fieldValue w id) w.
Proof. intros H. apply bind_ok, getValue_ok, H. Qed.

(** The request [saveEnemy] builds from a form whose hidden id is set. *)
Lemma saveEnemy_submit_returns `{P : Platform} (w : World) (a : string) :
  page_complete w -> radioChecked (doc w) = Some a ->
  JsString.truthy (fieldValue w "enemy-id") = true ->
  exists req,
    saveEnemy_submit w = Ok (Some req) w /\
    isNew req = negb (id_truthy (currentEnemyId (vars w))) /\
    url req = (if isNew req then "/api/enemy-types"
               else "/api/enemy-types/" +:+ default "null" (currentEnemyId (vars w))) /\
    method req = (if isNew req then "POST" else "PUT") /\
    data_id (body req) = fieldValue w "enemy-id" /\
    data_name (body req) = JsString.or (fieldValue w "enemy-name") (fieldValue w "enemy-id") /\
    data_attack_type (body req) = a /\
    data_weapon_offset (body req) =
      (default 0 (parseInt (fieldValue w "weapon-offset-x")),
       default 0 (parseInt (fieldValue w "weapon-offset-y"))) /\
    data_color (body req) =
      (parseInt (fieldValue w "color-r"), parseInt (fieldValue w "color-g"),
       parseInt (fieldValue w "color-b")).
Proof.
  intros Hpage Hradio Hid. pose proof (proj1 Hpage) as Hel.
  unfold saveEnemy_submit.
  rewrite run_getValue by (apply Hel; in_required).
  rewrite Hid. rewrite bind_ok with (a := fieldValue w "enemy-id") (w' := w) by reflexivity.
  rewrite Hid. cbn [negb].
  assert (Hc : checkedRadio w = Ok a w).
  { unfold checkedRadio, getd. rewrite bind_gets, Hradio. reflexivity. }
  rewrite (bind_ok _ _ _ _ _ Hc).
  repeat (rewrite run_getValue by (apply Hel; in_required)).
  rewrite run_getv.
  eexists. split; [reflexivity|]. cbn [isNew url method body data_id data_name
    data_attack_type data_weapon_offset data_color]. repeat split.
Qed.

(** X18.  Selecting a stored enemy and submitting the form untouched sends
    the record back to where it came from: on a complete page whose text and
    number controls are inputs, for a non-empty id whose attack type has a
    radio button, and on a platform whose [parseInt] reads back the printed
    offset and colour, [saveEnemy] builds a PUT request to
    [/api/enemy-types/] followed by the id, and its body has the id, the name
    (the id when the record has none), the attack type (melee when it has
    none), the weapon offset and the colour of the record, with their
    defaults (0, 0) and (200, 50, 50). *)
Theorem selected_enemy_saves_as_itself `{P : Platform} (w : World) (id : string)
    (enemy : EnemyRecord) :
  let attackType := str_or (attack_type enemy) "melee" in
  let weaponOffset := default (0, 0) (weapon_offset enemy) in
  let colour := default (200, 50, 50) (color enemy) in
  page_complete w ->
  (forall fid, fid ∈ formInputs -> elem_has fid (fun e => options e = None) w) ->
  lookupEnemy id (enemyTypes (vars w)) = Some enemy ->
  id <> "" ->
  attackType ∈ radios (doc w) ->
  (forall z, z ∈ [weaponOffset.1; weaponOffset.2; colour.1.1; colour.1.2; colour.2] ->
     parseInt (JsString.of_Z z) = Some z) ->
  exists w' req,
    handle (SelectEnemy id) w = Ok tt w' /\
    saveEnemy_submit w' = Ok (Some req) w' /\
    isNew req = false /\ method req = "PUT" /\
    url req = "/api/enemy-types/" +:+ id /\
    data_id (body req) = id /\
    data_name (body req) = str_or (name enemy) id /\
    data_attack_type (body req) = attackType /\
    data_weapon_offset (body req) = weaponOffset /\
    data_color (body req) = (Some colour.1.1, Some colour.1.2, Some colour.2).
Proof.
  intros attackType weaponOffset colour Hpage Hinputs Hl Hid Ha Hparse.
  assert (Hw : page_with (radios (doc w)) w) by (split; [exact Hpage | reflexivity]).
  destruct (page_selectEnemy (radios (doc w)) id w ltac:(rewrite Hl; exact Ha) Hw)
    as (w' & E & Hw').
  assert (Hf : final (selectEnemy id w) = w') by (rewrite E; reflexivity).
  destruct Hw' as [Hpage' _]. pose proof (proj1 Hpage') as Hel.
  assert (Hfield : forall fid v, (fid, v) ∈ selectedFields id enemy -> fieldValue w' fid = v).
  { intros fid v Hd. apply fieldValue_of.
    - unfold selectedFields in Hd. cbv zeta in Hd.
      repeat (apply elem_of_cons in Hd as [[= -> ->]|Hd]; [apply Hel; in_required|]).
      apply elem_of_nil in Hd. destruct Hd.
    - rewrite <- Hf. apply (selectEnemy_writes _ id enemy Ha fid v w Hd Hl Hw).
      apply Hinputs. unfold selectedFields in Hd. cbv zeta in Hd. unfold formInputs.
      repeat (apply elem_of_cons in Hd as [[= -> ->]|Hd]; [in_list|]).
      apply elem_of_nil in Hd. destruct Hd. }
  pose proof (selectEnemy_radio _ id enemy Ha w Hl Hw) as Hradio.
  pose proof (selectEnemy_current id enemy w Hl) as Hcur.
  rewrite Hf in Hradio, Hcur.
  assert (Hid' : fieldValue w' "enemy-id" = id)
    by (apply Hfield; unfold selectedFields; in_list).
  assert (Htruthy : JsString.truthy id = true) by (destruct id; [destruct Hid|]; reflexivity).
  destruct (saveEnemy_submit_returns w' _ Hpage' Hradio ltac:(rewrite Hid'; exact Htruthy))
    as (req & Es & Hnew & Hurl & Hmeth & Hdid & Hname & Hat & Hoff & Hcol).
  exists w', req. split; [exact E|]. split; [exact Es|].
  rewrite Hcur in Hnew. change (id_truthy (Some id)) with (JsString.truthy id) in Hnew.
  rewrite Htruthy in Hnew. cbn [negb] in Hnew.
  rewrite Hnew, Hcur in Hurl. rewrite Hnew in Hmeth.
  rewrite Hid' in Hdid, Hname.
  rewrite (Hfield "enemy-name" _ ltac:(unfold selectedFields; in_list)) in Hname.
  rewrite (Hfield "weapon-offset-x" _ ltac:(unfold selectedFields; in_list)),
          (Hfield "weapon-offset-y" _ ltac:(unfold selectedFields; in_list)) in Hoff.
  rewrite (Hfield "color-r" _ ltac:(unfold selectedFields; in_list)),
          (Hfield "color-g" _ ltac:(unfold selectedFields; in_list)),
          (Hfield "color-b" _ ltac:(unfold selectedFields; in_list)) in Hcol.
  rewrite !Hparse in Hoff by in_list. rewrite !Hparse in Hcol by in_list.
  refine (conj Hnew (conj Hmeth (conj Hurl (conj Hdid (conj _ (conj Hat (conj _ Hcol))))))).
  - rewrite Hname. unfold str_or, JsString.or.
    destruct (JsString.truthy (default "" (name enemy))) eqn:Hn.
    + rewrite Hn. reflexivity.
    + rewrite Htruthy. reflexivity.
  - rewrite Hoff. cbn [default]. subst weaponOffset. destruct (default (0, 0) (weapon_offset enemy)).
    reflexivity.
Qed.

Lemma selected_enemy_saves_as_itself_witness :
  page_complete listWorld /\
  lookupEnemy "orc" (enemyTypes (vars listWorld)) = Some orc /\
  exists w' req,
    @handle ascii_platform (SelectEnemy "orc") listWorld = Ok tt w' /\
    @saveEnemy_submit ascii_platform w' = Ok (Some req) w' /\
    method req = "PUT" /\
    url req = "/api/enemy-types/orc" /\
    data_name (body req) = "orc" /\
    data_attack_type (body req) = "melee" /\
    data_weapon_offset (body req) = (10, 20) /\
    data_color (body req) = (Some 200, Some 50, Some 50).
Proof.
  assert (H1 : lookupEnemy "orc" (enemyTypes (vars listWorld)) = Some orc)
    by (vm_compute; reflexivity).
  refine (conj listWorld_complete (conj H1 _)).
  destruct (@selected_enemy_saves_as_itself ascii_platform listWorld "orc" orc
              listWorld_complete ltac:(inputs_by_evaluation) H1)
    as (w' & req & E & Es & _ & Hm & Hu & _ & Hn & Ha & Ho & Hc).
  - discriminate.
  - vm_compute. in_list.
  - intros z Hz. cbn in Hz.
    repeat (apply elem_of_cons in Hz as [->|Hz]; [vm_compute; reflexivity|]).
    apply elem_of_nil in Hz. destruct Hz.
  - exists w', req.
    exact (conj E (conj Es (conj Hm (conj Hu (conj Hn (conj Ha (conj Ho Hc))))))).
Defined.

(** ** An attack type without a radio button *)

Lemma aborted_setProp {B} (w0 : World) (sel id : string) (f : Element -> Element)
    (k : unit -> Exec B) (w : World) :
  id ∈ writtenBeforeAttackType ->
  selection_aborted w0 sel w ->
  (forall w1, selection_aborted w0 sel w1 ->
     exists w', k tt w1 = Throw w' /\ selection_aborted w0 sel w') ->
  exists w', (setProp id f ≫= k) w = Throw w' /\ selection_aborted w0 sel w'.
Proof.
  intros Hid H Hk. destruct (elements (doc w) !! id) as [e|] eqn:E.
  - rewrite (bind_ok _ _ _ _ _ (setProp_ok _ _ _ _ E)). apply Hk.
    destruct H as (H1 & H2 & H3 & H4 & H5).
    repeat split; try assumption.
    intros i Hi. rewrite withElement_lookup.
    destruct (decide (id = i)) as [<-|_]; [destruct (Hi Hid) | apply H5, Hi].
  - rewrite (bind_throw _ _ _ _ (setProp_throw _ _ _ E)). exists w. split; [reflexivity | exact H].
Qed.

Lemma checkRadio_throws (v : string) (w : World) :
  v ∉ radios (doc w) -> checkRadio v w = Throw w.
Proof.
  intros Hv. unfold checkRadio, getd. rewrite bind_gets.
  rewrite bool_decide_eq_false_2 by exact Hv. reflexivity.
Qed.

(** X19.  Selecting a stored enemy whose attack type has no radio button
    throws, half-way: the enemy is already current, but no other variable and
    nothing of the runtime has changed (no image is requested, no timer
    started), and of the document only the twelve controls written before
    the radio buttons can differ.  The editor panel, the colour and offset
    fields, the enemy list and the checked attack type are as before. *)
Theorem unknown_attack_type_aborts_selection `{P : Platform} (w : World) (id : string)
    (enemy : EnemyRecord) :
  lookupEnemy id (enemyTypes (vars w)) = Some enemy ->
  str_or (attack_type enemy) "melee" ∉ radios (doc w) ->
  exists w',
    handle (SelectEnemy id) w = Throw w' /\
    currentEnemyId (vars w') = Some id /\
    set_currentEnemyId (currentEnemyId (vars w)) (vars w') = vars w /\
    rt w' = rt w /\
    set_elements (elements (doc w)) (doc w') = doc w /\
    forall i, i ∉ writtenBeforeAttackType -> elements (doc w') !! i = elements (doc w) !! i.
Proof.
  intros Hl Ha. cbn [handle]. enter_select Hl.
  match goal with |- exists w', ?m ?w1 = Throw w' /\ _ =>
    change (exists w', m w1 = Throw w' /\ selection_aborted w id w');
    assert (H : selection_aborted w id w1)
  end.
  { clear. destruct w as [[] [] r]. repeat split. }
  revert H. generalize (set_vars (set_currentEnemyId (Some id) (vars w)) w).
  unfold setValue.
  do 13 (intros w1 H; apply (aborted_setProp w id); [unfold writtenBeforeAttackType; in_list|exact H|];
         clear w1 H).
  intros w1 H. cbv zeta. exists w1. split; [|exact H].
  apply bind_throw, checkRadio_throws.
  destruct H as (_ & _ & _ & H4 & _).
  assert (Hr : radios (doc w1) = radios (doc w)) by (rewrite <- H4; reflexivity).
  rewrite Hr. exact Ha.
Qed.

Lemma unknown_attack_type_aborts_selection_witness :
  lookupEnemy "wizard" (enemyTypes (vars wizardWorld)) = Some wizard /\
  radios (doc wizardWorld) = ["melee"; "ranged"] /\
  exists w',
    @handle ascii_platform (SelectEnemy "wizard") wizardWorld = Throw w' /\
    currentEnemyId (vars w') = Some "wizard" /\
    elements (doc w') !! "editor-panel" = elements (doc wizardWorld) !! "editor-panel" /\
    elements (doc w') !! "color-r" = elements (doc wizardWorld) !! "color-r".
Proof.
  assert (H1 : lookupEnemy "wizard" (enemyTypes (vars wizardWorld)) = Some wizard)
    by (vm_compute; reflexivity).
  assert (H2 : radios (doc wizardWorld) = ["melee"; "ranged"]) by (vm_compute; reflexivity).
  refine (conj H1 (conj H2 _)).
  destruct (@unknown_attack_type_aborts_selection ascii_platform wizardWorld "wizard" wizard H1)
    as (w' & E & Hc & _ & _ & _ & Hel).
  - rewrite H2. intros Hin.
    repeat (apply elem_of_cons in Hin as [Hin|Hin]; [discriminate Hin|]).
    apply elem_of_nil in Hin. destruct Hin.
  - exists w'. refine (conj E (conj Hc (conj _ _))); apply Hel; intros Hin;
      unfold writtenBeforeAttackType in Hin;
      repeat (apply elem_of_cons in Hin as [Hin|Hin]; [discriminate Hin|]);
      apply elem_of_nil in Hin; destruct Hin.
Defined.

(** ** Uploading a texture, deleting an enemy *)

Lemma endsWith_spec (s suffix : string) :
  JsString.endsWith s suffix = true <-> exists p, s = p +:+ suffix.
Proof.
  split.
  - induction s as [|c s IH]; cbn [JsString.endsWith].
    + rewrite orb_false_r. intros H%String.eqb_eq. exists "". exact H.
    + intros [H%String.eqb_eq|H]%orb_true_iff.
      * exists "". exact H.
      * destruct (IH H) as [p ->]. exists (String c p). reflexivity.
  - intros [p ->]. induction p as [|c p IH].
    + change ("" +:+ suffix) with suffix.
      destruct suffix; cbn [JsString.endsWith]; rewrite String.eqb_refl; reflexivity.
    + change (String c p +:+ suffix) with (String c (p +:+ suffix)).
      cbn [JsString.endsWith]. rewrite IH. apply orb_true_r.
Qed.

(** X20.  [uploadTexture] sends its request exactly for the files whose name
    ends in [.png], in lower case; for every other name it adds one toast
    and sends nothing. *)
Theorem uploadTexture_takes_only_png_names (name : string) (w : World) :
  ((exists p, name = p +:+ ".png") ->
   uploadTexture_submit name w = Ok (Some "/api/textures") w) /\
  (~ (exists p, name = p +:+ ".png") ->
   uploadTexture_submit name w =
   Ok None (set_doc (set_toasts (toasts (doc w) ++ [("Разрешены только PNG файлы", "error")])
                       (doc w)) w)).
Proof.
  unfold uploadTexture_submit. split; intros H.
  - apply endsWith_spec in H. rewrite H. reflexivity.
  - destruct (JsString.endsWith name ".png") eqn:E; [|reflexivity].
    destruct H. apply endsWith_spec, E.
Qed.

Lemma current_selectEnemy `{P : Platform} (id : string) :
  forall w, currentEnemyId (vars (final (selectEnemy id w))) = Some id.
Proof.
  intros w. destruct (lookupEnemy id (enemyTypes (vars w))) as [enemy|] eqn:Hl.
  - apply (selectEnemy_current id enemy w Hl).
  - unfold selectEnemy. rewrite run_setv, run_getv.
    cbn [vars set_vars enemyTypes set_currentEnemyId]. rewrite Hl. reflexivity.
Qed.

Lemma deleteEnemy_submit_current (confirmed : bool) (w : World) :
  deleteEnemy_submit confirmed w =
  Ok (if id_truthy (currentEnemyId (vars w)) && confirmed
      then Some ("/api/enemy-types/" +:+ default "null" (currentEnemyId (vars w)))
      else None) w.
Proof.
  unfold deleteEnemy_submit. rewrite run_getv.
  destruct (id_truthy (currentEnemyId (vars w))), confirmed; reflexivity.
Qed.

(** X21.  [deleteEnemy] asks to delete the enemy selected last.  After
    [selectEnemy] for a non-empty id, whether that id is in the store or
    not and whether [selectEnemy] returned or threw, a confirmed
    [deleteEnemy] requests [/api/enemy-types/] followed by the id, and an
    unconfirmed one requests nothing.  After [createNewEnemy], after
    [cancelEdit] and after a successful answer to a delete request, it
    requests nothing, confirmed or not. *)
Theorem deleteEnemy_targets_the_selection `{P : Platform} (w : World) (id : string)
    (confirmed : bool) :
  (id <> "" ->
   deleteEnemy_submit confirmed (step w (SelectEnemy id)) =
   Ok (if confirmed then Some ("/api/enemy-types/" +:+ id) else None)
      (step w (SelectEnemy id))) /\
  (forall e, e ∈ [CreateNewEnemy; CancelEdit; DeleteEnemyAnswered (Some true)] ->
   deleteEnemy_submit confirmed (step w e) = Ok None (step w e)).
Proof.
  split.
  - intros Hid. rewrite deleteEnemy_submit_current. unfold step. cbn [handle].
    rewrite current_selectEnemy. cbn [default id_truthy].
    destruct id; [destruct Hid; reflexivity|]. reflexivity.
  - intros e He. rewrite deleteEnemy_submit_current.
    assert (Hc : currentEnemyId (vars (step w e)) = None); [|rewrite Hc; reflexivity].
    unfold step.
    repeat (apply elem_of_cons in He as [->|He]); [| | |apply elem_of_nil in He; destruct He];
      cbn [handle].
    + unfold createNewEnemy. rewrite run_setv.
      match goal with |- _ (vars (final (?m ?w'))) = _ =>
        assert (Hp : preserves (fun w => currentEnemyId (vars w) = None) m)
          by (preserve assumption);
        apply Hp
      end.
      reflexivity.
    + unfold cancelEdit. rewrite run_setv.
      match goal with |- _ (vars (final (?m ?w'))) = _ =>
        assert (Hp : preserves (fun w => currentEnemyId (vars w) = None) m)
          by (preserve assumption);
        apply Hp
      end.
      reflexivity.
    + unfold deleteEnemy_response.
      destruct (try_catch_cases
                  (showToast "Враг удалён" "success";; setv (set_currentEnemyId None);; hideEditor)
                  (showToast "Ошибка удаления" "error") w) as [(w' & E1 & E2)|(w' & E1 & E2)];
        rewrite E2.
      * apply (f_equal final) in E1. change (final (Ok tt w')) with w' in E1 |- *.
        rewrite <- E1.
        unfold showToast, setd. rewrite bind_modify, run_setv.
        match goal with |- _ (vars (final (?m ?w'))) = _ =>
          assert (Hp : preserves (fun w => currentEnemyId (vars w) = None) m)
            by (preserve assumption);
          apply Hp
        end.
        reflexivity.
      * assert (Hp : preserves (fun w => currentEnemyId (vars w) = None)
                       (showToast "Ошибка удаления" "error")) by (intros w0 H0; exact H0).
        apply Hp. apply (f_equal final) in E1.
        change (final (@Throw unit w')) with w' in E1. rewrite <- E1.
        unfold showToast, setd. rewrite bind_modify, run_setv.
        match goal with |- _ (vars (final (?m ?w'))) = _ =>
          assert (Hp2 : preserves (fun w => currentEnemyId (vars w) = None) m)
            by (preserve assumption);
          apply Hp2
        end.
        reflexivity.
Qed.
